(** * FlexibleConnectedPositionStrategy: a shallow embedding

    Source: [src/cdk/overlay/position/flexible-connected-position-strategy.ts].

    Modelling conventions.
    - A JavaScript [number] is an exact rational ([Q]); [Math.floor] is
      [Qfloor], [Math.min]/[Math.max] are [Qmin]/[Qmax], the strict
      comparison [===] on numbers is [Qeq_bool].  [NaN] and the infinities
      are outside the model (the only division is by the literal 2).
    - String-literal unions (['start' | 'center' | 'end'], ...) are strings,
      as they are at run time.
    - A position object is referred to by a reference ([PosRef]); the objects
      themselves live in an immutable store, so that [indexOf] compares
      identities, as [===] does on objects.
    - A style declaration is a finite map from property names to values.
    - An exception is an explicit outcome next to the state reached when it
      was thrown. *)

From Stdlib Require Import QArith Qround Qminmax List Bool Lqa.
From stdpp Require Import base option gmap strings.
Import ListNotations.

Local Open Scope Q_scope.
Local Open Scope string_scope.

(** ** Numbers *)

(** [a < b] on numbers, as a boolean. *)
Definition Qltb (a b : Q) : bool := negb (Qle_bool b a).

(** [Math.floor]. *)
Definition Math_floor (q : Q) : Q := inject_Z (Qfloor q).

(** Truthiness of a number: everything but [0] (and [NaN], not modelled). *)
Definition truthy (q : Q) : bool := negb (Qeq_bool q 0).

(** ** Geometry primitives *)

Record Point := mkPoint { x : Q; y : Q }.

Record ClientRect := mkRect {
  top : Q; right : Q; bottom : Q; left : Q; width : Q; height : Q
}.

(** [BoundingBoxRect]: [_calculateBoundingBoxRect] leaves the edges it does
    not compute [undefined]. *)
Record BoundingBoxRect := mkBox {
  bb_top : option Q; bb_left : option Q; bb_bottom : option Q; bb_right : option Q;
  bb_width : Q; bb_height : Q
}.

Record ViewportScrollPosition := mkScroll { scroll_top : Q; scroll_left : Q }.

Record Size := mkSize { sz_width : Q; sz_height : Q }.

(** [ConnectedPosition].  [panelClass] is left out: CSS classes play no part
    in the geometry. *)
Record ConnectedPosition := mkPos {
  originX : string; originY : string;
  overlayX : string; overlayY : string;
  weight : option Q; offsetX : option Q; offsetY : option Q
}.

Record OverlayFit := mkFit {
  visibleArea : Q;
  isCompletelyWithinViewport : bool;
  fitsInViewportVertically : bool;
  fitsInViewportHorizontally : bool
}.

(** [getRoundedBoundingClientRect] *)
Definition getRoundedBoundingClientRect (clientRect : ClientRect) : ClientRect :=
  {| top := Math_floor (top clientRect);
     right := Math_floor (right clientRect);
     bottom := Math_floor (bottom clientRect);
     left := Math_floor (left clientRect);
     width := Math_floor (width clientRect);
     height := Math_floor (height clientRect) |}.

(** [_subtractOverflows(length, ...overflows)]: a [reduce] over the rest
    arguments, starting from [length]. *)
Definition _subtractOverflows (length : Q) (overflows : list Q) : Q :=
  fold_left (fun currentValue currentOverflow => currentValue - Qmax currentOverflow 0)
            overflows length.

(** [_getOffset(position, axis)], with the strategy's default offset as an
    argument. *)
Definition _getOffset (default_ : Q) (positionOffset : option Q) : Q :=
  match positionOffset with
  | None => default_
  | Some o => o
  end.

(** [if (offset) { coordinate += offset; }] *)
Definition plusOffset (coordinate offset : Q) : Q :=
  if truthy offset then coordinate + offset else coordinate.

(** The [visibleWidth] and [visibleHeight] of [_getOverlayFit]; [dOffsetX]
    and [dOffsetY] are the strategy's [_offsetX] and [_offsetY]. *)
Definition visibleWidth (dOffsetX : Q) (point : Point)
    (rawOverlayRect viewport : ClientRect) (position : ConnectedPosition) : Q :=
  let overlay := getRoundedBoundingClientRect rawOverlayRect in
  let x0 := plusOffset (x point) (_getOffset dOffsetX (offsetX position)) in
  let leftOverflow := 0 - x0 in
  let rightOverflow := (x0 + width overlay) - width viewport in
  _subtractOverflows (width overlay) [leftOverflow; rightOverflow].

Definition visibleHeight (dOffsetY : Q) (point : Point)
    (rawOverlayRect viewport : ClientRect) (position : ConnectedPosition) : Q :=
  let overlay := getRoundedBoundingClientRect rawOverlayRect in
  let y0 := plusOffset (y point) (_getOffset dOffsetY (offsetY position)) in
  let topOverflow := 0 - y0 in
  let bottomOverflow := (y0 + height overlay) - height viewport in
  _subtractOverflows (height overlay) [topOverflow; bottomOverflow].

(** [_getOverlayFit] *)
Definition _getOverlayFit (dOffsetX dOffsetY : Q)
    (point : Point) (rawOverlayRect viewport : ClientRect)
    (position : ConnectedPosition) : OverlayFit :=
  let overlay := getRoundedBoundingClientRect rawOverlayRect in
  let visibleWidth := visibleWidth dOffsetX point rawOverlayRect viewport position in
  let visibleHeight := visibleHeight dOffsetY point rawOverlayRect viewport position in
  let visibleArea := visibleWidth * visibleHeight in
  {| visibleArea := visibleArea;
     isCompletelyWithinViewport := Qeq_bool (width overlay * height overlay) visibleArea;
     fitsInViewportVertically := Qeq_bool visibleHeight (height overlay);
     fitsInViewportHorizontally := Qeq_bool visibleWidth (width overlay) |}.

(** ** Values crossing the boundary *)

(** A [number | string | undefined] value, as the overlay config's
    [minWidth], [minHeight], [maxWidth] and [maxHeight] are. *)
Inductive JsVal :=
| JUndefined
| JNum (q : Q)
| JStr (s : string).

(** A number that may be [NaN] (what [parseFloat] returns). *)
Inductive JsNumber :=
| NaN
| Num (q : Q).

(** A CSS property value.  Numbers inside template strings are kept as
    numbers: [CssPx q] is the string [`${q}px`], [CssTransform] the trimmed
    concatenation of the [translateX]/[translateY] parts. *)
Inductive Css :=
| CssLit (s : string)
| CssPx (q : Q)
| CssTransform (tx ty : option Q).

Record OverlayConfig := mkConfig {
  minWidth : JsVal; minHeight : JsVal; maxWidth : JsVal; maxHeight : JsVal
}.

(** DOM elements and position objects are known by their identity. *)
Definition Element := nat.
Definition PosRef := nat.

(** An [OverlayReference] is its host element and its pane; two references
    are the same overlay exactly when they have the same elements. *)
Record OverlayReference := mkOverlayRef { hostElement : Element; overlayElement : Element }.

Definition OverlayReference_eqb (a b : OverlayReference) : bool :=
  Nat.eqb (hostElement a) (hostElement b) && Nat.eqb (overlayElement a) (overlayElement b).

(** [FlexibleConnectedPositionStrategyOrigin] *)
Inductive Origin :=
| OriginElementRef (nativeElement : Element)
| OriginElement (element : Element)
| OriginPoint (px py : Q) (pwidth pheight : option Q).

Record ScrollingVisibility := mkVisibility {
  isOriginClipped : bool; isOriginOutsideView : bool;
  isOverlayClipped : bool; isOverlayOutsideView : bool
}.

(** [ConnectedOverlayPositionChange] *)
Record ConnectedOverlayPositionChange := mkChange {
  connectionPair : PosRef;
  scrollableViewProperties : ScrollingVisibility
}.

(** What the collaborators answer while one call runs: the platform, the
    build flag, the document, the viewport ruler, the elements' live
    rectangles, the overlay reference and the subscribers of
    [positionChanges]. *)
Record Env := mkEnv {
  isBrowser : bool;
  ngDevMode : bool;
  clientWidth : Q;
  clientHeight : Q;
  getViewportScrollPosition : ViewportScrollPosition;
  getBoundingClientRect : Element -> ClientRect;
  isRtl : bool;
  getConfig : OverlayConfig;
  containerTop : Q;
  observers : nat;
  scrollVisibility : ScrollingVisibility
}.

(** The same surroundings with another layout direction. *)
Definition withDirection (rtl : bool) (e : Env) : Env :=
  mkEnv (isBrowser e) (ngDevMode e) (clientWidth e) (clientHeight e)
    (getViewportScrollPosition e) (getBoundingClientRect e) rtl (getConfig e)
    (containerTop e) (observers e) (scrollVisibility e).

(** How a call ends. *)
Inductive Outcome :=
| Returned
| Threw (message : string).

(** ** The strategy instance

    The private fields the positioning code reads or writes, followed by the
    two things it writes to outside itself: the inline styles of the DOM
    elements ([dom]) and the events sent to [positionChanges] ([emitted],
    latest first). *)
Record Strategy := mkStrategy {
  _overlayRef : option OverlayReference;
  _isInitialRender : bool;
  _lastBoundingBoxSize : Size;
  _isPushed : bool;
  _canPush : bool;
  _growAfterOpen : bool;
  _hasFlexibleDimensions : bool;
  _positionLocked : bool;
  _originRect : ClientRect;
  _overlayRect : ClientRect;
  _viewportRect : ClientRect;
  _viewportMargin : Q;
  _preferredPositions : list PosRef;
  _origin : Origin;
  _pane : option Element;
  _boundingBox : option Element;
  _isDisposed : bool;
  _lastPosition : option PosRef;
  _resizeSubscription : bool;
  _offsetX : Q;
  _offsetY : Q;
  _previousPushAmount : option Point;
  dom : gmap Element (gmap string Css);
  emitted : list ConnectedOverlayPositionChange
}.

Definition set_overlayRef (v : option OverlayReference) (s : Strategy) : Strategy :=
  mkStrategy v (_isInitialRender s) (_lastBoundingBoxSize s) (_isPushed s) (_canPush s)
      (_growAfterOpen s) (_hasFlexibleDimensions s) (_positionLocked s) (_originRect s)
      (_overlayRect s) (_viewportRect s) (_viewportMargin s) (_preferredPositions s)
      (_origin s) (_pane s) (_boundingBox s) (_isDisposed s) (_lastPosition s)
      (_resizeSubscription s) (_offsetX s) (_offsetY s) (_previousPushAmount s) (dom s)
      (emitted s).
Definition set_isInitialRender (v : bool) (s : Strategy) : Strategy :=
  mkStrategy (_overlayRef s) v (_lastBoundingBoxSize s) (_isPushed s) (_canPush s)
      (_growAfterOpen s) (_hasFlexibleDimensions s) (_positionLocked s) (_originRect s)
      (_overlayRect s) (_viewportRect s) (_viewportMargin s) (_preferredPositions s)
      (_origin s) (_pane s) (_boundingBox s) (_isDisposed s) (_lastPosition s)
      (_resizeSubscription s) (_offsetX s) (_offsetY s) (_previousPushAmount s) (dom s)
      (emitted s).
Definition set_lastBoundingBoxSize (v : Size) (s : Strategy) : Strategy :=
  mkStrategy (_overlayRef s) (_isInitialRender s) v (_isPushed s) (_canPush s)
      (_growAfterOpen s) (_hasFlexibleDimensions s) (_positionLocked s) (_originRect s)
      (_overlayRect s) (_viewportRect s) (_viewportMargin s) (_preferredPositions s)
      (_origin s) (_pane s) (_boundingBox s) (_isDisposed s) (_lastPosition s)
      (_resizeSubscription s) (_offsetX s) (_offsetY s) (_previousPushAmount s) (dom s)
      (emitted s).
Definition set_isPushed (v : bool) (s : Strategy) : Strategy :=
  mkStrategy (_overlayRef s) (_isInitialRender s) (_lastBoundingBoxSize s) v (_canPush
      s) (_growAfterOpen s) (_hasFlexibleDimensions s) (_positionLocked s) (_originRect
      s) (_overlayRect s) (_viewportRect s) (_viewportMargin s) (_preferredPositions s)
      (_origin s) (_pane s) (_boundingBox s) (_isDisposed s) (_lastPosition s)
      (_resizeSubscription s) (_offsetX s) (_offsetY s) (_previousPushAmount s) (dom s)
      (emitted s).
Definition set_canPush (v : bool) (s : Strategy) : Strategy :=
  mkStrategy (_overlayRef s) (_isInitialRender s) (_lastBoundingBoxSize s) (_isPushed s)
      v (_growAfterOpen s) (_hasFlexibleDimensions s) (_positionLocked s) (_originRect
      s) (_overlayRect s) (_viewportRect s) (_viewportMargin s) (_preferredPositions s)
      (_origin s) (_pane s) (_boundingBox s) (_isDisposed s) (_lastPosition s)
      (_resizeSubscription s) (_offsetX s) (_offsetY s) (_previousPushAmount s) (dom s)
      (emitted s).
Definition set_growAfterOpen (v : bool) (s : Strategy) : Strategy :=
  mkStrategy (_overlayRef s) (_isInitialRender s) (_lastBoundingBoxSize s) (_isPushed s)
      (_canPush s) v (_hasFlexibleDimensions s) (_positionLocked s) (_originRect s)
      (_overlayRect s) (_viewportRect s) (_viewportMargin s) (_preferredPositions s)
      (_origin s) (_pane s) (_boundingBox s) (_isDisposed s) (_lastPosition s)
      (_resizeSubscription s) (_offsetX s) (_offsetY s) (_previousPushAmount s) (dom s)
      (emitted s).
Definition set_hasFlexibleDimensions (v : bool) (s : Strategy) : Strategy :=
  mkStrategy (_overlayRef s) (_isInitialRender s) (_lastBoundingBoxSize s) (_isPushed s)
      (_canPush s) (_growAfterOpen s) v (_positionLocked s) (_originRect s)
      (_overlayRect s) (_viewportRect s) (_viewportMargin s) (_preferredPositions s)
      (_origin s) (_pane s) (_boundingBox s) (_isDisposed s) (_lastPosition s)
      (_resizeSubscription s) (_offsetX s) (_offsetY s) (_previousPushAmount s) (dom s)
      (emitted s).
Definition set_positionLocked (v : bool) (s : Strategy) : Strategy :=
  mkStrategy (_overlayRef s) (_isInitialRender s) (_lastBoundingBoxSize s) (_isPushed s)
      (_canPush s) (_growAfterOpen s) (_hasFlexibleDimensions s) v (_originRect s)
      (_overlayRect s) (_viewportRect s) (_viewportMargin s) (_preferredPositions s)
      (_origin s) (_pane s) (_boundingBox s) (_isDisposed s) (_lastPosition s)
      (_resizeSubscription s) (_offsetX s) (_offsetY s) (_previousPushAmount s) (dom s)
      (emitted s).
Definition set_originRect (v : ClientRect) (s : Strategy) : Strategy :=
  mkStrategy (_overlayRef s) (_isInitialRender s) (_lastBoundingBoxSize s) (_isPushed s)
      (_canPush s) (_growAfterOpen s) (_hasFlexibleDimensions s) (_positionLocked s) v
      (_overlayRect s) (_viewportRect s) (_viewportMargin s) (_preferredPositions s)
      (_origin s) (_pane s) (_boundingBox s) (_isDisposed s) (_lastPosition s)
      (_resizeSubscription s) (_offsetX s) (_offsetY s) (_previousPushAmount s) (dom s)
      (emitted s).
Definition set_overlayRect (v : ClientRect) (s : Strategy) : Strategy :=
  mkStrategy (_overlayRef s) (_isInitialRender s) (_lastBoundingBoxSize s) (_isPushed s)
      (_canPush s) (_growAfterOpen s) (_hasFlexibleDimensions s) (_positionLocked s)
      (_originRect s) v (_viewportRect s) (_viewportMargin s) (_preferredPositions s)
      (_origin s) (_pane s) (_boundingBox s) (_isDisposed s) (_lastPosition s)
      (_resizeSubscription s) (_offsetX s) (_offsetY s) (_previousPushAmount s) (dom s)
      (emitted s).
Definition set_viewportRect (v : ClientRect) (s : Strategy) : Strategy :=
  mkStrategy (_overlayRef s) (_isInitialRender s) (_lastBoundingBoxSize s) (_isPushed s)
      (_canPush s) (_growAfterOpen s) (_hasFlexibleDimensions s) (_positionLocked s)
      (_originRect s) (_overlayRect s) v (_viewportMargin s) (_preferredPositions s)
      (_origin s) (_pane s) (_boundingBox s) (_isDisposed s) (_lastPosition s)
      (_resizeSubscription s) (_offsetX s) (_offsetY s) (_previousPushAmount s) (dom s)
      (emitted s).
Definition set_viewportMargin (v : Q) (s : Strategy) : Strategy :=
  mkStrategy (_overlayRef s) (_isInitialRender s) (_lastBoundingBoxSize s) (_isPushed s)
      (_canPush s) (_growAfterOpen s) (_hasFlexibleDimensions s) (_positionLocked s)
      (_originRect s) (_overlayRect s) (_viewportRect s) v (_preferredPositions s)
      (_origin s) (_pane s) (_boundingBox s) (_isDisposed s) (_lastPosition s)
      (_resizeSubscription s) (_offsetX s) (_offsetY s) (_previousPushAmount s) (dom s)
      (emitted s).
Definition set_preferredPositions (v : list PosRef) (s : Strategy) : Strategy :=
  mkStrategy (_overlayRef s) (_isInitialRender s) (_lastBoundingBoxSize s) (_isPushed s)
      (_canPush s) (_growAfterOpen s) (_hasFlexibleDimensions s) (_positionLocked s)
      (_originRect s) (_overlayRect s) (_viewportRect s) (_viewportMargin s) v (_origin
      s) (_pane s) (_boundingBox s) (_isDisposed s) (_lastPosition s)
      (_resizeSubscription s) (_offsetX s) (_offsetY s) (_previousPushAmount s) (dom s)
      (emitted s).
Definition set_origin (v : Origin) (s : Strategy) : Strategy :=
  mkStrategy (_overlayRef s) (_isInitialRender s) (_lastBoundingBoxSize s) (_isPushed s)
      (_canPush s) (_growAfterOpen s) (_hasFlexibleDimensions s) (_positionLocked s)
      (_originRect s) (_overlayRect s) (_viewportRect s) (_viewportMargin s)
      (_preferredPositions s) v (_pane s) (_boundingBox s) (_isDisposed s)
      (_lastPosition s) (_resizeSubscription s) (_offsetX s) (_offsetY s)
      (_previousPushAmount s) (dom s) (emitted s).
Definition set_pane (v : option Element) (s : Strategy) : Strategy :=
  mkStrategy (_overlayRef s) (_isInitialRender s) (_lastBoundingBoxSize s) (_isPushed s)
      (_canPush s) (_growAfterOpen s) (_hasFlexibleDimensions s) (_positionLocked s)
      (_originRect s) (_overlayRect s) (_viewportRect s) (_viewportMargin s)
      (_preferredPositions s) (_origin s) v (_boundingBox s) (_isDisposed s)
      (_lastPosition s) (_resizeSubscription s) (_offsetX s) (_offsetY s)
      (_previousPushAmount s) (dom s) (emitted s).
Definition set_boundingBox (v : option Element) (s : Strategy) : Strategy :=
  mkStrategy (_overlayRef s) (_isInitialRender s) (_lastBoundingBoxSize s) (_isPushed s)
      (_canPush s) (_growAfterOpen s) (_hasFlexibleDimensions s) (_positionLocked s)
      (_originRect s) (_overlayRect s) (_viewportRect s) (_viewportMargin s)
      (_preferredPositions s) (_origin s) (_pane s) v (_isDisposed s) (_lastPosition s)
      (_resizeSubscription s) (_offsetX s) (_offsetY s) (_previousPushAmount s) (dom s)
      (emitted s).
Definition set_isDisposed (v : bool) (s : Strategy) : Strategy :=
  mkStrategy (_overlayRef s) (_isInitialRender s) (_lastBoundingBoxSize s) (_isPushed s)
      (_canPush s) (_growAfterOpen s) (_hasFlexibleDimensions s) (_positionLocked s)
      (_originRect s) (_overlayRect s) (_viewportRect s) (_viewportMargin s)
      (_preferredPositions s) (_origin s) (_pane s) (_boundingBox s) v (_lastPosition s)
      (_resizeSubscription s) (_offsetX s) (_offsetY s) (_previousPushAmount s) (dom s)
      (emitted s).
Definition set_lastPosition (v : option PosRef) (s : Strategy) : Strategy :=
  mkStrategy (_overlayRef s) (_isInitialRender s) (_lastBoundingBoxSize s) (_isPushed s)
      (_canPush s) (_growAfterOpen s) (_hasFlexibleDimensions s) (_positionLocked s)
      (_originRect s) (_overlayRect s) (_viewportRect s) (_viewportMargin s)
      (_preferredPositions s) (_origin s) (_pane s) (_boundingBox s) (_isDisposed s) v
      (_resizeSubscription s) (_offsetX s) (_offsetY s) (_previousPushAmount s) (dom s)
      (emitted s).
Definition set_resizeSubscription (v : bool) (s : Strategy) : Strategy :=
  mkStrategy (_overlayRef s) (_isInitialRender s) (_lastBoundingBoxSize s) (_isPushed s)
      (_canPush s) (_growAfterOpen s) (_hasFlexibleDimensions s) (_positionLocked s)
      (_originRect s) (_overlayRect s) (_viewportRect s) (_viewportMargin s)
      (_preferredPositions s) (_origin s) (_pane s) (_boundingBox s) (_isDisposed s)
      (_lastPosition s) v (_offsetX s) (_offsetY s) (_previousPushAmount s) (dom s)
      (emitted s).
Definition set_offsetX (v : Q) (s : Strategy) : Strategy :=
  mkStrategy (_overlayRef s) (_isInitialRender s) (_lastBoundingBoxSize s) (_isPushed s)
      (_canPush s) (_growAfterOpen s) (_hasFlexibleDimensions s) (_positionLocked s)
      (_originRect s) (_overlayRect s) (_viewportRect s) (_viewportMargin s)
      (_preferredPositions s) (_origin s) (_pane s) (_boundingBox s) (_isDisposed s)
      (_lastPosition s) (_resizeSubscription s) v (_offsetY s) (_previousPushAmount s)
      (dom s) (emitted s).
Definition set_offsetY (v : Q) (s : Strategy) : Strategy :=
  mkStrategy (_overlayRef s) (_isInitialRender s) (_lastBoundingBoxSize s) (_isPushed s)
      (_canPush s) (_growAfterOpen s) (_hasFlexibleDimensions s) (_positionLocked s)
      (_originRect s) (_overlayRect s) (_viewportRect s) (_viewportMargin s)
      (_preferredPositions s) (_origin s) (_pane s) (_boundingBox s) (_isDisposed s)
      (_lastPosition s) (_resizeSubscription s) (_offsetX s) v (_previousPushAmount s)
      (dom s) (emitted s).
Definition set_previousPushAmount (v : option Point) (s : Strategy) : Strategy :=
  mkStrategy (_overlayRef s) (_isInitialRender s) (_lastBoundingBoxSize s) (_isPushed s)
      (_canPush s) (_growAfterOpen s) (_hasFlexibleDimensions s) (_positionLocked s)
      (_originRect s) (_overlayRect s) (_viewportRect s) (_viewportMargin s)
      (_preferredPositions s) (_origin s) (_pane s) (_boundingBox s) (_isDisposed s)
      (_lastPosition s) (_resizeSubscription s) (_offsetX s) (_offsetY s) v (dom s)
      (emitted s).
Definition set_dom (v : gmap Element (gmap string Css)) (s : Strategy) : Strategy :=
  mkStrategy (_overlayRef s) (_isInitialRender s) (_lastBoundingBoxSize s) (_isPushed s)
      (_canPush s) (_growAfterOpen s) (_hasFlexibleDimensions s) (_positionLocked s)
      (_originRect s) (_overlayRect s) (_viewportRect s) (_viewportMargin s)
      (_preferredPositions s) (_origin s) (_pane s) (_boundingBox s) (_isDisposed s)
      (_lastPosition s) (_resizeSubscription s) (_offsetX s) (_offsetY s)
      (_previousPushAmount s) v (emitted s).
Definition set_emitted (v : list ConnectedOverlayPositionChange) (s : Strategy) : Strategy :=
  mkStrategy (_overlayRef s) (_isInitialRender s) (_lastBoundingBoxSize s) (_isPushed s)
      (_canPush s) (_growAfterOpen s) (_hasFlexibleDimensions s) (_positionLocked s)
      (_originRect s) (_overlayRect s) (_viewportRect s) (_viewportMargin s)
      (_preferredPositions s) (_origin s) (_pane s) (_boundingBox s) (_isDisposed s)
      (_lastPosition s) (_resizeSubscription s) (_offsetX s) (_offsetY s)
      (_previousPushAmount s) (dom s) v.

(** The strategy as its field initialisers leave it, before the constructor's
    [setOrigin]: fields without an initialiser are [undefined], that is falsy
    ([false], [None]) or, for the cached rectangles, never read before
    [apply] or [reapplyLastPosition] has written them. *)
Definition zeroRect : ClientRect := mkRect 0 0 0 0 0 0.

Definition newStrategy (connectedTo : Origin) : Strategy :=
  {| _overlayRef := None;
     _isInitialRender := false;
     _lastBoundingBoxSize := mkSize 0 0;
     _isPushed := false;
     _canPush := true;
     _growAfterOpen := false;
     _hasFlexibleDimensions := true;
     _positionLocked := false;
     _originRect := zeroRect;
     _overlayRect := zeroRect;
     _viewportRect := zeroRect;
     _viewportMargin := 0;
     _preferredPositions := [];
     _origin := connectedTo;
     _pane := None;
     _boundingBox := None;
     _isDisposed := false;
     _lastPosition := None;
     _resizeSubscription := false;
     _offsetX := 0;
     _offsetY := 0;
     _previousPushAmount := None;
     dom := ∅;
     emitted := [] |}.

(** ** Free functions of the module *)

(** [cssUnitPattern = /([A-Za-z%]+)$/] *)
Definition isUnitChar (c : Ascii.ascii) : bool :=
  let n := Ascii.nat_of_ascii c in
  ((65 <=? n)%nat && (n <=? 90)%nat) || ((97 <=? n)%nat && (n <=? 122)%nat) || (n =? 37)%nat.

(** [input.split(cssUnitPattern)]: the text before the trailing run of unit
    characters, and that run (empty when the pattern does not match, where
    the second element of the array is [undefined]). *)
Fixpoint splitCssUnits (input : string) : string * string :=
  match input with
  | EmptyString => (EmptyString, EmptyString)
  | String c rest =>
      let '(value, units) := splitCssUnits rest in
      match value with
      | EmptyString => if isUnitChar c then (EmptyString, String c units)
                       else (String c EmptyString, units)
      | _ => (String c value, units)
      end
  end.

(** [extendStyles(destination, source)]: own keys of [source] win. *)
Definition extendStyles (destination source : gmap string Css) : gmap string Css :=
  source ∪ destination.

(** Writing a style object onto an element of the document. *)
Definition styleOf (d : gmap Element (gmap string Css)) (el : Element) : gmap string Css :=
  default ∅ (d !! el).

Definition extendElementStyles (el : option Element) (source : gmap string Css)
    (d : gmap Element (gmap string Css)) : gmap Element (gmap string Css) :=
  match el with
  | Some e => <[e := extendStyles (styleOf d e) source]> d
  | None => d
  end.

(** Truthiness of a [number | string | undefined] value. *)
Definition truthyVal (v : JsVal) : bool :=
  match v with
  | JUndefined => false
  | JNum q => truthy q
  | JStr s => negb (String.eqb s "")
  end.

Section Runtime.

(** The position objects the caller created. *)
Variable objects : PosRef -> ConnectedPosition.

(** The global [parseFloat]. *)
Variable parseFloat : string -> JsNumber.

(** [coerceCssPixelValue] of [@angular/cdk/coercion], which this module
    imports. *)
Variable coerceCssPixelValue : JsVal -> Css.

(** [getPixelValue]: [None] is [null]. *)
Definition getPixelValue (input : JsVal) : option JsNumber :=
  match input with
  | JStr s =>
      let '(value, units) := splitCssUnits s in
      if String.eqb units "" || String.eqb units "px"
      then Some (parseFloat value) else None
  | JNum q => if truthy q then Some (Num q) else None
  | JUndefined => None
  end.

(** [minimum != null && minimum <= available] *)
Definition meetsMinimum (minimum : option JsNumber) (available : Q) : bool :=
  match minimum with
  | Some (Num m) => Qle_bool m available
  | _ => false
  end.

(** [_getOriginPoint] *)
Definition _getOriginPoint (rtl : bool) (originRect : ClientRect)
    (pos : ConnectedPosition) : Point :=
  let x_ :=
    if String.eqb (originX pos) "center" then left originRect + (width originRect / 2)
    else
      let startX := if rtl then right originRect else left originRect in
      let endX := if rtl then left originRect else right originRect in
      if String.eqb (originX pos) "start" then startX else endX in
  let y_ :=
    if String.eqb (originY pos) "center" then top originRect + (height originRect / 2)
    else if String.eqb (originY pos) "top" then top originRect else bottom originRect in
  {| x := x_; y := y_ |}.

(** [_getOverlayPoint] *)
Definition _getOverlayPoint (rtl : bool) (originPoint : Point)
    (overlayRect : ClientRect) (pos : ConnectedPosition) : Point :=
  let overlayStartX :=
    if String.eqb (overlayX pos) "center" then - width overlayRect / 2
    else if String.eqb (overlayX pos) "start"
         then (if rtl then - width overlayRect else 0)
         else (if rtl then 0 else - width overlayRect) in
  let overlayStartY :=
    if String.eqb (overlayY pos) "center" then - height overlayRect / 2
    else if String.eqb (overlayY pos) "top" then 0 else - height overlayRect in
  {| x := x originPoint + overlayStartX; y := y originPoint + overlayStartY |}.

(** [_canFitWithFlexibleDimensions] *)
Definition _canFitWithFlexibleDimensions (s : Strategy) (e : Env)
    (fit : OverlayFit) (point : Point) (viewport : ClientRect) : bool :=
  if _hasFlexibleDimensions s then
    let availableHeight := bottom viewport - y point in
    let availableWidth := right viewport - x point in
    let minHeight := getPixelValue (minHeight (getConfig e)) in
    let minWidth := getPixelValue (minWidth (getConfig e)) in
    let verticalFit := fitsInViewportVertically fit || meetsMinimum minHeight availableHeight in
    let horizontalFit := fitsInViewportHorizontally fit || meetsMinimum minWidth availableWidth in
    verticalFit && horizontalFit
  else false.

(** [_getNarrowedViewportRect] *)
Definition _getNarrowedViewportRect (s : Strategy) (e : Env) : ClientRect :=
  let width_ := clientWidth e in
  let height_ := clientHeight e in
  let scrollPosition := getViewportScrollPosition e in
  {| top := scroll_top scrollPosition + _viewportMargin s;
     left := scroll_left scrollPosition + _viewportMargin s;
     right := scroll_left scrollPosition + width_ - _viewportMargin s;
     bottom := scroll_top scrollPosition + height_ - _viewportMargin s;
     width := width_ - (2 * _viewportMargin s);
     height := height_ - (2 * _viewportMargin s) |}.

(** [origin.width || 0] *)
Definition orZero (v : option Q) : Q :=
  match v with
  | Some q => if truthy q then q else 0
  | None => 0
  end.

(** [_getOriginRect] *)
Definition _getOriginRect (s : Strategy) (e : Env) : ClientRect :=
  match _origin s with
  | OriginElementRef nativeElement => getBoundingClientRect e nativeElement
  | OriginElement element => getBoundingClientRect e element
  | OriginPoint px py pwidth pheight =>
      let width_ := orZero pwidth in
      let height_ := orZero pheight in
      {| top := py; bottom := py + height_; left := px; right := px + width_;
         height := height_; width := width_ |}
  end.

(** [_hasExactPosition] *)
Definition _hasExactPosition (s : Strategy) : bool :=
  negb (_hasFlexibleDimensions s) || _isPushed s.


(** [_pushOverlayOnScreen]: the new point, and the strategy with the push
    amount recorded. *)
Definition _pushOverlayOnScreen (s : Strategy) (start : Point)
    (rawOverlayRect : ClientRect) (scrollPosition : ViewportScrollPosition)
    : Strategy * Point :=
  match _previousPushAmount s, _positionLocked s with
  | Some previous, true =>
      (s, {| x := x start + x previous; y := y start + y previous |})
  | _, _ =>
      let overlay := getRoundedBoundingClientRect rawOverlayRect in
      let viewport := _viewportRect s in
      let overflowRight := Qmax (x start + width overlay - width viewport) 0 in
      let overflowBottom := Qmax (y start + height overlay - height viewport) 0 in
      let overflowTop := Qmax (top viewport - scroll_top scrollPosition - y start) 0 in
      let overflowLeft := Qmax (left viewport - scroll_left scrollPosition - x start) 0 in
      let pushX :=
        if Qle_bool (width overlay) (width viewport)
        then (if truthy overflowLeft then overflowLeft else - overflowRight)
        else (if Qltb (x start) (_viewportMargin s)
              then (left viewport - scroll_left scrollPosition) - x start else 0) in
      let pushY :=
        if Qle_bool (height overlay) (height viewport)
        then (if truthy overflowTop then overflowTop else - overflowBottom)
        else (if Qltb (y start) (_viewportMargin s)
              then (top viewport - scroll_top scrollPosition) - y start else 0) in
      (set_previousPushAmount (Some {| x := pushX; y := pushY |}) s,
       {| x := x start + pushX; y := y start + pushY |})
  end.

(** [_calculateBoundingBoxRect] *)
Definition _calculateBoundingBoxRect (s : Strategy) (e : Env) (origin : Point)
    (position : ConnectedPosition) : BoundingBoxRect :=
  let viewport := _viewportRect s in
  let rtl := isRtl e in
  let '(height_, top_, bottom_) :=
    if String.eqb (overlayY position) "top" then
      let top_ := y origin in
      (height viewport - top_ + _viewportMargin s, Some top_, None)
    else if String.eqb (overlayY position) "bottom" then
      let bottom_ := height viewport - y origin + _viewportMargin s * 2 in
      (height viewport - bottom_ + _viewportMargin s, None, Some bottom_)
    else
      let smallestDistanceToViewportEdge :=
        Qmin (bottom viewport - y origin + top viewport) (y origin) in
      let previousHeight := sz_height (_lastBoundingBoxSize s) in
      let height_ := smallestDistanceToViewportEdge * 2 in
      let top_ :=
        if Qltb previousHeight height_ && negb (_isInitialRender s) && negb (_growAfterOpen s)
        then y origin - (previousHeight / 2)
        else y origin - smallestDistanceToViewportEdge in
      (height_, Some top_, None) in
  let isBoundedByRightViewportEdge :=
    (String.eqb (overlayX position) "start" && negb rtl) ||
    (String.eqb (overlayX position) "end" && rtl) in
  let isBoundedByLeftViewportEdge :=
    (String.eqb (overlayX position) "end" && negb rtl) ||
    (String.eqb (overlayX position) "start" && rtl) in
  let '(width_, left_, right_) :=
    if isBoundedByLeftViewportEdge then
      (x origin - _viewportMargin s, None,
       Some (width viewport - x origin + _viewportMargin s))
    else if isBoundedByRightViewportEdge then
      (right viewport - x origin, Some (x origin), None)
    else
      let smallestDistanceToViewportEdge :=
        Qmin (right viewport - x origin + left viewport) (x origin) in
      let previousWidth := sz_width (_lastBoundingBoxSize s) in
      let width_ := smallestDistanceToViewportEdge * 2 in
      let left_ :=
        if Qltb previousWidth width_ && negb (_isInitialRender s) && negb (_growAfterOpen s)
        then x origin - (previousWidth / 2)
        else x origin - smallestDistanceToViewportEdge in
      (width_, Some left_, None) in
  {| bb_top := top_; bb_left := left_; bb_bottom := bottom_; bb_right := right_;
     bb_width := width_; bb_height := height_ |}.

(** A possibly [undefined] number, for [coerceCssPixelValue]. *)
Definition numberOrUndefined (v : option Q) : JsVal :=
  match v with
  | Some q => JNum q
  | None => JUndefined
  end.

(** The size the wrapper gets: the lines of [_setBoundingBoxStyles] that take
    the last size into account. *)
Definition cappedBoundingBoxRect (s : Strategy) (boundingBoxRect : BoundingBoxRect)
    : BoundingBoxRect :=
  if negb (_isInitialRender s) && negb (_growAfterOpen s) then
    {| bb_top := bb_top boundingBoxRect; bb_left := bb_left boundingBoxRect;
       bb_bottom := bb_bottom boundingBoxRect; bb_right := bb_right boundingBoxRect;
       bb_width := Qmin (bb_width boundingBoxRect) (sz_width (_lastBoundingBoxSize s));
       bb_height := Qmin (bb_height boundingBoxRect) (sz_height (_lastBoundingBoxSize s)) |}
  else boundingBoxRect.

(** The style object [_setBoundingBoxStyles] builds. *)
Definition boundingBoxStyles (s : Strategy) (e : Env) (boundingBoxRect : BoundingBoxRect)
    (position : ConnectedPosition) : gmap string Css :=
  if _hasExactPosition s then
    list_to_map [("top", CssLit "0"); ("left", CssLit "0");
                 ("bottom", CssLit ""); ("right", CssLit "");
                 ("maxHeight", CssLit ""); ("maxWidth", CssLit "");
                 ("width", CssLit "100%"); ("height", CssLit "100%")]
  else
    let maxHeight := maxHeight (getConfig e) in
    let maxWidth := maxWidth (getConfig e) in
    let styles : gmap string Css :=
      list_to_map
        [("height", coerceCssPixelValue (JNum (bb_height boundingBoxRect)));
         ("top", coerceCssPixelValue (numberOrUndefined (bb_top boundingBoxRect)));
         ("bottom", coerceCssPixelValue (numberOrUndefined (bb_bottom boundingBoxRect)));
         ("width", coerceCssPixelValue (JNum (bb_width boundingBoxRect)));
         ("left", coerceCssPixelValue (numberOrUndefined (bb_left boundingBoxRect)));
         ("right", coerceCssPixelValue (numberOrUndefined (bb_right boundingBoxRect)));
         ("alignItems",
          if String.eqb (overlayX position) "center" then CssLit "center"
          else if String.eqb (overlayX position) "end" then CssLit "flex-end"
               else CssLit "flex-start");
         ("justifyContent",
          if String.eqb (overlayY position) "center" then CssLit "center"
          else if String.eqb (overlayY position) "bottom" then CssLit "flex-end"
               else CssLit "flex-start")] in
    let styles :=
      if truthyVal maxHeight then <["maxHeight" := coerceCssPixelValue maxHeight]> styles
      else styles in
    if truthyVal maxWidth then <["maxWidth" := coerceCssPixelValue maxWidth]> styles
    else styles.

(** [_setBoundingBoxStyles] *)
Definition _setBoundingBoxStyles (s : Strategy) (e : Env) (origin : Point)
    (position : ConnectedPosition) : Strategy :=
  let boundingBoxRect := cappedBoundingBoxRect s (_calculateBoundingBoxRect s e origin position) in
  let styles := boundingBoxStyles s e boundingBoxRect position in
  let s := set_lastBoundingBoxSize
             (mkSize (bb_width boundingBoxRect) (bb_height boundingBoxRect)) s in
  set_dom (extendElementStyles (_boundingBox s) styles (dom s)) s.

(** [_getExactOverlayY] *)
Definition _getExactOverlayY (s : Strategy) (e : Env) (position : ConnectedPosition)
    (originPoint : Point) (scrollPosition : ViewportScrollPosition)
    : Strategy * gmap string Css :=
  let styles : gmap string Css := list_to_map [("top", CssLit ""); ("bottom", CssLit "")] in
  let overlayPoint := _getOverlayPoint (isRtl e) originPoint (_overlayRect s) position in
  let '(s, overlayPoint) :=
    if _isPushed s then _pushOverlayOnScreen s overlayPoint (_overlayRect s) scrollPosition
    else (s, overlayPoint) in
  let virtualKeyboardOffset := containerTop e in
  let overlayPoint := {| x := x overlayPoint; y := y overlayPoint - virtualKeyboardOffset |} in
  (s,
   if String.eqb (overlayY position) "bottom" then
     let documentHeight := clientHeight e in
     <["bottom" := CssPx (documentHeight - (y overlayPoint + height (_overlayRect s)))]> styles
   else
     <["top" := coerceCssPixelValue (JNum (y overlayPoint))]> styles).

(** [_getExactOverlayX] *)
Definition _getExactOverlayX (s : Strategy) (e : Env) (position : ConnectedPosition)
    (originPoint : Point) (scrollPosition : ViewportScrollPosition)
    : Strategy * gmap string Css :=
  let styles : gmap string Css := list_to_map [("left", CssLit ""); ("right", CssLit "")] in
  let overlayPoint := _getOverlayPoint (isRtl e) originPoint (_overlayRect s) position in
  let '(s, overlayPoint) :=
    if _isPushed s then _pushOverlayOnScreen s overlayPoint (_overlayRect s) scrollPosition
    else (s, overlayPoint) in
  let horizontalStyleProperty :=
    if isRtl e
    then (if String.eqb (overlayX position) "end" then "left" else "right")
    else (if String.eqb (overlayX position) "end" then "right" else "left") in
  (s,
   if String.eqb horizontalStyleProperty "right" then
     let documentWidth := clientWidth e in
     <["right" := CssPx (documentWidth - (x overlayPoint + width (_overlayRect s)))]> styles
   else
     <["left" := coerceCssPixelValue (JNum (x overlayPoint))]> styles).

(** The trimmed [transformString] of [_setOverlayElementStyles]. *)
Definition transformString (offX offY : Q) : Css :=
  match truthy offX, truthy offY with
  | false, false => CssLit ""
  | tx, ty => CssTransform (if tx then Some offX else None) (if ty then Some offY else None)
  end.

(** The style object [_setOverlayElementStyles] builds; computing it may
    record a push amount. *)
Definition overlayElementStyles (s : Strategy) (e : Env) (originPoint : Point)
    (position : ConnectedPosition) : Strategy * gmap string Css :=
  let hasExactPosition := _hasExactPosition s in
  let hasFlexibleDimensions := _hasFlexibleDimensions s in
  let config := getConfig e in
  let '(s, styles) :=
    if hasExactPosition then
      let scrollPosition := getViewportScrollPosition e in
      let '(s, stylesY) := _getExactOverlayY s e position originPoint scrollPosition in
      let styles := extendStyles ∅ stylesY in
      let '(s, stylesX) := _getExactOverlayX s e position originPoint scrollPosition in
      (s, extendStyles styles stylesX)
    else (s, {["position" := CssLit "static"]}) in
  let offX := _getOffset (_offsetX s) (offsetX position) in
  let offY := _getOffset (_offsetY s) (offsetY position) in
  let styles := <["transform" := transformString offX offY]> styles in
  let styles :=
    if truthyVal (maxHeight config) then
      if hasExactPosition then <["maxHeight" := coerceCssPixelValue (maxHeight config)]> styles
      else if hasFlexibleDimensions then <["maxHeight" := CssLit ""]> styles
      else styles
    else styles in
  let styles :=
    if truthyVal (maxWidth config) then
      if hasExactPosition then <["maxWidth" := coerceCssPixelValue (maxWidth config)]> styles
      else if hasFlexibleDimensions then <["maxWidth" := CssLit ""]> styles
      else styles
    else styles in
  (s, styles).

(** [_setOverlayElementStyles] *)
Definition _setOverlayElementStyles (s : Strategy) (e : Env) (originPoint : Point)
    (position : ConnectedPosition) : Strategy :=
  let '(s, styles) := overlayElementStyles s e originPoint position in
  set_dom (extendElementStyles (_pane s) styles (dom s)) s.

(** [_resetBoundingBoxStyles] *)
Definition _resetBoundingBoxStyles (s : Strategy) : Strategy :=
  set_dom (extendElementStyles (_boundingBox s)
             (list_to_map [("top", CssLit "0"); ("left", CssLit "0");
                           ("right", CssLit "0"); ("bottom", CssLit "0");
                           ("height", CssLit ""); ("width", CssLit "");
                           ("alignItems", CssLit ""); ("justifyContent", CssLit "")])
             (dom s)) s.

(** [_resetOverlayElementStyles] *)
Definition _resetOverlayElementStyles (s : Strategy) : Strategy :=
  set_dom (extendElementStyles (_pane s)
             (list_to_map [("top", CssLit ""); ("left", CssLit "");
                           ("bottom", CssLit ""); ("right", CssLit "");
                           ("position", CssLit ""); ("transform", CssLit "")])
             (dom s)) s.

(** [_applyPosition].  [_setTransformOrigin] and [_addPanelClasses] touch
    neither the fields nor the styles modelled here. *)
Definition _applyPosition (s : Strategy) (e : Env) (position : PosRef)
    (originPoint : Point) : Strategy :=
  let s := _setOverlayElementStyles s e originPoint (objects position) in
  let s := _setBoundingBoxStyles s e originPoint (objects position) in
  let s := set_lastPosition (Some position) s in
  let s :=
    if (0 <? observers e)%nat
    then set_emitted (mkChange position (scrollVisibility e) :: emitted s) s
    else s in
  set_isInitialRender false s.

(** Reading a property of [undefined] or [null]. *)
Definition TypeError : Outcome := Threw "TypeError".

(** [reapplyLastPosition] *)
Definition reapplyLastPosition (s : Strategy) (e : Env) : Strategy * Outcome :=
  if negb (_isDisposed s) && isBrowser e then
    let s := set_originRect (_getOriginRect s e) s in
    match _pane s with
    | None => (s, TypeError)
    | Some pane =>
        let s := set_overlayRect (getBoundingClientRect e pane) s in
        let s := set_viewportRect (_getNarrowedViewportRect s e) s in
        match (match _lastPosition s with
               | Some p => Some p
               | None => head (_preferredPositions s)
               end) with
        | None => (s, TypeError)
        | Some lastPosition =>
            let originPoint := _getOriginPoint (isRtl e) (_originRect s) (objects lastPosition) in
            (_applyPosition s e lastPosition originPoint, Returned)
        end
    end
  else (s, Returned).

(** [FlexibleFit] and [FallbackPosition] *)
Record FlexibleFit := mkFlexibleFit {
  ff_position : PosRef;
  ff_origin : Point;
  ff_overlayRect : ClientRect;
  ff_boundingBoxRect : BoundingBoxRect
}.

Record FallbackPosition := mkFallback {
  fb_position : PosRef;
  fb_originPoint : Point;
  fb_overlayPoint : Point;
  fb_overlayFit : OverlayFit;
  fb_overlayRect : ClientRect
}.

(** How the loop over the preferred positions ends: with the [return] inside
    it, or by running off the list with what it has gathered. *)
Inductive LoopResult :=
| FitsCompletely (pos : PosRef) (originPoint : Point)
| NoneFits (flexibleFits : list FlexibleFit) (fallback : option FallbackPosition).

(** What [apply] computes for one position at the top of the loop body. *)
Definition overlayFitOf (s : Strategy) (e : Env) (pos : PosRef) : OverlayFit :=
  let originPoint := _getOriginPoint (isRtl e) (_originRect s) (objects pos) in
  let overlayPoint := _getOverlayPoint (isRtl e) originPoint (_overlayRect s) (objects pos) in
  _getOverlayFit (_offsetX s) (_offsetY s) overlayPoint (_overlayRect s) (_viewportRect s)
    (objects pos).

(** The [for ... of this._preferredPositions] loop of [apply]; the strategy
    is not written to while it runs. *)
Fixpoint positionsLoop (s : Strategy) (e : Env) (positions : list PosRef)
    (flexibleFits : list FlexibleFit) (fallback : option FallbackPosition) : LoopResult :=
  match positions with
  | [] => NoneFits flexibleFits fallback
  | pos :: rest =>
      let originRect := _originRect s in
      let overlayRect := _overlayRect s in
      let viewportRect := _viewportRect s in
      let originPoint := _getOriginPoint (isRtl e) originRect (objects pos) in
      let overlayPoint := _getOverlayPoint (isRtl e) originPoint overlayRect (objects pos) in
      let overlayFit :=
        _getOverlayFit (_offsetX s) (_offsetY s) overlayPoint overlayRect viewportRect
          (objects pos) in
      if isCompletelyWithinViewport overlayFit then FitsCompletely pos originPoint
      else if _canFitWithFlexibleDimensions s e overlayFit overlayPoint viewportRect then
        positionsLoop s e rest
          (flexibleFits ++
             [{| ff_position := pos; ff_origin := originPoint; ff_overlayRect := overlayRect;
                 ff_boundingBoxRect :=
                   _calculateBoundingBoxRect s e originPoint (objects pos) |}])
          fallback
      else
        positionsLoop s e rest flexibleFits
          (match fallback with
           | Some previous =>
               if Qltb (visibleArea (fb_overlayFit previous)) (visibleArea overlayFit)
               then Some (mkFallback pos originPoint overlayPoint overlayFit overlayRect)
               else fallback
           | None => Some (mkFallback pos originPoint overlayPoint overlayFit overlayRect)
           end)
  end.

(** [fit.position.weight || 1] *)
Definition weightOr1 (w : option Q) : Q :=
  match w with
  | Some q => if truthy q then q else 1
  | None => 1
  end.

(** The score of a flexible fit. *)
Definition score (fit : FlexibleFit) : Q :=
  bb_width (ff_boundingBoxRect fit) * bb_height (ff_boundingBoxRect fit)
  * weightOr1 (weight (objects (ff_position fit))).

(** The [for (const fit of flexibleFits)] loop of [apply]. *)
Fixpoint bestFitLoop (flexibleFits : list FlexibleFit) (bestFit : option FlexibleFit)
    (bestScore : Q) : option FlexibleFit :=
  match flexibleFits with
  | [] => bestFit
  | fit :: rest =>
      if Qltb bestScore (score fit) then bestFitLoop rest (Some fit) (score fit)
      else bestFitLoop rest bestFit bestScore
  end.

(** The statements of [apply] between the two early returns and the loop:
    the styles are reset, then the three rectangles are measured. *)
Definition beginApply (s : Strategy) (e : Env) (pane : Element) : Strategy :=
  let s := _resetOverlayElementStyles s in
  let s := _resetBoundingBoxStyles s in
  let s := set_viewportRect (_getNarrowedViewportRect s e) s in
  let s := set_originRect (_getOriginRect s e) s in
  set_overlayRect (getBoundingClientRect e pane) s.

(** [apply] *)
Definition apply (s : Strategy) (e : Env) : Strategy * Outcome :=
  if _isDisposed s || negb (isBrowser e) then (s, Returned)
  else if negb (_isInitialRender s) && _positionLocked s && bool_decide (is_Some (_lastPosition s))
  then reapplyLastPosition s e
  else
    match _pane s, _boundingBox s with
    | Some pane, Some _ =>
        let s := beginApply s e pane in
        match positionsLoop s e (_preferredPositions s) [] None with
        | FitsCompletely pos originPoint =>
            let s := set_isPushed false s in
            (_applyPosition s e pos originPoint, Returned)
        | NoneFits ((_ :: _) as flexibleFits) _ =>
            let bestFit := bestFitLoop flexibleFits None (-1) in
            let s := set_isPushed false s in
            match bestFit with
            | Some fit => (_applyPosition s e (ff_position fit) (ff_origin fit), Returned)
            | None => (s, TypeError)
            end
        | NoneFits [] fallback =>
            if _canPush s then
              let s := set_isPushed true s in
              match fallback with
              | Some f => (_applyPosition s e (fb_position f) (fb_originPoint f), Returned)
              | None => (s, TypeError)
              end
            else
              match fallback with
              | Some f => (_applyPosition s e (fb_position f) (fb_originPoint f), Returned)
              | None => (s, TypeError)
              end
        end
    | _, _ => (s, TypeError)
    end.

(** [detach] *)
Definition detach (s : Strategy) : Strategy :=
  let s := set_lastPosition None s in
  let s := set_previousPushAmount None s in
  set_resizeSubscription false s.

(** [dispose] *)
Definition dispose (s : Strategy) : Strategy :=
  if _isDisposed s then s
  else
    let s :=
      set_dom (extendElementStyles (_boundingBox s)
                 (list_to_map [("top", CssLit ""); ("left", CssLit "");
                               ("right", CssLit ""); ("bottom", CssLit "");
                               ("height", CssLit ""); ("width", CssLit "");
                               ("alignItems", CssLit ""); ("justifyContent", CssLit "")])
                 (dom s)) s in
    let s := _resetOverlayElementStyles s in
    let s := detach s in
    let s := set_boundingBox None (set_overlayRef None s) in
    set_isDisposed true s.

(** Modelled from the spec: [validateHorizontalPosition] and
    [validateVerticalPosition] of [./connected-position], which this module
    imports and which is not among the sources.  The spec has each enum field
    of a candidate be one of the allowed literals, an invalid value being a
    configuration error surfaced immediately; [None] is a normal return,
    [Some message] the error thrown. *)
Definition validateHorizontalPosition (property value : string) : option string :=
  if String.eqb value "start" || String.eqb value "center" || String.eqb value "end"
  then None else Some ("ConnectedPosition: Invalid " ++ property).

Definition validateVerticalPosition (property value : string) : option string :=
  if String.eqb value "top" || String.eqb value "center" || String.eqb value "bottom"
  then None else Some ("ConnectedPosition: Invalid " ++ property).

(** Running checks in sequence: the first error thrown ends the sequence. *)
Definition andThen (first next : option string) : option string :=
  match first with
  | Some message => Some message
  | None => next
  end.

(** The callback of [this._preferredPositions.forEach] in
    [_validatePositions]. *)
Definition validatePair (pair : ConnectedPosition) : option string :=
  andThen (validateHorizontalPosition "originX" (originX pair))
    (andThen (validateVerticalPosition "originY" (originY pair))
       (andThen (validateHorizontalPosition "overlayX" (overlayX pair))
          (validateVerticalPosition "overlayY" (overlayY pair)))).

(** [_validatePositions]: [None] when it returns, [Some message] when it
    throws. *)
Definition _validatePositions (s : Strategy) (e : Env) : option string :=
  if ngDevMode e then
    match _preferredPositions s with
    | [] => Some "FlexibleConnectedPositionStrategy: At least one position is required."
    | positions =>
        fold_left (fun thrown pair => andThen thrown (validatePair (objects pair)))
                  positions None
    end
  else None.

(** [attach]; the subscription to the viewport ruler is [viewportChange]
    below. *)
Definition attach (s : Strategy) (e : Env) (overlayRef : OverlayReference)
    : Strategy * Outcome :=
  let alreadyAttached :=
    match _overlayRef s with
    | Some current =>
        if negb (OverlayReference_eqb overlayRef current) && ngDevMode e
        then Some "This position strategy is already attached to an overlay"
        else None
    | None => None
    end in
  match andThen alreadyAttached (_validatePositions s e) with
  | Some message => (s, Threw message)
  | None =>
      let s := set_overlayRef (Some overlayRef) s in
      let s := set_boundingBox (Some (hostElement overlayRef)) s in
      let s := set_pane (Some (overlayElement overlayRef)) s in
      let s := set_isDisposed false s in
      let s := set_isInitialRender true s in
      let s := set_lastPosition None s in
      (set_resizeSubscription true s, Returned)
  end.

(** The subscriber [attach] registers on [this._viewportRuler.change()]; a
    change of the viewport reaches it only while the subscription lasts. *)
Definition viewportChange (s : Strategy) (e : Env) : Strategy * Outcome :=
  if _resizeSubscription s then apply (set_isInitialRender true s) e
  else (s, Returned).

(** [positions.indexOf(this._lastPosition!) === -1] *)
Definition notPartOf (positions : list PosRef) (lastPosition : option PosRef) : bool :=
  match lastPosition with
  | Some p => negb (existsb (Nat.eqb p) positions)
  | None => true
  end.

(** [withPositions] *)
Definition withPositions (s : Strategy) (e : Env) (positions : list PosRef)
    : Strategy * Outcome :=
  let s := set_preferredPositions positions s in
  let s := if notPartOf positions (_lastPosition s) then set_lastPosition None s else s in
  match _validatePositions s e with
  | Some message => (s, Threw message)
  | None => (s, Returned)
  end.

(** The other setters of the builder. *)
Definition withViewportMargin (s : Strategy) (margin : Q) := set_viewportMargin margin s.
Definition withFlexibleDimensions (s : Strategy) (flexibleDimensions : bool) :=
  set_hasFlexibleDimensions flexibleDimensions s.
Definition withGrowAfterOpen (s : Strategy) (growAfterOpen : bool) :=
  set_growAfterOpen growAfterOpen s.
Definition withPush (s : Strategy) (canPush : bool) := set_canPush canPush s.
Definition withLockedPosition (s : Strategy) (isLocked : bool) := set_positionLocked isLocked s.
Definition setOrigin (s : Strategy) (origin : Origin) := set_origin origin s.
Definition withDefaultOffsetX (s : Strategy) (offset : Q) := set_offsetX offset s.
Definition withDefaultOffsetY (s : Strategy) (offset : Q) := set_offsetY offset s.

End Runtime.

(** ** The CSS classes of the panel

    [_appliedPanelClasses] is kept next to the calls made on the pane's
    [classList], earliest first. *)

Inductive ClassListCall :=
| ClassListAdd (el : Element) (cssClass : string)
| ClassListRemove (el : Element) (cssClass : string).

Record PanelClasses := mkPanelClasses {
  _appliedPanelClasses : list string;
  classListCalls : list ClassListCall
}.

(** [panelClass?: string | string[]] *)
Inductive PanelClass :=
| OneClass (cssClass : string)
| ManyClasses (cssClasses : list string).

Section Panel.

(** [coerceArray] of [@angular/cdk/coercion], which this module imports. *)
Variable coerceArray : PanelClass -> list string.

(** The callback of [coerceArray(cssClasses).forEach] in [_addPanelClasses]. *)
Definition addPanelClass (pane : Element) (p : PanelClasses) (cssClass : string)
    : PanelClasses :=
  if negb (String.eqb cssClass "")
     && negb (existsb (String.eqb cssClass) (_appliedPanelClasses p))
  then {| _appliedPanelClasses := (_appliedPanelClasses p ++ [cssClass])%list;
          classListCalls := (classListCalls p ++ [ClassListAdd pane cssClass])%list |}
  else p.

(** [_addPanelClasses] *)
Definition _addPanelClasses (s : Strategy) (p : PanelClasses) (cssClasses : PanelClass)
    : PanelClasses :=
  match _pane s with
  | Some pane => fold_left (addPanelClass pane) (coerceArray cssClasses) p
  | None => p
  end.

(** [_clearPanelClasses] *)
Definition _clearPanelClasses (s : Strategy) (p : PanelClasses) : PanelClasses :=
  match _pane s with
  | Some pane =>
      {| _appliedPanelClasses := [];
         classListCalls :=
           (classListCalls p ++ map (ClassListRemove pane) (_appliedPanelClasses p))%list |}
  | None => p
  end.

End Panel.

(** ** The transform origin *)

(** The [xOrigin] and [yOrigin] of [_setTransformOrigin]. *)
Definition transformOrigin (rtl : bool) (position : ConnectedPosition) : string * string :=
  let yOrigin := overlayY position in
  let xOrigin :=
    if String.eqb (overlayX position) "center" then "center"
    else if rtl then (if String.eqb (overlayX position) "start" then "right" else "left")
         else (if String.eqb (overlayX position) "start" then "left" else "right") in
  (xOrigin, yOrigin).

Section TransformOrigin.

(** [element.querySelectorAll(selector)], as the document answers it. *)
Variable querySelectorAll : Element -> string -> list Element.

(** [_setTransformOrigin]; [_transformOriginSelector] is [None] until
    [withTransformOriginOn] has set it. *)
Definition _setTransformOrigin (_transformOriginSelector : option string) (s : Strategy)
    (e : Env) (position : ConnectedPosition) : Strategy * Outcome :=
  match _transformOriginSelector with
  | None => (s, Returned)
  | Some selector =>
      if String.eqb selector "" then (s, Returned)
      else
        match _boundingBox s with
        | None => (s, TypeError)
        | Some boundingBox =>
            let elements := querySelectorAll boundingBox selector in
            let '(xOrigin, yOrigin) := transformOrigin (isRtl e) position in
            (set_dom
               (fold_left
                  (fun d element =>
                     extendElementStyles (Some element)
                       {["transformOrigin" := CssLit (xOrigin ++ " " ++ yOrigin)]} d)
                  elements (dom s)) s,
             Returned)
        end
  end.

End TransformOrigin.

(** ** The builder

    [OverlayPositionBuilder.flexibleConnectedTo], of
    [src/cdk/overlay/position/overlay-position-builder.ts]. *)
Definition flexibleConnectedTo (origin : Origin) : Strategy := newStrategy origin.

(** ** Vocabulary of the statements

    Names for the conditions and quantities the properties below are stated
    with. *)

(** The condition of the locked shortcut of [apply]. *)
Definition lockedShortcut (s : Strategy) : bool :=
  negb (_isInitialRender s) && _positionLocked s && bool_decide (is_Some (_lastPosition s)).

(** [apply] runs the selection when the strategy is live, in a browser and
    attached, and the locked shortcut does not apply. *)
Definition selects (s : Strategy) (e : Env) (pane : Element) : Prop :=
  _isDisposed s = false
  /\ isBrowser e = true
  /\ lockedShortcut s = false
  /\ _pane s = Some pane
  /\ is_Some (_boundingBox s).

(** The three rectangles as [reapplyLastPosition] measures them. *)
Definition remeasure (s : Strategy) (e : Env) (pane : Element) : Strategy :=
  set_viewportRect
    (_getNarrowedViewportRect
       (set_overlayRect (getBoundingClientRect e pane)
          (set_originRect (_getOriginRect s e) s)) e)
    (set_overlayRect (getBoundingClientRect e pane)
       (set_originRect (_getOriginRect s e) s)).

(** The fields the geometry of a placement is computed from, apart from the
    recorded push amount and the last bounding-box size. *)
Definition geometry (s : Strategy) :=
  (_isPushed s, _hasFlexibleDimensions s, _positionLocked s, _growAfterOpen s,
   _overlayRect s, _viewportRect s, _viewportMargin s, _offsetX s, _offsetY s).

(** The width and height of a bounding box. *)
Definition sizeOf (rect : BoundingBoxRect) : Size :=
  mkSize (bb_width rect) (bb_height rect).

(** A point moved by an amount. *)
Definition translate (start amount : Point) : Point :=
  {| x := x start + x amount; y := y start + y amount |}.

(** The push along one axis of an overlay of the given length that starts at
    [start], in a viewport of length [available] whose near edge, less the
    scroll position, lies at [edge].  An overlay no longer than the viewport
    is pushed by its overflow at the near edge or, when there is none, back
    by its overflow at the far edge; a longer one is moved to the near edge
    when it starts before the margin, and is left alone otherwise. *)
Definition pushedAlong (length available start edge margin push : Q) : Prop :=
  let overflowBefore := edge - start in
  let overflowAfter := start + length - available in
  (length <= available /\ 0 < overflowBefore /\ push == overflowBefore)
  \/ (length <= available /\ overflowBefore <= 0 /\ 0 < overflowAfter
      /\ push == - overflowAfter)
  \/ (length <= available /\ overflowBefore <= 0 /\ overflowAfter <= 0 /\ push == 0)
  \/ (available < length /\ start < margin /\ push == edge - start)
  \/ (available < length /\ margin <= start /\ push == 0).

(** What [positionChanges] has received once a position was applied in
    surroundings [e], starting from the events [before]: one more event, for
    that position, when the subject has observers. *)
Definition afterApplying (e : Env) (position : PosRef)
    (before : list ConnectedOverlayPositionChange) : list ConnectedOverlayPositionChange :=
  if (0 <? observers e)%nat then mkChange position (scrollVisibility e) :: before else before.

(** The horizontal mirror of a position: [start] and [end] swapped on
    [originX] and on [overlayX]. *)
Definition mirrorX (value : string) : string :=
  if String.eqb value "start" then "end"
  else if String.eqb value "end" then "start" else value.

Definition mirror (pos : ConnectedPosition) : ConnectedPosition :=
  {| originX := mirrorX (originX pos); originY := originY pos;
     overlayX := mirrorX (overlayX pos); overlayY := overlayY pos;
     weight := weight pos; offsetX := offsetX pos; offsetY := offsetY pos |}.

(** The values of a horizontal connection position. *)
Definition horizontal (value : string) : Prop :=
  value = "start" \/ value = "center" \/ value = "end".

(** The values of a vertical connection position. *)
Definition vertical (value : string) : Prop :=
  value = "top" \/ value = "center" \/ value = "bottom".

(** A position one of whose four enum fields holds something else than its
    allowed literals. *)
Definition invalid (pos : ConnectedPosition) : Prop :=
  ~ horizontal (originX pos) \/ ~ vertical (originY pos)
  \/ ~ horizontal (overlayX pos) \/ ~ vertical (overlayY pos).

(** A call that ends by throwing. *)
Definition throws (result : Strategy * Outcome) : Prop :=
  exists message, snd result = Threw message.

(** The score as C2 words it, [width * height * (weight ?? 1)]: only an
    absent weight counts as [1]. *)
Definition claimedScore (objects : PosRef -> ConnectedPosition) (fit : FlexibleFit) : Q :=
  bb_width (ff_boundingBoxRect fit) * bb_height (ff_boundingBoxRect fit)
  * match weight (objects (ff_position fit)) with
    | Some w => w
    | None => 1
    end.

(** The calls a consumer can make on a strategy, and the viewport ruler's
    change notification. *)
Inductive Call :=
| Attach (overlayRef : OverlayReference)
| Apply
| Detach
| Dispose
| ReapplyLastPosition
| WithPositions (positions : list PosRef)
| WithViewportMargin (margin : Q)
| WithFlexibleDimensions (flexibleDimensions : bool)
| WithGrowAfterOpen (growAfterOpen : bool)
| WithPush (canPush : bool)
| WithLockedPosition (isLocked : bool)
| SetOrigin (origin : Origin)
| WithDefaultOffsetX (offset : Q)
| WithDefaultOffsetY (offset : Q)
| ViewportChange.

(** The last position is [null] or one of the preferred positions. *)
Definition lastPositionListed (s : Strategy) : Prop :=
  match _lastPosition s with
  | Some position => In position (_preferredPositions s)
  | None => True
  end.

Section Statements.

Variable objects : PosRef -> ConnectedPosition.
Variable parseFloat : string -> JsNumber.
Variable coerceCssPixelValue : JsVal -> Css.

(** Whether the overlay fits completely at a position, as [apply] finds once
    the rectangles are measured. *)
Definition fitsCompletely (s : Strategy) (e : Env) (pos : PosRef) : bool :=
  isCompletelyWithinViewport (overlayFitOf objects s e pos).

(** The origin point and the overlay point [apply] computes for a position. *)
Definition originPointOf (s : Strategy) (e : Env) (pos : PosRef) : Point :=
  _getOriginPoint (isRtl e) (_originRect s) (objects pos).

Definition overlayPointOf (s : Strategy) (e : Env) (pos : PosRef) : Point :=
  _getOverlayPoint (isRtl e) (originPointOf s e pos) (_overlayRect s) (objects pos).

(** Whether a position that does not fit completely is saved as a flexible
    fit, and the record saved for it. *)
Definition fitsFlexibly (s : Strategy) (e : Env) (pos : PosRef) : bool :=
  _canFitWithFlexibleDimensions parseFloat s e (overlayFitOf objects s e pos)
    (overlayPointOf s e pos) (_viewportRect s).

Definition flexibleFitOf (s : Strategy) (e : Env) (pos : PosRef) : FlexibleFit :=
  {| ff_position := pos;
     ff_origin := originPointOf s e pos;
     ff_overlayRect := _overlayRect s;
     ff_boundingBoxRect := _calculateBoundingBoxRect s e (originPointOf s e pos) (objects pos) |}.

Definition recordedFits (s : Strategy) (e : Env) (positions : list PosRef) : list FlexibleFit :=
  map (flexibleFitOf s e) (List.filter (fitsFlexibly s e) positions).

(** The four things a placement computes: the push amount it leaves
    recorded, the styles of the pane, the bounding box, and the styles of the
    bounding box. *)
Definition placedAmount (s : Strategy) (e : Env) (position : PosRef) (originPoint : Point)
    : option Point :=
  _previousPushAmount
    (fst (overlayElementStyles coerceCssPixelValue s e originPoint (objects position))).

Definition paneStylesAt (s : Strategy) (e : Env) (position : PosRef) (originPoint : Point)
    : gmap string Css :=
  snd (overlayElementStyles coerceCssPixelValue s e originPoint (objects position)).

Definition placedRect (s : Strategy) (e : Env) (position : PosRef) (originPoint : Point)
    : BoundingBoxRect :=
  cappedBoundingBoxRect s (_calculateBoundingBoxRect s e originPoint (objects position)).

Definition boxStylesAt (s : Strategy) (e : Env) (position : PosRef) (originPoint : Point)
    : gmap string Css :=
  boundingBoxStyles coerceCssPixelValue s e (placedRect s e position originPoint)
    (objects position).

(** The strategy a call leaves behind, whether it returned or threw. *)
Definition run (call : Call) (s : Strategy) (e : Env) : Strategy :=
  match call with
  | Attach overlayRef => fst (attach objects s e overlayRef)
  | Apply => fst (apply objects parseFloat coerceCssPixelValue s e)
  | Detach => detach s
  | Dispose => dispose s
  | ReapplyLastPosition => fst (reapplyLastPosition objects coerceCssPixelValue s e)
  | WithPositions positions => fst (withPositions objects s e positions)
  | WithViewportMargin margin => withViewportMargin s margin
  | WithFlexibleDimensions flexibleDimensions => withFlexibleDimensions s flexibleDimensions
  | WithGrowAfterOpen growAfterOpen => withGrowAfterOpen s growAfterOpen
  | WithPush canPush => withPush s canPush
  | WithLockedPosition isLocked => withLockedPosition s isLocked
  | SetOrigin origin => setOrigin s origin
  | WithDefaultOffsetX offset => withDefaultOffsetX s offset
  | WithDefaultOffsetY offset => withDefaultOffsetY s offset
  | ViewportChange => fst (viewportChange objects parseFloat coerceCssPixelValue s e)
  end.

(** The strategies a consumer can get to: a new one, and what any call in
    any surroundings makes of one it got to. *)
Inductive reachable : Strategy -> Prop :=
| reachable_new (connectedTo : Origin) : reachable (newStrategy connectedTo)
| reachable_run (s : Strategy) (call : Call) (e : Env) :
    reachable s -> reachable (run call s e).

End Statements.

(** ** Vocabulary of the further statements *)

(** A string of CSS unit characters, and a string whose last character is
    one. *)
Fixpoint allUnits (units : string) : bool :=
  match units with
  | EmptyString => true
  | String c rest => isUnitChar c && allUnits rest
  end.

Fixpoint endsWithUnit (value : string) : bool :=
  match value with
  | EmptyString => false
  | String c EmptyString => isUnitChar c
  | String _ rest => endsWithUnit rest
  end.

(** A value [getPixelValue] reads no number of pixels from: a missing value,
    zero, or a string with a unit other than [px]. *)
Inductive noPixels : JsVal -> Prop :=
| noPixels_undefined : noPixels JUndefined
| noPixels_zero (q : Q) : q == 0 -> noPixels (JNum q)
| noPixels_unit (value units : string) :
    allUnits units = true -> endsWithUnit value = false ->
    units <> "" -> units <> "px" -> noPixels (JStr (value ++ units)).

(** The six numbers of a rectangle. *)
Definition fieldsOf (rect : ClientRect) : list Q :=
  [top rect; right rect; bottom rect; left rect; width rect; height rect].

(** A rectangle whose edges are in order and whose size is the distance
    between them. *)
Definition wellFormed (rect : ClientRect) : Prop :=
  left rect <= right rect /\ top rect <= bottom rect
  /\ width rect == right rect - left rect /\ height rect == bottom rect - top rect.

(** How far from the left (top) edge of a box of the given size the point
    called [left], [center] or [right] ([top], [center] or [bottom]) lies. *)
Definition anchorX (name : string) (width_ : Q) : Q :=
  if String.eqb name "left" then 0
  else if String.eqb name "center" then width_ / 2 else width_.

Definition anchorY (name : string) (height_ : Q) : Q :=
  if String.eqb name "top" then 0
  else if String.eqb name "center" then height_ / 2 else height_.

(** The style properties the strategy positions with. *)
Definition positioningProperties : list string :=
  ["top"; "left"; "bottom"; "right"; "width"; "height"; "maxWidth"; "maxHeight";
   "alignItems"; "justifyContent"; "position"; "transform"].

(** The styles a call has no business with: those of an element that is
    neither the pane nor the bounding box, and the properties that do not
    position. *)
Definition untouched (s : Strategy) (el : Element) (property : string) : Prop :=
  (_pane s <> Some el /\ _boundingBox s <> Some el)
  \/ ~ In property positioningProperties.

(** The elements [_setTransformOrigin] writes to: those its selector finds
    in the bounding box. *)
Definition transformed (querySelectorAll : Element -> string -> list Element)
    (_transformOriginSelector : option string) (s : Strategy) (el : Element) : Prop :=
  exists box selector,
    _boundingBox s = Some box
    /\ _transformOriginSelector = Some selector
    /\ In el (querySelectorAll box selector).

(** A position all of whose enum fields hold allowed literals. *)
Definition valid (pos : ConnectedPosition) : Prop :=
  horizontal (originX pos) /\ vertical (originY pos)
  /\ horizontal (overlayX pos) /\ vertical (overlayY pos).

(** The strategy is attached to an overlay: it holds the overlay's elements
    and is live. *)
Definition attachedTo (s : Strategy) (overlayRef : OverlayReference) : Prop :=
  _overlayRef s = Some overlayRef
  /\ _pane s = Some (overlayElement overlayRef)
  /\ _boundingBox s = Some (hostElement overlayRef)
  /\ _isDisposed s = false.

(** The strategy is attached to no overlay: it was never attached, or it was
    disposed of; it remembers no placement and follows no viewport. *)
Definition unattached (s : Strategy) : Prop :=
  _overlayRef s = None
  /\ _boundingBox s = None
  /\ _resizeSubscription s = false
  /\ _lastPosition s = None
  /\ _previousPushAmount s = None
  /\ (_pane s = None \/ _isDisposed s = true).

(** The fields that say what the strategy is attached to. *)
Definition attachment (s : Strategy) :=
  (_overlayRef s, _pane s, _boundingBox s, _isDisposed s, _resizeSubscription s).

(** The calls that place the overlay. *)
Definition places (call : Call) : bool :=
  match call with
  | Apply | ReapplyLastPosition | ViewportChange => true
  | _ => false
  end.

(** What a call that places the overlay makes of a strategy: it keeps the
    attachment, sends at most one event, and changes nothing the strategy
    remembers when there is no pane or the strategy is disposed of. *)
Definition placement (s : Strategy) (e : Env) (s' : Strategy) : Prop :=
  attachment s' = attachment s
  /\ (exists new,
        emitted s' = (new ++ emitted s)%list
        /\ (length new <= 1)%nat
        /\ (observers e = 0%nat -> new = []))
  /\ (_pane s = None \/ _isDisposed s = true ->
      _lastPosition s' = _lastPosition s
      /\ _previousPushAmount s' = _previousPushAmount s).

Section Fallbacks.

Variable objects : PosRef -> ConnectedPosition.

(** The record [apply] keeps of a position as a fallback, and the visible
    area of the overlay at a position. *)
Definition fallbackOf (s : Strategy) (e : Env) (pos : PosRef) : FallbackPosition :=
  {| fb_position := pos;
     fb_originPoint := originPointOf objects s e pos;
     fb_overlayPoint := overlayPointOf objects s e pos;
     fb_overlayFit := overlayFitOf objects s e pos;
     fb_overlayRect := _overlayRect s |}.

Definition visibleAreaAt (s : Strategy) (e : Env) (pos : PosRef) : Q :=
  visibleArea (overlayFitOf objects s e pos).

End Fallbacks.

Section Choices.

Variable objects : PosRef -> ConnectedPosition.
Variable parseFloat : string -> JsNumber.

(** What the selection of [apply] settles on once the rectangles are
    measured: the position, its origin point and the value it gives
    [_isPushed] ([None] when it leaves the flag alone); nothing when [apply]
    throws instead of placing the overlay. *)
Definition selectionOf (s : Strategy) (e : Env) : option (PosRef * Point * option bool) :=
  match positionsLoop objects parseFloat s e (_preferredPositions s) [] None with
  | FitsCompletely pos originPoint => Some (pos, originPoint, Some false)
  | NoneFits ((_ :: _) as flexibleFits) _ =>
      match bestFitLoop objects flexibleFits None (-1) with
      | Some fit => Some (ff_position fit, ff_origin fit, Some false)
      | None => None
      end
  | NoneFits [] fallback =>
      match fallback with
      | Some f =>
          Some (fb_position f, fb_originPoint f, if _canPush s then Some true else None)
      | None => None
      end
  end.

End Choices.

(** The strategy with [_isPushed] given a value, or left alone. *)
Definition pushedAs (pushed : option bool) (s : Strategy) : Strategy :=
  match pushed with
  | Some value => set_isPushed value s
  | None => s
  end.

(** The fields that only the calls of the consumer change. *)
Definition settings (s : Strategy) :=
  (_overlayRef s, _canPush s, _growAfterOpen s, _hasFlexibleDimensions s, _positionLocked s,
   _viewportMargin s, _preferredPositions s, _origin s, _pane s, _boundingBox s,
   _isDisposed s, _resizeSubscription s, _offsetX s, _offsetY s).

(** What the selection reads of a flexible fit: its position, its origin
    point, and the width and the height of its bounding box. *)
Definition readOf (fit : FlexibleFit) : PosRef * Point * Q * Q :=
  (ff_position fit, ff_origin fit,
   bb_width (ff_boundingBoxRect fit), bb_height (ff_boundingBoxRect fit)).

(** ** A concrete overlay, for running the model *)

Module Fixture.

(** Four position objects; any other reference is the first one. *)
Definition belowStart := mkPos "start" "bottom" "start" "top" None None None.
Definition aboveStart := mkPos "start" "top" "start" "bottom" None None None.
Definition belowUnweighted := mkPos "start" "bottom" "start" "top" (Some 0) None None.
Definition afterEnd := mkPos "end" "bottom" "start" "top" None None None.

Definition objects (p : PosRef) : ConnectedPosition :=
  nth p [belowStart; aboveStart; belowUnweighted; afterEnd] belowStart.

(** No digits are read: every string is [NaN]. *)
Definition parseFloat (_ : string) : JsNumber := NaN.

(** A stand-in for [coerceCssPixelValue]: a number gets the [px] unit, a
    string is kept, a missing value is empty. *)
Definition coerceCssPixelValue (v : JsVal) : Css :=
  match v with
  | JUndefined => CssLit ""
  | JNum q => CssPx q
  | JStr s => CssLit s
  end.

Definition host : Element := 0%nat.
Definition pane : Element := 1%nat.
Definition trigger : Element := 2%nat.
Definition overlayRef : OverlayReference := mkOverlayRef host pane.

Definition noConfig : OverlayConfig := mkConfig JUndefined JUndefined JUndefined JUndefined.
Definition inView : ScrollingVisibility := mkVisibility false false false false.

(** A rectangle from its top-left corner and its size. *)
Definition rectAt (left_ top_ width_ height_ : Q) : ClientRect :=
  mkRect top_ (left_ + width_) (top_ + height_) left_ width_ height_.

(** A browser in development mode with a [100 x 100] document, the trigger
    at [originRect], a pane of size [overlayWidth x overlayHeight] and
    [subscribers] observers of [positionChanges]. *)
Definition browser (originRect : ClientRect) (overlayWidth overlayHeight : Q)
    (subscribers : nat) : Env :=
  {| isBrowser := true;
     ngDevMode := true;
     clientWidth := 100;
     clientHeight := 100;
     getViewportScrollPosition := mkScroll 0 0;
     getBoundingClientRect := fun el =>
       if Nat.eqb el trigger then originRect else rectAt 0 0 overlayWidth overlayHeight;
     isRtl := false;
     getConfig := noConfig;
     containerTop := 0;
     observers := subscribers;
     scrollVisibility := inView |}.

(** The same browser running a production build. *)
Definition production (e : Env) : Env :=
  mkEnv (isBrowser e) false (clientWidth e) (clientHeight e)
    (getViewportScrollPosition e) (getBoundingClientRect e) (isRtl e) (getConfig e)
    (containerTop e) (observers e) (scrollVisibility e).

(** The same surroundings with minimum sizes in the overlay config. *)
Definition withMinimums (minWidth_ minHeight_ : JsVal) (e : Env) : Env :=
  mkEnv (isBrowser e) (ngDevMode e) (clientWidth e) (clientHeight e)
    (getViewportScrollPosition e) (getBoundingClientRect e) (isRtl e)
    (mkConfig minWidth_ minHeight_ JUndefined JUndefined)
    (containerTop e) (observers e) (scrollVisibility e).

(** A strategy connected to the trigger and attached to the overlay, with
    the given preferred positions. *)
Definition attached (positions : list PosRef) : Strategy :=
  let e := browser (rectAt 10 10 20 20) 30 30 0 in
  let s := newStrategy (OriginElement trigger) in
  let s := fst (withPositions objects s e positions) in
  fst (attach objects s e overlayRef).

End Fixture.

(** * Properties *)

(** ** Numbers: the boolean tests *)

Lemma Qltb_true (a b : Q) : Qltb a b = true <-> a < b.
Proof.
  unfold Qltb. rewrite negb_true_iff. split.
  - intros H. apply Qnot_le_lt. intros Hle.
    apply Qle_bool_iff in Hle. congruence.
  - intros H. destruct (Qle_bool b a) eqn:E; [|reflexivity].
    apply Qle_bool_iff in E. exfalso. apply (Qlt_not_le _ _ H E).
Qed.

Lemma Qltb_false (a b : Q) : Qltb a b = false <-> b <= a.
Proof.
  unfold Qltb. rewrite negb_false_iff. apply Qle_bool_iff.
Qed.

Lemma Qmax_0_nonneg (q : Q) : 0 <= Qmax q 0.
Proof. apply Q.le_max_r. Qed.

(** ** Fit evaluator *)

Lemma _subtractOverflows_two (length a b : Q) :
  _subtractOverflows length [a; b] = length - Qmax a 0 - Qmax b 0.
Proof. reflexivity. Qed.

Lemma _subtractOverflows_le (length a b : Q) :
  _subtractOverflows length [a; b] <= length.
Proof.
  rewrite _subtractOverflows_two.
  generalize (Qmax_0_nonneg a) (Qmax_0_nonneg b).
  generalize (Qmax a 0) (Qmax b 0). intros; lra.
Qed.

(** C3: the visible width and height are not floored at [0], and an
    overlay that lies wholly outside the viewport can be reported as
    completely within it.  [_subtractOverflows] subtracts both overflows from
    the length and keeps the sign.  An overlay of [30 x 30] at [(-60, -60)]
    ends left of and above a viewport of [100 x 100]: its left and top
    overflows are [60], its visible width and height come out as [-30], it
    fits on neither axis, yet the visible area is [900 = 30 * 30] and
    [isCompletelyWithinViewport] is true. *)
Lemma getOverlayFit_negative_visible_dimensions :
  let point := mkPoint (-60) (-60) in
  let overlayRect := Fixture.rectAt 0 0 30 30 in
  let viewport := Fixture.rectAt 0 0 100 100 in
  let fit := _getOverlayFit 0 0 point overlayRect viewport Fixture.belowStart in
  x point + width (getRoundedBoundingClientRect overlayRect) < left viewport
  /\ y point + height (getRoundedBoundingClientRect overlayRect) < top viewport
  /\ visibleWidth 0 point overlayRect viewport Fixture.belowStart == -30
  /\ visibleHeight 0 point overlayRect viewport Fixture.belowStart == -30
  /\ ~ 0 <= visibleWidth 0 point overlayRect viewport Fixture.belowStart
  /\ fitsInViewportHorizontally fit = false
  /\ fitsInViewportVertically fit = false
  /\ visibleArea fit == 900
  /\ isCompletelyWithinViewport fit = true.
Proof.
  cbv zeta. repeat apply conj; try (vm_compute; reflexivity).
  intros H. vm_compute in H. apply H. reflexivity.
Qed.

(** A length keeps its full value exactly when neither overflow is
    positive. *)
Lemma _subtractOverflows_full (length a b : Q) :
  _subtractOverflows length [a; b] == length <-> a <= 0 /\ b <= 0.
Proof.
  rewrite _subtractOverflows_two.
  assert (Hmax : forall c, (c <= 0 /\ Qmax c 0 == 0) \/ (0 < c /\ Qmax c 0 == c)).
  { intros c. destruct (Qlt_le_dec 0 c) as [Hpos|Hneg].
    - right. split; [exact Hpos|]. apply Q.max_l. apply Qlt_le_weak. exact Hpos.
    - left. split; [exact Hneg|]. apply Q.max_r. exact Hneg. }
  generalize (Hmax a) (Hmax b). generalize (Qmax a 0) (Qmax b 0).
  intros ma mb [[Ha Hma]|[Ha Hma]] [[Hb Hmb]|[Hb Hmb]]; split; intros H; lra.
Qed.

(** What [_getOverlayFit] measures.  For every point, overlay rectangle,
    viewport and position, the visible width (height) is the rounded-down
    width (height) of the overlay minus the overflow on the left and on the
    right (top and bottom), each overflow counted only when positive; it is
    at most the rounded-down dimension.  The visible area is the product of
    the two, and [isCompletelyWithinViewport] compares that area with the
    product of the rounded-down width and height.  On each axis the overlay
    fits exactly when it overflows on neither side, and an overlay that fits
    on both axes is reported as completely within the viewport. *)
Lemma _getOverlayFit_measures
    (dOffsetX dOffsetY : Q) (point : Point) (rawOverlayRect viewport : ClientRect)
    (position : ConnectedPosition) :
  let overlay := getRoundedBoundingClientRect rawOverlayRect in
  let x0 := plusOffset (x point) (_getOffset dOffsetX (offsetX position)) in
  let y0 := plusOffset (y point) (_getOffset dOffsetY (offsetY position)) in
  let visibleW := visibleWidth dOffsetX point rawOverlayRect viewport position in
  let visibleH := visibleHeight dOffsetY point rawOverlayRect viewport position in
  let fit := _getOverlayFit dOffsetX dOffsetY point rawOverlayRect viewport position in
  width overlay = inject_Z (Qfloor (width rawOverlayRect))
  /\ height overlay = inject_Z (Qfloor (height rawOverlayRect))
  /\ visibleW = width overlay - Qmax (0 - x0) 0 - Qmax (x0 + width overlay - width viewport) 0
  /\ visibleH = height overlay - Qmax (0 - y0) 0 - Qmax (y0 + height overlay - height viewport) 0
  /\ visibleW <= width overlay
  /\ visibleH <= height overlay
  /\ visibleArea fit = visibleW * visibleH
  /\ (isCompletelyWithinViewport fit = true
      <-> visibleArea fit == width overlay * height overlay)
  /\ (fitsInViewportHorizontally fit = true
      <-> 0 <= x0 /\ x0 + width overlay <= width viewport)
  /\ (fitsInViewportVertically fit = true
      <-> 0 <= y0 /\ y0 + height overlay <= height viewport)
  /\ (fitsInViewportHorizontally fit = true ->
      fitsInViewportVertically fit = true ->
      isCompletelyWithinViewport fit = true).
Proof.
  cbv zeta.
  assert (Hhorizontal :
    fitsInViewportHorizontally
      (_getOverlayFit dOffsetX dOffsetY point rawOverlayRect viewport position) = true
    <-> visibleWidth dOffsetX point rawOverlayRect viewport position
        == width (getRoundedBoundingClientRect rawOverlayRect)).
  { cbn [_getOverlayFit fitsInViewportHorizontally]. apply Qeq_bool_iff. }
  assert (Hvertical :
    fitsInViewportVertically
      (_getOverlayFit dOffsetX dOffsetY point rawOverlayRect viewport position) = true
    <-> visibleHeight dOffsetY point rawOverlayRect viewport position
        == height (getRoundedBoundingClientRect rawOverlayRect)).
  { cbn [_getOverlayFit fitsInViewportVertically]. apply Qeq_bool_iff. }
  repeat apply conj; try reflexivity.
  - apply _subtractOverflows_le.
  - apply _subtractOverflows_le.
  - cbn [_getOverlayFit isCompletelyWithinViewport visibleArea].
    intros H. apply Qeq_bool_iff in H. symmetry. exact H.
  - cbn [_getOverlayFit isCompletelyWithinViewport visibleArea].
    intros H. apply Qeq_bool_iff. symmetry. exact H.
  - intros H. apply Hhorizontal in H. unfold visibleWidth in H.
    apply _subtractOverflows_full in H. destruct H as [Hleft Hright]. split; lra.
  - intros [Hleft Hright]. apply Hhorizontal. unfold visibleWidth.
    apply _subtractOverflows_full. split; lra.
  - intros H. apply Hvertical in H. unfold visibleHeight in H.
    apply _subtractOverflows_full in H. destruct H as [Htop Hbottom]. split; lra.
  - intros [Htop Hbottom]. apply Hvertical. unfold visibleHeight.
    apply _subtractOverflows_full. split; lra.
  - intros Hx Hy. apply Hhorizontal in Hx. apply Hvertical in Hy.
    cbn [_getOverlayFit isCompletelyWithinViewport]. apply Qeq_bool_iff.
    rewrite Hx, Hy. reflexivity.
Qed.

(** ** What a call leaves untouched *)

Section Frames.

Variable objects : PosRef -> ConnectedPosition.
Variable parseFloat : string -> JsNumber.
Variable coerceCssPixelValue : JsVal -> Css.

Lemma set_previousPushAmount_same (s : Strategy) :
  set_previousPushAmount (_previousPushAmount s) s = s.
Proof. destruct s; reflexivity. Qed.

Lemma set_previousPushAmount_twice (a b : option Point) (s : Strategy) :
  set_previousPushAmount a (set_previousPushAmount b s) = set_previousPushAmount a s.
Proof. reflexivity. Qed.

(** The push resolver writes nothing but [_previousPushAmount]. *)
Lemma _pushOverlayOnScreen_frame (s : Strategy) (start : Point) (raw : ClientRect)
    (scrollPosition : ViewportScrollPosition) :
  exists amount,
    fst (_pushOverlayOnScreen s start raw scrollPosition) = set_previousPushAmount amount s.
Proof.
  unfold _pushOverlayOnScreen.
  destruct (_previousPushAmount s) as [previous|] eqn:Hprev;
    destruct (_positionLocked s); cbn [fst]; eauto.
  exists (Some previous). rewrite <- Hprev. symmetry. apply set_previousPushAmount_same.
Qed.

Lemma _getExactOverlayY_frame (s : Strategy) (e : Env) (position : ConnectedPosition)
    (originPoint : Point) (scrollPosition : ViewportScrollPosition) :
  exists amount,
    fst (_getExactOverlayY coerceCssPixelValue s e position originPoint scrollPosition)
    = set_previousPushAmount amount s.
Proof.
  unfold _getExactOverlayY.
  destruct (_isPushed s).
  - destruct (_pushOverlayOnScreen_frame s
                (_getOverlayPoint (isRtl e) originPoint (_overlayRect s) position)
                (_overlayRect s) scrollPosition) as [amount Hamount].
    destruct (_pushOverlayOnScreen s _ _ _) as [s' pt]. cbn [fst] in Hamount. subst s'.
    exists amount. reflexivity.
  - exists (_previousPushAmount s). rewrite set_previousPushAmount_same. reflexivity.
Qed.

Lemma _getExactOverlayX_frame (s : Strategy) (e : Env) (position : ConnectedPosition)
    (originPoint : Point) (scrollPosition : ViewportScrollPosition) :
  exists amount,
    fst (_getExactOverlayX coerceCssPixelValue s e position originPoint scrollPosition)
    = set_previousPushAmount amount s.
Proof.
  unfold _getExactOverlayX.
  destruct (_isPushed s).
  - destruct (_pushOverlayOnScreen_frame s
                (_getOverlayPoint (isRtl e) originPoint (_overlayRect s) position)
                (_overlayRect s) scrollPosition) as [amount Hamount].
    destruct (_pushOverlayOnScreen s _ _ _) as [s' pt]. cbn [fst] in Hamount. subst s'.
    exists amount. reflexivity.
  - exists (_previousPushAmount s). rewrite set_previousPushAmount_same. reflexivity.
Qed.

Lemma overlayElementStyles_frame (s : Strategy) (e : Env) (originPoint : Point)
    (position : ConnectedPosition) :
  exists amount,
    fst (overlayElementStyles coerceCssPixelValue s e originPoint position)
    = set_previousPushAmount amount s.
Proof.
  unfold overlayElementStyles.
  destruct (_hasExactPosition s).
  - destruct (_getExactOverlayY_frame s e position originPoint (getViewportScrollPosition e))
      as [a1 H1].
    destruct (_getExactOverlayY _ s e position originPoint _) as [s1 stylesY].
    cbn [fst] in H1. subst s1.
    destruct (_getExactOverlayX_frame (set_previousPushAmount a1 s) e position originPoint
                (getViewportScrollPosition e)) as [a2 H2].
    destruct (_getExactOverlayX _ _ e position originPoint _) as [s2 stylesX].
    cbn [fst] in H2. subst s2. exists a2. reflexivity.
  - exists (_previousPushAmount s). rewrite set_previousPushAmount_same. reflexivity.
Qed.

Lemma set_emitted_same (s : Strategy) : set_emitted (emitted s) s = s.
Proof. destruct s; reflexivity. Qed.

(** The writes of [_applyPosition], gathered into one record. *)
Lemma setters_in_applyPosition (s : Strategy) (amount : option Point)
    (paneStyles boxStyles : gmap Element (gmap string Css)) (size : Size)
    (position : PosRef) (events : list ConnectedOverlayPositionChange) :
  set_isInitialRender false
    (set_emitted events
       (set_lastPosition (Some position)
          (set_dom boxStyles
             (set_lastBoundingBoxSize size
                (set_dom paneStyles (set_previousPushAmount amount s))))))
  = mkStrategy (_overlayRef s) false size (_isPushed s) (_canPush s)
      (_growAfterOpen s) (_hasFlexibleDimensions s) (_positionLocked s) (_originRect s)
      (_overlayRect s) (_viewportRect s) (_viewportMargin s) (_preferredPositions s)
      (_origin s) (_pane s) (_boundingBox s) (_isDisposed s) (Some position)
      (_resizeSubscription s) (_offsetX s) (_offsetY s) amount boxStyles events.
Proof. reflexivity. Qed.

(** [_applyPosition] field by field: it stores the position, ends the initial
    render, and writes the last bounding-box size, the push amount, the
    styles and the event list; everything else is as before. *)
Lemma _applyPosition_fields (s : Strategy) (e : Env) (position : PosRef) (originPoint : Point) :
  exists size amount styles,
    _applyPosition objects coerceCssPixelValue s e position originPoint
    = mkStrategy (_overlayRef s) false size (_isPushed s) (_canPush s)
        (_growAfterOpen s) (_hasFlexibleDimensions s) (_positionLocked s) (_originRect s)
        (_overlayRect s) (_viewportRect s) (_viewportMargin s) (_preferredPositions s)
        (_origin s) (_pane s) (_boundingBox s) (_isDisposed s) (Some position)
        (_resizeSubscription s) (_offsetX s) (_offsetY s) amount styles
        (if (0 <? observers e)%nat
         then mkChange position (scrollVisibility e) :: emitted s else emitted s).
Proof.
  unfold _applyPosition, _setOverlayElementStyles.
  destruct (overlayElementStyles_frame s e originPoint (objects position)) as [amount Ha].
  destruct (overlayElementStyles _ s e originPoint (objects position)) as [s1 styles1].
  cbn [fst] in Ha. subst s1.
  unfold _setBoundingBoxStyles.
  match goal with
  | |- context [set_lastBoundingBoxSize ?sz (set_dom ?d1 _)] =>
      generalize sz; generalize d1; intros paneStyles size
  end.
  match goal with
  | |- context [set_dom ?d2 (set_lastBoundingBoxSize _ _)] =>
      generalize d2; intros boxStyles
  end.
  exists size, amount, boxStyles.
  destruct (0 <? observers e)%nat.
  - apply setters_in_applyPosition.
  - rewrite <- (set_emitted_same (set_lastPosition _ _)). apply setters_in_applyPosition.
Qed.

End Frames.

(** ** Placement selector *)

(** The first element of a list that passes a test splits the list. *)
Lemma first_passing_splits {A : Type} (test : A -> bool) (l : list A) :
  (exists a, In a l /\ test a = true) ->
  exists before a after,
    l = (before ++ a :: after)%list
    /\ (forall b, In b before -> test b = false)
    /\ test a = true.
Proof.
  induction l as [|a0 l IH]; intros [a [Hin Ha]].
  - destruct Hin.
  - destruct (test a0) eqn:Ha0.
    + exists [], a0, l. repeat split; [intros b []|exact Ha0].
    + destruct IH as (before & a1 & after & Heq & Hbefore & Ha1).
      { destruct Hin as [->|Hin]; [congruence|]. exists a. split; assumption. }
      exists (a0 :: before), a1, after. repeat split.
      * cbn. rewrite Heq. reflexivity.
      * intros b [<-|Hb]; [exact Ha0|apply Hbefore, Hb].
      * exact Ha1.
Qed.

Section Selection.

Variable objects : PosRef -> ConnectedPosition.
Variable parseFloat : string -> JsNumber.
Variable coerceCssPixelValue : JsVal -> Css.

(** The loop returns at the first position that fits, whatever comes after
    it and whatever was gathered before it. *)
Lemma positionsLoop_first_fit (s : Strategy) (e : Env) (before after : list PosRef)
    (pos : PosRef) :
  (forall p, In p before -> fitsCompletely objects s e p = false) ->
  fitsCompletely objects s e pos = true ->
  forall flexibleFits fallback,
    positionsLoop objects parseFloat s e (before ++ pos :: after)%list flexibleFits fallback
    = FitsCompletely pos (_getOriginPoint (isRtl e) (_originRect s) (objects pos)).
Proof.
  unfold fitsCompletely, overlayFitOf.
  induction before as [|p before IH]; intros Hbefore Hpos flexibleFits fallback.
  - cbn [app positionsLoop]. rewrite Hpos. reflexivity.
  - cbn [app positionsLoop]. rewrite (Hbefore p (or_introl eq_refl)).
    destruct (_canFitWithFlexibleDimensions _ _ _ _ _ _);
      apply IH; auto; intros q Hq; apply Hbefore; right; exact Hq.
Qed.

Lemma apply_selecting (s : Strategy) (e : Env) (pane : Element) :
  selects s e pane ->
  apply objects parseFloat coerceCssPixelValue s e
  = let s := beginApply s e pane in
    match positionsLoop objects parseFloat s e (_preferredPositions s) [] None with
    | FitsCompletely pos originPoint =>
        (_applyPosition objects coerceCssPixelValue (set_isPushed false s) e pos originPoint,
         Returned)
    | NoneFits ((_ :: _) as flexibleFits) _ =>
        match bestFitLoop objects flexibleFits None (-1) with
        | Some fit =>
            (_applyPosition objects coerceCssPixelValue (set_isPushed false s) e
               (ff_position fit) (ff_origin fit), Returned)
        | None => (set_isPushed false s, TypeError)
        end
    | NoneFits [] fallback =>
        if _canPush s then
          match fallback with
          | Some f =>
              (_applyPosition objects coerceCssPixelValue (set_isPushed true s) e
                 (fb_position f) (fb_originPoint f), Returned)
          | None => (set_isPushed true s, TypeError)
          end
        else
          match fallback with
          | Some f =>
              (_applyPosition objects coerceCssPixelValue s e
                 (fb_position f) (fb_originPoint f), Returned)
          | None => (s, TypeError)
          end
    end.
Proof.
  intros (Hdisposed & Hbrowser & Hlocked & Hpane & [box Hbox]).
  unfold lockedShortcut in Hlocked.
  unfold apply. rewrite Hdisposed, Hbrowser, Hlocked, Hpane, Hbox. reflexivity.
Qed.

Lemma beginApply_preferredPositions (s : Strategy) (e : Env) (pane : Element) :
  _preferredPositions (beginApply s e pane) = _preferredPositions s.
Proof. reflexivity. Qed.

(** C1: whenever [apply] runs the selection over a list of preferred
    positions of which at least one fits completely within the viewport, it
    applies the first such position in list order, with [_isPushed] false,
    whatever the positions after it are. *)
Theorem apply_selects_first_complete_fit (s : Strategy) (e : Env) (pane : Element) :
  selects s e pane ->
  (exists candidate,
      In candidate (_preferredPositions s)
      /\ fitsCompletely objects (beginApply s e pane) e candidate = true) ->
  exists before selected after s',
    _preferredPositions s = (before ++ selected :: after)%list
    /\ (forall p, In p before -> fitsCompletely objects (beginApply s e pane) e p = false)
    /\ fitsCompletely objects (beginApply s e pane) e selected = true
    /\ apply objects parseFloat coerceCssPixelValue s e = (s', Returned)
    /\ _lastPosition s' = Some selected
    /\ _isPushed s' = false.
Proof.
  intros Hselects Hexists.
  destruct (first_passing_splits (fitsCompletely objects (beginApply s e pane) e) _ Hexists)
    as (before & selected & after & Hlist & Hbefore & Hselected).
  exists before, selected, after.
  rewrite (apply_selecting s e pane Hselects). cbv zeta.
  rewrite beginApply_preferredPositions.
  rewrite Hlist, (positionsLoop_first_fit _ e before after selected Hbefore Hselected).
  destruct (_applyPosition_fields objects coerceCssPixelValue
              (set_isPushed false (beginApply s e pane)) e selected
              (_getOriginPoint (isRtl e) (_originRect (beginApply s e pane)) (objects selected)))
    as (size & amount & styles & Happlied).
  rewrite Happlied. eexists. repeat split; try assumption; reflexivity.
Qed.

End Selection.

(** C1 at a concrete overlay: of the positions above-start, below-start and
    after-end, the first does not fit and the other two do. *)
Lemma apply_selects_first_complete_fit_witness :
  let s := Fixture.attached [1; 0; 3]%nat in
  let e := Fixture.browser (Fixture.rectAt 10 10 20 20) 30 30 0 in
  exists before selected after s',
    _preferredPositions s = (before ++ selected :: after)%list
    /\ (forall p, In p before ->
          fitsCompletely Fixture.objects (beginApply s e Fixture.pane) e p = false)
    /\ fitsCompletely Fixture.objects (beginApply s e Fixture.pane) e selected = true
    /\ apply Fixture.objects Fixture.parseFloat Fixture.coerceCssPixelValue s e = (s', Returned)
    /\ _lastPosition s' = Some selected
    /\ _isPushed s' = false.
Proof.
  cbv zeta.
  apply (apply_selects_first_complete_fit Fixture.objects Fixture.parseFloat
           Fixture.coerceCssPixelValue).
  - repeat split; try reflexivity. exists Fixture.host. reflexivity.
  - exists 3%nat. split.
    + vm_compute. auto.
    + vm_compute. reflexivity.
Defined.

(** ** Flexible fits *)

Section FlexibleFits.

Variable objects : PosRef -> ConnectedPosition.
Variable parseFloat : string -> JsNumber.
Variable coerceCssPixelValue : JsVal -> Css.

(** When no position fits completely the loop runs to the end, having saved
    the flexible fits in list order. *)
Lemma positionsLoop_none_fits (s : Strategy) (e : Env) (positions : list PosRef) :
  (forall p, In p positions -> fitsCompletely objects s e p = false) ->
  forall flexibleFits fallback,
  exists fallback',
    positionsLoop objects parseFloat s e positions flexibleFits fallback
    = NoneFits (flexibleFits ++ recordedFits objects parseFloat s e positions)%list fallback'.
Proof.
  unfold fitsCompletely, overlayFitOf, recordedFits.
  induction positions as [|p positions IH]; intros Hnone flexibleFits fallback.
  - exists fallback. cbn. rewrite app_nil_r. reflexivity.
  - cbn [positionsLoop List.filter]. rewrite (Hnone p (or_introl eq_refl)).
    change (_canFitWithFlexibleDimensions parseFloat s e _ _ _)
      with (fitsFlexibly objects parseFloat s e p).
    destruct (fitsFlexibly objects parseFloat s e p).
    + destruct (IH (fun q Hq => Hnone q (or_intror Hq))
                  (flexibleFits ++ [flexibleFitOf objects s e p])%list fallback) as [fallback' H].
      exists fallback'. cbn [map]. rewrite <- app_assoc in H. exact H.
    + apply IH. intros q Hq. apply Hnone. right. exact Hq.
Qed.

(** A scan over fits none of which beats the best score keeps the best fit. *)
Lemma bestFitLoop_none_better (fits : list FlexibleFit) (best : option FlexibleFit)
    (bestScore : Q) :
  (forall f, In f fits -> score objects f <= bestScore) ->
  bestFitLoop objects fits best bestScore = best.
Proof.
  induction fits as [|fit fits IH]; intros Hle; [reflexivity|].
  cbn [bestFitLoop].
  destruct (Qltb bestScore (score objects fit)) eqn:Hlt.
  - apply Qltb_true in Hlt. pose proof (Hle fit (or_introl eq_refl)) as H. lra.
  - apply IH. intros f Hf. apply Hle. right. exact Hf.
Qed.

(** The scan returns the first fit whose score is greatest, provided some
    score exceeds the score it starts from. *)
Lemma bestFitLoop_first_maximum (fits : list FlexibleFit) :
  forall (best : option FlexibleFit) (bestScore : Q),
  (exists f, In f fits /\ bestScore < score objects f) ->
  exists before chosen after,
    fits = (before ++ chosen :: after)%list
    /\ bestFitLoop objects fits best bestScore = Some chosen
    /\ bestScore < score objects chosen
    /\ (forall f, In f before -> score objects f < score objects chosen)
    /\ (forall f, In f after -> score objects f <= score objects chosen).
Proof.
  induction fits as [|fit fits IH]; intros best bestScore [f [Hin Hf]]; [destruct Hin|].
  cbn [bestFitLoop].
  destruct (Qltb bestScore (score objects fit)) eqn:Hfit.
  - apply Qltb_true in Hfit.
    destruct (existsb (fun g => Qltb (score objects fit) (score objects g)) fits) eqn:Hlater.
    + apply existsb_exists in Hlater. destruct Hlater as [g [Hg Hgt]].
      apply Qltb_true in Hgt.
      destruct (IH (Some fit) (score objects fit) (ex_intro _ g (conj Hg Hgt)))
        as (before & chosen & after & Heq & Hloop & Hchosen & Hbefore & Hafter).
      exists (fit :: before), chosen, after. repeat split.
      * cbn. rewrite Heq. reflexivity.
      * exact Hloop.
      * lra.
      * intros h [<-|Hh]; [exact Hchosen|apply Hbefore, Hh].
      * exact Hafter.
    + assert (Hall : forall g, In g fits -> score objects g <= score objects fit).
      { intros g Hg. apply Qltb_false.
        destruct (Qltb (score objects fit) (score objects g)) eqn:Hgt; [|reflexivity].
        assert (existsb (fun g => Qltb (score objects fit) (score objects g)) fits = true)
          as Hex by (apply existsb_exists; exists g; split; assumption).
        congruence. }
      exists [], fit, fits. repeat split.
      * apply bestFitLoop_none_better. exact Hall.
      * exact Hfit.
      * intros h [].
      * exact Hall.
  - apply Qltb_false in Hfit.
    assert (Hrest : exists g, In g fits /\ bestScore < score objects g).
    { destruct Hin as [<-|Hin]; [lra|]. exists f. split; assumption. }
    destruct (IH best bestScore Hrest)
      as (before & chosen & after & Heq & Hloop & Hchosen & Hbefore & Hafter).
    exists (fit :: before), chosen, after. repeat split.
    + cbn. rewrite Heq. reflexivity.
    + exact Hloop.
    + exact Hchosen.
    + intros h [<-|Hh]; [lra|apply Hbefore, Hh].
    + exact Hafter.
Qed.

(** A weight that is absent or zero counts as [1]. *)
Lemma weightOr1_zero : weightOr1 (Some 0) = 1 /\ weightOr1 None = 1.
Proof. split; reflexivity. Qed.

(** C2, amended: when [apply] runs the selection, no position fits
    completely and some saved flexible fit has a score above [-1], [apply]
    applies the first of the saved fits whose score is greatest (every
    earlier fit scores strictly less, every later one at most as much), with
    [_isPushed] false.  The score is the width of the fit's bounding box
    times its height times its position's weight, where a weight that is
    absent or [0] counts as [1]: a position of weight [0] scores the plain
    area of its bounding box. *)
Theorem apply_selects_best_flexible_fit (s : Strategy) (e : Env) (pane : Element) :
  selects s e pane ->
  (forall p, In p (_preferredPositions s) ->
     fitsCompletely objects (beginApply s e pane) e p = false) ->
  (exists f, In f (recordedFits objects parseFloat (beginApply s e pane) e (_preferredPositions s))
             /\ -1 < score objects f) ->
  exists before chosen after s',
    recordedFits objects parseFloat (beginApply s e pane) e (_preferredPositions s)
    = (before ++ chosen :: after)%list
    /\ (forall f, In f before -> score objects f < score objects chosen)
    /\ (forall f, In f after -> score objects f <= score objects chosen)
    /\ apply objects parseFloat coerceCssPixelValue s e = (s', Returned)
    /\ _lastPosition s' = Some (ff_position chosen)
    /\ _isPushed s' = false
    /\ (forall f, score objects f
                  = bb_width (ff_boundingBoxRect f) * bb_height (ff_boundingBoxRect f)
                    * weightOr1 (weight (objects (ff_position f))))
    /\ (forall f, weight (objects (ff_position f)) = Some 0 ->
                  score objects f
                  = bb_width (ff_boundingBoxRect f) * bb_height (ff_boundingBoxRect f) * 1).
Proof.
  intros Hselects Hnone Hsome.
  destruct (bestFitLoop_first_maximum _ None (-1) Hsome)
    as (before & chosen & after & Heq & Hloop & Hchosen & Hbefore & Hafter).
  exists before, chosen, after.
  rewrite (apply_selecting objects parseFloat coerceCssPixelValue s e pane Hselects).
  cbv zeta.
  rewrite beginApply_preferredPositions.
  destruct (positionsLoop_none_fits (beginApply s e pane) e (_preferredPositions s) Hnone
              [] None) as [fallback Hrun].
  rewrite Hrun. cbn [app]. rewrite Heq.
  assert (Hcons : exists first others, (before ++ chosen :: after)%list = first :: others)
    by (destruct before; cbn; eauto).
  destruct Hcons as (first & others & Hcons). rewrite Heq, Hcons in Hloop.
  rewrite Hcons. cbv beta iota. rewrite Hloop.
  destruct (_applyPosition_fields objects coerceCssPixelValue
              (set_isPushed false (beginApply s e pane)) e (ff_position chosen)
              (ff_origin chosen))
    as (size & amount & styles & Happlied).
  rewrite Happlied. eexists. repeat split; try assumption; try reflexivity.
  intros f Hweight. unfold score. rewrite Hweight. reflexivity.
Qed.

End FlexibleFits.

(** C2, as stated, fails on a position of weight [0].  An overlay of
    [30 x 80] with a minimum height of [10] fits flexibly above the trigger
    (bounding box [90 x 30]) and below it (bounding box [90 x 50]); the
    position below has weight [0].  As the claim scores them the position
    above wins, [2700] to [0]; the code scores the position below [4500] and
    applies it. *)
Lemma weight_zero_scores_the_plain_area :
  let s := Fixture.attached [1; 2]%nat in
  let e := Fixture.withMinimums JUndefined (JNum 10)
             (Fixture.browser (Fixture.rectAt 10 30 20 20) 30 80 0) in
  let fits := recordedFits Fixture.objects Fixture.parseFloat
                (beginApply s e Fixture.pane) e (_preferredPositions s) in
  map ff_position fits = [1; 2]%nat
  /\ weight (Fixture.objects 2%nat) = Some 0
  /\ map (claimedScore Fixture.objects) fits = [2700; 0]
  /\ map (score Fixture.objects) fits = [2700; 4500]
  /\ _lastPosition
       (fst (apply Fixture.objects Fixture.parseFloat Fixture.coerceCssPixelValue s e))
     = Some 2%nat.
Proof. cbv zeta. repeat split; vm_compute; reflexivity. Qed.

(** C2 at that overlay: the position below the trigger is applied. *)
Lemma apply_selects_best_flexible_fit_witness :
  let s := Fixture.attached [1; 2]%nat in
  let e := Fixture.withMinimums JUndefined (JNum 10)
             (Fixture.browser (Fixture.rectAt 10 30 20 20) 30 80 0) in
  exists before chosen after s',
    recordedFits Fixture.objects Fixture.parseFloat (beginApply s e Fixture.pane) e
      (_preferredPositions s)
    = (before ++ chosen :: after)%list
    /\ (forall f, In f before -> score Fixture.objects f < score Fixture.objects chosen)
    /\ (forall f, In f after -> score Fixture.objects f <= score Fixture.objects chosen)
    /\ apply Fixture.objects Fixture.parseFloat Fixture.coerceCssPixelValue s e = (s', Returned)
    /\ _lastPosition s' = Some (ff_position chosen)
    /\ _isPushed s' = false
    /\ (forall f, score Fixture.objects f
                  = bb_width (ff_boundingBoxRect f) * bb_height (ff_boundingBoxRect f)
                    * weightOr1 (weight (Fixture.objects (ff_position f))))
    /\ (forall f, weight (Fixture.objects (ff_position f)) = Some 0 ->
                  score Fixture.objects f
                  = bb_width (ff_boundingBoxRect f) * bb_height (ff_boundingBoxRect f) * 1).
Proof.
  cbv zeta.
  apply (apply_selects_best_flexible_fit Fixture.objects Fixture.parseFloat
           Fixture.coerceCssPixelValue).
  - repeat split; try reflexivity. exists Fixture.host. reflexivity.
  - intros p Hp. vm_compute in Hp. destruct Hp as [<-|[<-|[]]]; vm_compute; reflexivity.
  - exists (mkFlexibleFit 2%nat (mkPoint 10 50) (mkRect 0 30 80 0 30 80)
              (mkBox (Some 50) (Some 10) None None 90 50)).
    split.
    + vm_compute. right. left. reflexivity.
    + vm_compute. reflexivity.
Defined.

(** ** Push resolver *)

(** How [overflowBefore || -overflowAfter] pushes. *)
Lemma push_amount (before after : Q) :
  let amount := if truthy (Qmax before 0) then Qmax before 0 else - Qmax after 0 in
  (0 < before /\ amount == before)
  \/ (before <= 0 /\ 0 < after /\ amount == - after)
  \/ (before <= 0 /\ after <= 0 /\ amount == 0).
Proof.
  cbv zeta. unfold truthy.
  destruct (Qeq_bool (Qmax before 0) 0) eqn:Hzero; cbn [negb].
  - apply Qeq_bool_iff in Hzero.
    assert (Hbefore : before <= 0) by (rewrite <- Hzero; apply Q.le_max_l).
    destruct (Q.max_spec after 0) as [[Hlt Hmax]|[Hle Hmax]].
    + right. right. repeat split; lra.
    + destruct (Qlt_le_dec 0 after) as [Hpos|Hneg].
      * right. left. repeat split; lra.
      * right. right. repeat split; lra.
  - apply Qeq_bool_neq in Hzero.
    destruct (Q.max_spec before 0) as [[Hlt Hmax]|[Hle Hmax]].
    + exfalso. apply Hzero. exact Hmax.
    + left. split; [|exact Hmax].
      destruct (Qlt_le_dec 0 before) as [Hpos|Hneg]; [exact Hpos|].
      exfalso. apply Hzero. lra.
Qed.

(** The two branches of the push along one axis. *)
Lemma pushedAlong_computed (length available start edge margin : Q) :
  pushedAlong length available start edge margin
    (if Qle_bool length available
     then (if truthy (Qmax (edge - start) 0) then Qmax (edge - start) 0
           else - Qmax (start + length - available) 0)
     else (if Qltb start margin then edge - start else 0)).
Proof.
  unfold pushedAlong. cbv zeta.
  destruct (Qle_bool length available) eqn:Hfits.
  - apply Qle_bool_iff in Hfits.
    destruct (push_amount (edge - start) (start + length - available))
      as [[Hbefore Hpush]|[(Hbefore & Hafter & Hpush)|(Hbefore & Hafter & Hpush)]].
    + left. auto.
    + right. left. auto.
    + right. right. left. auto.
  - assert (Hlonger : available < length).
    { apply Qnot_le_lt. intros Hle. apply Qle_bool_iff in Hle. congruence. }
    destruct (Qltb start margin) eqn:Hstart.
    + apply Qltb_true in Hstart. right. right. right. left.
      split; [exact Hlonger|split; [exact Hstart|reflexivity]].
    + apply Qltb_false in Hstart. right. right. right. right.
      split; [exact Hlonger|split; [exact Hstart|reflexivity]].
Qed.

(** C5: when the position is locked and a push amount was recorded, the push
    resolver returns the start point moved by exactly that amount, whatever
    the overlay rectangle and the scroll position are, and leaves the
    strategy as it was.  Otherwise (not locked, or nothing recorded) it
    computes a new push from the overflows of the overlay, whatever amount
    was recorded before: along each axis an overlay no longer than the
    viewport is pushed by its overflow at the near edge or, when there is
    none, back by its overflow at the far edge, and a longer one is moved to
    the near edge when it starts before the margin.  It returns the start
    point moved by that amount and records the amount in
    [_previousPushAmount], changing nothing else. *)
Theorem pushOverlayOnScreen_reuses_locked_push (s : Strategy) (start : Point)
    (rawOverlayRect : ClientRect) (scrollPosition : ViewportScrollPosition) :
  let overlay := getRoundedBoundingClientRect rawOverlayRect in
  let viewport := _viewportRect s in
  (forall previous,
      _positionLocked s = true ->
      _previousPushAmount s = Some previous ->
      _pushOverlayOnScreen s start rawOverlayRect scrollPosition
      = (s, translate start previous))
  /\ (_positionLocked s = false \/ _previousPushAmount s = None ->
      exists amount,
        _pushOverlayOnScreen s start rawOverlayRect scrollPosition
        = (set_previousPushAmount (Some amount) s, translate start amount)
        /\ pushedAlong (width overlay) (width viewport) (x start)
             (left viewport - scroll_left scrollPosition) (_viewportMargin s) (x amount)
        /\ pushedAlong (height overlay) (height viewport) (y start)
             (top viewport - scroll_top scrollPosition) (_viewportMargin s) (y amount)).
Proof.
  cbv zeta. split.
  - intros previous Hlocked Hprevious. unfold _pushOverlayOnScreen.
    rewrite Hlocked, Hprevious. reflexivity.
  - intros Hfresh.
    eexists {| x := _; y := _ |}. split; [|split; apply pushedAlong_computed].
    unfold _pushOverlayOnScreen, translate. cbn [x y].
    destruct Hfresh as [Hunlocked|Hnone].
    + rewrite Hunlocked. destruct (_previousPushAmount s); reflexivity.
    + rewrite Hnone. reflexivity.
Qed.

(** C5 on an overlay pushed by [(-20, -20)] before, now starting at
    [(80, 40)] where it overflows the right edge by [10]: locked, the old
    amount is applied again; not locked, the push is computed afresh, the
    overlay ends at [(70, 40)] and the new amount is recorded. *)
Lemma pushOverlayOnScreen_reuses_locked_push_witness :
  let pushed := set_previousPushAmount (Some (mkPoint (-20) (-20)))
                  (set_viewportRect (Fixture.rectAt 0 0 100 100) (Fixture.attached [0%nat])) in
  let locked := withLockedPosition pushed true in
  let overlayRect := Fixture.rectAt 0 0 30 30 in
  let overlay := getRoundedBoundingClientRect overlayRect in
  let viewport := _viewportRect pushed in
  _pushOverlayOnScreen locked (mkPoint 80 40) overlayRect (mkScroll 0 0)
  = (locked, translate (mkPoint 80 40) (mkPoint (-20) (-20)))
  /\ x (snd (_pushOverlayOnScreen pushed (mkPoint 80 40) overlayRect (mkScroll 0 0))) == 70
  /\ y (snd (_pushOverlayOnScreen pushed (mkPoint 80 40) overlayRect (mkScroll 0 0))) == 40
  /\ exists amount,
       _pushOverlayOnScreen pushed (mkPoint 80 40) overlayRect (mkScroll 0 0)
       = (set_previousPushAmount (Some amount) pushed, translate (mkPoint 80 40) amount)
       /\ pushedAlong (width overlay) (width viewport) 80
            (left viewport - 0) (_viewportMargin pushed) (x amount)
       /\ pushedAlong (height overlay) (height viewport) 40
            (top viewport - 0) (_viewportMargin pushed) (y amount).
Proof.
  cbv zeta. split; [|split; [|split]].
  - apply (proj1 (pushOverlayOnScreen_reuses_locked_push _ _ _ _)); reflexivity.
  - vm_compute. reflexivity.
  - vm_compute. reflexivity.
  - apply (proj2 (pushOverlayOnScreen_reuses_locked_push
                    (set_previousPushAmount (Some (mkPoint (-20) (-20)))
                       (set_viewportRect (Fixture.rectAt 0 0 100 100)
                          (Fixture.attached [0%nat])))
                    (mkPoint 80 40) (Fixture.rectAt 0 0 30 30) (mkScroll 0 0))).
    left. reflexivity.
Defined.

(** ** Bounding-box sizing *)

Section Sizing.

Variable coerceCssPixelValue : JsVal -> Css.

(** The width and height written by [_setBoundingBoxStyles] when the overlay
    is not positioned exactly. *)
Lemma boundingBoxStyles_size (s : Strategy) (e : Env) (rect : BoundingBoxRect)
    (position : ConnectedPosition) :
  _hasExactPosition s = false ->
  boundingBoxStyles coerceCssPixelValue s e rect position !! "width"
  = Some (coerceCssPixelValue (JNum (bb_width rect)))
  /\ boundingBoxStyles coerceCssPixelValue s e rect position !! "height"
     = Some (coerceCssPixelValue (JNum (bb_height rect))).
Proof.
  intros Hexact. unfold boundingBoxStyles. rewrite Hexact.
  destruct (truthyVal (maxWidth (getConfig e))), (truthyVal (maxHeight (getConfig e)));
    rewrite ?lookup_insert_ne by discriminate; split; reflexivity.
Qed.

(** What an element of the document shows for a property once a style
    object holding that property has been written onto it. *)
Lemma extendElementStyles_lookup (el : Element) (source : gmap string Css)
    (d : gmap Element (gmap string Css)) (property : string) (value : Css) :
  source !! property = Some value ->
  styleOf (extendElementStyles (Some el) source d) el !! property = Some value.
Proof.
  intros Hsource. unfold styleOf, extendElementStyles, extendStyles.
  rewrite lookup_insert_eq. cbn [default].
  apply lookup_union_Some_l. exact Hsource.
Qed.

(** The width and height written by [_setBoundingBoxStyles] when the overlay
    is positioned exactly. *)
Lemma boundingBoxStyles_exact (s : Strategy) (e : Env) (rect : BoundingBoxRect)
    (position : ConnectedPosition) :
  _hasExactPosition s = true ->
  boundingBoxStyles coerceCssPixelValue s e rect position !! "width" = Some (CssLit "100%")
  /\ boundingBoxStyles coerceCssPixelValue s e rect position !! "height"
     = Some (CssLit "100%").
Proof.
  intros Hexact. unfold boundingBoxStyles. rewrite Hexact. split; reflexivity.
Qed.

(** C8, amended: when [_growAfterOpen] is false and the call is not the
    initial render, the size of the bounding box that [_setBoundingBoxStyles]
    computes and records is, on each axis, the smaller of the newly
    calculated size and the last recorded size: it never exceeds the last
    size, and a calculated size that is not larger than the last one is kept
    as it is (shrinking is allowed).  That size is the width and height
    written to the bounding box when the overlay is not positioned exactly;
    when it is positioned exactly (no flexible dimensions, or pushed) the
    bounding box is styled [100%] by [100%], whatever the last size. *)
Theorem setBoundingBoxStyles_never_grows (s : Strategy) (e : Env) (origin : Point)
    (position : ConnectedPosition) (box : Element) :
  _growAfterOpen s = false ->
  _isInitialRender s = false ->
  _boundingBox s = Some box ->
  let calculated := _calculateBoundingBoxRect s e origin position in
  let previous := _lastBoundingBoxSize s in
  let s' := _setBoundingBoxStyles coerceCssPixelValue s e origin position in
  let applied := _lastBoundingBoxSize s' in
  applied = mkSize (Qmin (bb_width calculated) (sz_width previous))
                   (Qmin (bb_height calculated) (sz_height previous))
  /\ sz_width applied <= sz_width previous
  /\ sz_height applied <= sz_height previous
  /\ (bb_width calculated <= sz_width previous -> sz_width applied == bb_width calculated)
  /\ (bb_height calculated <= sz_height previous -> sz_height applied == bb_height calculated)
  /\ (_hasExactPosition s = false ->
      styleOf (dom s') box !! "width" = Some (coerceCssPixelValue (JNum (sz_width applied)))
      /\ styleOf (dom s') box !! "height"
         = Some (coerceCssPixelValue (JNum (sz_height applied))))
  /\ (_hasExactPosition s = true ->
      styleOf (dom s') box !! "width" = Some (CssLit "100%")
      /\ styleOf (dom s') box !! "height" = Some (CssLit "100%")).
Proof.
  intros Hgrow Hinitial Hbox. cbv zeta.
  unfold _setBoundingBoxStyles, cappedBoundingBoxRect. rewrite Hgrow, Hinitial.
  cbn [negb andb _lastBoundingBoxSize set_dom set_lastBoundingBoxSize
       bb_width bb_height sz_width sz_height dom _boundingBox].
  rewrite Hbox. repeat split.
  - apply Q.le_min_r.
  - apply Q.le_min_r.
  - apply Q.min_l.
  - apply Q.min_l.
  - apply extendElementStyles_lookup.
    match goal with
    | |- context [boundingBoxStyles _ s e ?rect position] =>
        exact (proj1 (boundingBoxStyles_size s e rect position H))
    end.
  - apply extendElementStyles_lookup.
    match goal with
    | |- context [boundingBoxStyles _ s e ?rect position] =>
        exact (proj2 (boundingBoxStyles_size s e rect position H))
    end.
  - apply extendElementStyles_lookup.
    match goal with
    | |- context [boundingBoxStyles _ s e ?rect position] =>
        exact (proj1 (boundingBoxStyles_exact s e rect position H))
    end.
  - apply extendElementStyles_lookup.
    match goal with
    | |- context [boundingBoxStyles _ s e ?rect position] =>
        exact (proj2 (boundingBoxStyles_exact s e rect position H))
    end.
Qed.

End Sizing.

(** C8 after a first placement below the trigger, which left a bounding box
    of [90 x 70]: with the origin point moved up to [(10, 10)] the calculated
    box is [90 x 90], and the height applied stays [70]. *)
Lemma setBoundingBoxStyles_never_grows_witness :
  let e := Fixture.browser (Fixture.rectAt 10 10 20 20) 30 30 0 in
  let s := fst (apply Fixture.objects Fixture.parseFloat Fixture.coerceCssPixelValue
                  (Fixture.attached [0%nat]) e) in
  let calculated := _calculateBoundingBoxRect s e (mkPoint 10 10) Fixture.belowStart in
  let previous := _lastBoundingBoxSize s in
  let s' := _setBoundingBoxStyles Fixture.coerceCssPixelValue s e (mkPoint 10 10)
              Fixture.belowStart in
  let applied := _lastBoundingBoxSize s' in
  applied = mkSize (Qmin (bb_width calculated) (sz_width previous))
                   (Qmin (bb_height calculated) (sz_height previous))
  /\ sz_width applied <= sz_width previous
  /\ sz_height applied <= sz_height previous
  /\ (bb_width calculated <= sz_width previous -> sz_width applied == bb_width calculated)
  /\ (bb_height calculated <= sz_height previous -> sz_height applied == bb_height calculated)
  /\ (_hasExactPosition s = false ->
      styleOf (dom s') Fixture.host !! "width"
      = Some (Fixture.coerceCssPixelValue (JNum (sz_width applied)))
      /\ styleOf (dom s') Fixture.host !! "height"
         = Some (Fixture.coerceCssPixelValue (JNum (sz_height applied))))
  /\ (_hasExactPosition s = true ->
      styleOf (dom s') Fixture.host !! "width" = Some (CssLit "100%")
      /\ styleOf (dom s') Fixture.host !! "height" = Some (CssLit "100%")).
Proof.
  cbv zeta.
  apply (setBoundingBoxStyles_never_grows Fixture.coerceCssPixelValue);
    vm_compute; reflexivity.
Defined.

(** C8, as stated, fails: the bounding box applied can exceed the one
    applied before.  A first placement below the trigger leaves a bounding
    box of [90px] by [70px].  The trigger then scrolls down to [(10, 80)]:
    on the next [apply], not the initial render and with [_growAfterOpen]
    false, no position fits, the overlay is pushed on screen and positioned
    exactly, and the bounding box is styled [100%] by [100%]. *)
Lemma pushed_bounding_box_fills_its_container :
  let run := apply Fixture.objects Fixture.parseFloat Fixture.coerceCssPixelValue in
  let placed := fst (run (Fixture.attached [0%nat])
                       (Fixture.browser (Fixture.rectAt 10 10 20 20) 30 30 0)) in
  let scrolled := run placed (Fixture.browser (Fixture.rectAt 10 80 20 20) 30 30 0) in
  _growAfterOpen placed = false
  /\ _isInitialRender placed = false
  /\ _lastBoundingBoxSize placed = mkSize 90 70
  /\ styleOf (dom placed) Fixture.host !! "width" = Some (CssPx 90)
  /\ styleOf (dom placed) Fixture.host !! "height" = Some (CssPx 70)
  /\ snd scrolled = Returned
  /\ _isPushed (fst scrolled) = true
  /\ styleOf (dom (fst scrolled)) Fixture.host !! "width" = Some (CssLit "100%")
  /\ styleOf (dom (fst scrolled)) Fixture.host !! "height" = Some (CssLit "100%")
  /\ ~ (exists size,
          styleOf (dom (fst scrolled)) Fixture.host !! "width" = Some (CssPx size)
          /\ size <= 90).
Proof.
  cbv zeta. repeat apply conj; try (vm_compute; reflexivity).
  intros (size & Hwidth & _).
  assert (Hfull :
    styleOf (dom (fst (apply Fixture.objects Fixture.parseFloat Fixture.coerceCssPixelValue
                         (fst (apply Fixture.objects Fixture.parseFloat
                                 Fixture.coerceCssPixelValue (Fixture.attached [0%nat])
                                 (Fixture.browser (Fixture.rectAt 10 10 20 20) 30 30 0)))
                         (Fixture.browser (Fixture.rectAt 10 80 20 20) 30 30 0))))
      Fixture.host !! "width" = Some (CssLit "100%")) by (vm_compute; reflexivity).
  rewrite Hfull in Hwidth. clear Hfull. discriminate Hwidth.
Qed.

(** ** Direction *)

(** C9: for every position with valid horizontal values, evaluating the
    position in a right-to-left layout gives the same origin point, the same
    overlay point, the same fit and the same bounding box as evaluating its
    horizontal mirror in a left-to-right layout, all other inputs being
    equal. *)
Theorem rtl_is_ltr_of_the_mirror (s : Strategy) (e : Env) (pos : ConnectedPosition)
    (originRect overlayRect viewport : ClientRect) (point : Point) (dOffsetX dOffsetY : Q) :
  horizontal (originX pos) ->
  horizontal (overlayX pos) ->
  _getOriginPoint true originRect pos = _getOriginPoint false originRect (mirror pos)
  /\ _getOverlayPoint true point overlayRect pos
     = _getOverlayPoint false point overlayRect (mirror pos)
  /\ _getOverlayPoint true (_getOriginPoint true originRect pos) overlayRect pos
     = _getOverlayPoint false (_getOriginPoint false originRect (mirror pos)) overlayRect
         (mirror pos)
  /\ _getOverlayFit dOffsetX dOffsetY point overlayRect viewport pos
     = _getOverlayFit dOffsetX dOffsetY point overlayRect viewport (mirror pos)
  /\ _calculateBoundingBoxRect s (withDirection true e) point pos
     = _calculateBoundingBoxRect s (withDirection false e) point (mirror pos).
Proof.
  intros HoriginX HoverlayX.
  destruct pos as [fromX fromY toX toY posWeight posOffsetX posOffsetY].
  cbn [originX overlayX] in *.
  destruct HoriginX as [-> | [-> | ->]]; destruct HoverlayX as [-> | [-> | ->]];
    repeat split; reflexivity.
Qed.

(** C9 for the position that opens below the trigger from its start edge. *)
Lemma rtl_is_ltr_of_the_mirror_witness :
  let s := set_viewportRect (Fixture.rectAt 0 0 100 100) (Fixture.attached [0%nat]) in
  let e := Fixture.browser (Fixture.rectAt 40 10 20 20) 30 30 0 in
  let pos := Fixture.belowStart in
  let originRect := Fixture.rectAt 40 10 20 20 in
  let overlayRect := Fixture.rectAt 0 0 30 30 in
  let viewport := Fixture.rectAt 0 0 100 100 in
  let point := mkPoint 60 30 in
  _getOriginPoint true originRect pos = _getOriginPoint false originRect (mirror pos)
  /\ _getOverlayPoint true point overlayRect pos
     = _getOverlayPoint false point overlayRect (mirror pos)
  /\ _getOverlayPoint true (_getOriginPoint true originRect pos) overlayRect pos
     = _getOverlayPoint false (_getOriginPoint false originRect (mirror pos)) overlayRect
         (mirror pos)
  /\ _getOverlayFit 0 0 point overlayRect viewport pos
     = _getOverlayFit 0 0 point overlayRect viewport (mirror pos)
  /\ _calculateBoundingBoxRect s (withDirection true e) point pos
     = _calculateBoundingBoxRect s (withDirection false e) point (mirror pos).
Proof.
  cbv zeta. apply rtl_is_ltr_of_the_mirror; left; reflexivity.
Defined.

(** ** Configuration errors *)

Lemma validateHorizontalPosition_returns (property value : string) :
  validateHorizontalPosition property value = None -> horizontal value.
Proof.
  unfold validateHorizontalPosition, horizontal.
  destruct (String.eqb value "start") eqn:Hstart; [apply String.eqb_eq in Hstart; auto|].
  destruct (String.eqb value "center") eqn:Hcenter; [apply String.eqb_eq in Hcenter; auto|].
  destruct (String.eqb value "end") eqn:Hend; [apply String.eqb_eq in Hend; auto|].
  discriminate.
Qed.

Lemma validateVerticalPosition_returns (property value : string) :
  validateVerticalPosition property value = None -> vertical value.
Proof.
  unfold validateVerticalPosition, vertical.
  destruct (String.eqb value "top") eqn:Htop; [apply String.eqb_eq in Htop; auto|].
  destruct (String.eqb value "center") eqn:Hcenter; [apply String.eqb_eq in Hcenter; auto|].
  destruct (String.eqb value "bottom") eqn:Hbottom; [apply String.eqb_eq in Hbottom; auto|].
  discriminate.
Qed.

Lemma validatePair_throws (pair : ConnectedPosition) :
  invalid pair -> exists message, validatePair pair = Some message.
Proof.
  unfold validatePair, invalid. intros Hinvalid.
  destruct (validateHorizontalPosition "originX" (originX pair)) eqn:H1; [eauto|].
  destruct (validateVerticalPosition "originY" (originY pair)) eqn:H2; [cbn; eauto|].
  destruct (validateHorizontalPosition "overlayX" (overlayX pair)) eqn:H3; [cbn; eauto|].
  destruct (validateVerticalPosition "overlayY" (overlayY pair)) eqn:H4; [cbn; eauto|].
  apply validateHorizontalPosition_returns in H1, H3.
  apply validateVerticalPosition_returns in H2, H4.
  exfalso. destruct Hinvalid as [H|[H|[H|H]]]; apply H; assumption.
Qed.

Section Validation.

Variable objects : PosRef -> ConnectedPosition.

Lemma forEach_thrown (positions : list PosRef) (message : string) :
  fold_left (fun thrown pair => andThen thrown (validatePair (objects pair)))
    positions (Some message) = Some message.
Proof. induction positions as [|p positions IH]; [reflexivity|exact IH]. Qed.

Lemma forEach_throws (positions : list PosRef) :
  (exists p, In p positions /\ invalid (objects p)) ->
  exists message,
    fold_left (fun thrown pair => andThen thrown (validatePair (objects pair)))
      positions None = Some message.
Proof.
  induction positions as [|p positions IH]; intros [q [Hin Hq]]; [destruct Hin|].
  cbn [fold_left andThen].
  destruct (validatePair (objects p)) as [message|] eqn:Hp.
  - exists message. apply forEach_thrown.
  - apply IH. destruct Hin as [->|Hin].
    + destruct (validatePair_throws _ Hq) as [message Hmessage]. congruence.
    + exists q. split; assumption.
Qed.

(** In a development build [_validatePositions] throws on an empty list and
    on a list holding an invalid position. *)
Lemma _validatePositions_throws (s : Strategy) (e : Env) :
  ngDevMode e = true ->
  _preferredPositions s = []
  \/ (exists p, In p (_preferredPositions s) /\ invalid (objects p)) ->
  exists message, _validatePositions objects s e = Some message.
Proof.
  intros Hdev Hbad. unfold _validatePositions. rewrite Hdev.
  destruct (_preferredPositions s) as [|p positions] eqn:Hlist.
  - eauto.
  - destruct Hbad as [Hempty|Hinvalid]; [discriminate|].
    apply forEach_throws. exact Hinvalid.
Qed.

(** Outside development builds it checks nothing. *)
Lemma _validatePositions_production (s : Strategy) (e : Env) :
  ngDevMode e = false -> _validatePositions objects s e = None.
Proof. intros Hprod. unfold _validatePositions. rewrite Hprod. reflexivity. Qed.

(** C6, as stated, fails in a production build: with [ngDevMode] false,
    attaching with no position at all, supplying an empty list, supplying a
    position whose [originX] is not one of the literals, and attaching to a
    second overlay all return normally. *)
Lemma production_build_checks_nothing :
  let e := Fixture.production (Fixture.browser (Fixture.rectAt 10 10 20 20) 30 30 0) in
  let s := newStrategy (OriginElement Fixture.trigger) in
  let misspelt (_ : PosRef) := mkPos "left" "bottom" "start" "top" None None None in
  snd (attach Fixture.objects s e Fixture.overlayRef) = Returned
  /\ snd (withPositions Fixture.objects s e []) = Returned
  /\ snd (withPositions misspelt s e [0%nat]) = Returned
  /\ snd (attach Fixture.objects (fst (attach Fixture.objects s e Fixture.overlayRef)) e
            (mkOverlayRef 5%nat 6%nat)) = Returned.
Proof. cbv zeta. repeat split; reflexivity. Qed.

(** C6, amended: in a development build ([ngDevMode] undefined or truthy)
    an empty list of positions and an invalid enum literal in any position
    make [withPositions] and [attach] throw, and attaching to an overlay
    other than the one the strategy already refers to makes [attach] throw;
    a throwing [attach] leaves the strategy as it was.  In a production
    build ([ngDevMode] false) the checks are skipped. *)
Theorem configuration_errors_throw_in_development (s : Strategy) (e : Env)
    (positions : list PosRef) (overlayRef : OverlayReference) :
  (ngDevMode e = true ->
   (positions = [] \/ (exists p, In p positions /\ invalid (objects p)) ->
    throws (withPositions objects s e positions))
   /\ (_preferredPositions s = []
       \/ (exists p, In p (_preferredPositions s) /\ invalid (objects p)) ->
       throws (attach objects s e overlayRef))
   /\ (forall current,
         _overlayRef s = Some current ->
         OverlayReference_eqb overlayRef current = false ->
         throws (attach objects s e overlayRef)))
  /\ (throws (attach objects s e overlayRef) -> fst (attach objects s e overlayRef) = s)
  /\ (ngDevMode e = false ->
      snd (withPositions objects s e positions) = Returned
      /\ snd (attach objects s e overlayRef) = Returned).
Proof.
  unfold throws. split; [intros Hdev; repeat split|split].
  - intros Hbad. unfold withPositions.
    destruct (notPartOf positions _);
    match goal with
    | |- context [_validatePositions objects ?s' e] =>
        destruct (_validatePositions_throws s' e Hdev Hbad) as [message Hmessage]
    end;
    rewrite Hmessage; eauto.
  - intros Hbad. unfold attach.
    destruct (_validatePositions_throws s e Hdev Hbad) as [message Hmessage].
    rewrite Hmessage.
    destruct (_overlayRef s) as [current|];
      [destruct (negb (OverlayReference_eqb overlayRef current) && ngDevMode e)|];
      cbn; eauto.
  - intros current Hcurrent Hother. unfold attach.
    rewrite Hcurrent, Hother, Hdev. cbn. eauto.
  - intros [message Hmessage]. unfold attach in *.
    destruct (andThen _ (_validatePositions objects s e)); [reflexivity|discriminate].
  - intros Hprod. split.
    + unfold withPositions. rewrite _validatePositions_production by exact Hprod.
      reflexivity.
    + unfold attach. rewrite _validatePositions_production by exact Hprod.
      rewrite Hprod. destruct (_overlayRef s); rewrite ?andb_false_r; reflexivity.
Qed.

End Validation.

(** C6 on a fresh strategy in a development build: no position at all, then
    a position whose [originX] is misspelt, then a second overlay. *)
Lemma configuration_errors_throw_in_development_witness :
  let e := Fixture.browser (Fixture.rectAt 10 10 20 20) 30 30 0 in
  let s := newStrategy (OriginElement Fixture.trigger) in
  let misspelt (_ : PosRef) := mkPos "left" "bottom" "start" "top" None None None in
  throws (withPositions Fixture.objects s e [])
  /\ throws (withPositions misspelt s e [0%nat])
  /\ throws (attach Fixture.objects s e Fixture.overlayRef)
  /\ throws (attach Fixture.objects (Fixture.attached [0%nat]) e (mkOverlayRef 5%nat 6%nat)).
Proof.
  cbv zeta. repeat split.
  - apply (proj1 (configuration_errors_throw_in_development Fixture.objects
                    (newStrategy (OriginElement Fixture.trigger))
                    (Fixture.browser (Fixture.rectAt 10 10 20 20) 30 30 0)
                    [] Fixture.overlayRef) eq_refl).
    left. reflexivity.
  - apply (proj1 (configuration_errors_throw_in_development _
                    (newStrategy (OriginElement Fixture.trigger))
                    (Fixture.browser (Fixture.rectAt 10 10 20 20) 30 30 0)
                    [0%nat] Fixture.overlayRef) eq_refl).
    right. exists 0%nat. split; [left; reflexivity|].
    left. intros [H|[H|H]]; discriminate H.
  - apply (proj1 (configuration_errors_throw_in_development Fixture.objects
                    (newStrategy (OriginElement Fixture.trigger))
                    (Fixture.browser (Fixture.rectAt 10 10 20 20) 30 30 0)
                    [] Fixture.overlayRef) eq_refl).
    left. reflexivity.
  - apply (proj1 (configuration_errors_throw_in_development Fixture.objects
                    (Fixture.attached [0%nat])
                    (Fixture.browser (Fixture.rectAt 10 10 20 20) 30 30 0)
                    [] (mkOverlayRef 5%nat 6%nat)) eq_refl) with Fixture.overlayRef;
      reflexivity.
Defined.

(** ** Position changes *)

Section PositionChanges.

Variable objects : PosRef -> ConnectedPosition.
Variable parseFloat : string -> JsNumber.
Variable coerceCssPixelValue : JsVal -> Css.

Lemma _applyPosition_emits (s : Strategy) (e : Env) (position : PosRef) (originPoint : Point) :
  _lastPosition (_applyPosition objects coerceCssPixelValue s e position originPoint)
  = Some position
  /\ emitted (_applyPosition objects coerceCssPixelValue s e position originPoint)
     = afterApplying e position (emitted s).
Proof.
  destruct (_applyPosition_fields objects coerceCssPixelValue s e position originPoint)
    as (size & amount & styles & Happlied).
  rewrite Happlied. split; reflexivity.
Qed.

(** Closes a goal about the state [_applyPosition] returns, from the state it
    was given. *)
Ltac by_applyPosition_emits :=
  match goal with
  | |- context [_applyPosition _ _ ?given ?e ?position ?originPoint] =>
      exact (_applyPosition_emits given e position originPoint)
  end.

(** [reapplyLastPosition] notifies like any other placement. *)
Lemma reapplyLastPosition_emits (s : Strategy) (e : Env) (s' : Strategy) :
  _isDisposed s = false ->
  isBrowser e = true ->
  reapplyLastPosition objects coerceCssPixelValue s e = (s', Returned) ->
  exists position,
    _lastPosition s' = Some position
    /\ emitted s' = afterApplying e position (emitted s).
Proof.
  intros Hdisposed Hbrowser. unfold reapplyLastPosition.
  rewrite Hdisposed, Hbrowser.
  cbn [negb andb set_originRect _pane].
  destruct (_pane s) as [pane|]; [|discriminate].
  cbn [_lastPosition _preferredPositions set_originRect set_overlayRect set_viewportRect].
  destruct (match _lastPosition s with
            | Some p => Some p
            | None => head (_preferredPositions s)
            end) as [position|]; [|discriminate].
  intros [= <-]. exists position. by_applyPosition_emits.
Qed.

(** C7, amended: every call of [apply] that applies a placement sends one
    notification to [positionChanges] for the placement applied, provided
    the subject has observers, and none otherwise; a call that takes the
    locked shortcut and reuses the last position is no exception. *)
Theorem apply_notifies_on_every_placement (s : Strategy) (e : Env) (s' : Strategy) :
  _isDisposed s = false ->
  isBrowser e = true ->
  apply objects parseFloat coerceCssPixelValue s e = (s', Returned) ->
  exists position,
    _lastPosition s' = Some position
    /\ emitted s' = afterApplying e position (emitted s).
Proof.
  intros Hdisposed Hbrowser. unfold apply. rewrite Hdisposed, Hbrowser.
  cbn [negb orb].
  destruct (negb (_isInitialRender s) && _positionLocked s
            && bool_decide (is_Some (_lastPosition s))).
  { apply reapplyLastPosition_emits; assumption. }
  destruct (_pane s) as [pane|]; [|discriminate].
  destruct (_boundingBox s) as [box|]; [|discriminate].
  destruct (positionsLoop objects parseFloat (beginApply s e pane) e _ [] None)
    as [position originPoint|[|fit fits] fallback].
  - intros [= <-]. exists position. by_applyPosition_emits.
  - destruct (_canPush (beginApply s e pane)); destruct fallback as [f|]; try discriminate;
      intros [= <-]; exists (fb_position f); by_applyPosition_emits.
  - destruct (bestFitLoop objects (fit :: fits) None (-1)) as [best|]; [|discriminate].
    intros [= <-]. exists (ff_position best). by_applyPosition_emits.
Qed.

End PositionChanges.

(** C7, as stated, fails: with one observer of [positionChanges] and the
    position locked, the first [apply] places the overlay and notifies; the
    second [apply] takes the locked shortcut, reuses the last position, and
    notifies again. *)
Lemma locked_reapply_notifies :
  let e := Fixture.browser (Fixture.rectAt 10 10 20 20) 30 30 1 in
  let s := withLockedPosition (Fixture.attached [0%nat]) true in
  let s1 := fst (apply Fixture.objects Fixture.parseFloat Fixture.coerceCssPixelValue s e) in
  let s2 := fst (apply Fixture.objects Fixture.parseFloat Fixture.coerceCssPixelValue s1 e) in
  _isInitialRender s1 = false
  /\ _positionLocked s1 = true
  /\ _lastPosition s1 = Some 0%nat
  /\ apply Fixture.objects Fixture.parseFloat Fixture.coerceCssPixelValue s1 e
     = reapplyLastPosition Fixture.objects Fixture.coerceCssPixelValue s1 e
  /\ emitted s1 = [mkChange 0%nat Fixture.inView]
  /\ emitted s2 = [mkChange 0%nat Fixture.inView; mkChange 0%nat Fixture.inView].
Proof. cbv zeta. repeat apply conj; vm_compute; reflexivity. Qed.

(** C7 on that second, locked call. *)
Lemma apply_notifies_on_every_placement_witness :
  let e := Fixture.browser (Fixture.rectAt 10 10 20 20) 30 30 1 in
  let s := withLockedPosition (Fixture.attached [0%nat]) true in
  let s1 := fst (apply Fixture.objects Fixture.parseFloat Fixture.coerceCssPixelValue s e) in
  let s2 := fst (apply Fixture.objects Fixture.parseFloat Fixture.coerceCssPixelValue s1 e) in
  exists position,
    _lastPosition s2 = Some position
    /\ emitted s2 = afterApplying e position (emitted s1).
Proof.
  cbv zeta.
  apply (apply_notifies_on_every_placement Fixture.objects Fixture.parseFloat
           Fixture.coerceCssPixelValue); vm_compute; reflexivity.
Defined.

(** ** The last position and the preferred positions *)

Section Lifecycle.

Variable objects : PosRef -> ConnectedPosition.
Variable parseFloat : string -> JsNumber.
Variable coerceCssPixelValue : JsVal -> Css.

Lemma lastPositionListed_same (s t : Strategy) :
  _lastPosition t = _lastPosition s ->
  _preferredPositions t = _preferredPositions s ->
  lastPositionListed s -> lastPositionListed t.
Proof. unfold lastPositionListed. intros -> ->. exact id. Qed.

Lemma lastPositionListed_none (t : Strategy) :
  _lastPosition t = None -> lastPositionListed t.
Proof. unfold lastPositionListed. intros ->. exact I. Qed.

Lemma _applyPosition_listed (s : Strategy) (e : Env) (position : PosRef) (originPoint : Point) :
  In position (_preferredPositions s) ->
  lastPositionListed (_applyPosition objects coerceCssPixelValue s e position originPoint).
Proof.
  intros Hin.
  destruct (_applyPosition_fields objects coerceCssPixelValue s e position originPoint)
    as (size & amount & styles & Happlied).
  rewrite Happlied. exact Hin.
Qed.

(** Whatever the loop hands on comes from the list it runs over. *)
Lemma positionsLoop_listed (s : Strategy) (e : Env) (all : list PosRef) :
  forall positions flexibleFits fallback,
  (forall p, In p positions -> In p all) ->
  (forall f, In f flexibleFits -> In (ff_position f) all) ->
  (forall f, fallback = Some f -> In (fb_position f) all) ->
  match positionsLoop objects parseFloat s e positions flexibleFits fallback with
  | FitsCompletely pos _ => In pos all
  | NoneFits fits fallback' =>
      (forall f, In f fits -> In (ff_position f) all)
      /\ (forall f, fallback' = Some f -> In (fb_position f) all)
  end.
Proof.
  induction positions as [|p positions IH]; intros flexibleFits fallback Hall Hfits Hfallback.
  - cbn. split; assumption.
  - cbn [positionsLoop].
    destruct (isCompletelyWithinViewport _); [apply Hall; left; reflexivity|].
    destruct (_canFitWithFlexibleDimensions _ _ _ _ _ _).
    + apply IH; [intros q Hq; apply Hall; right; exact Hq| |exact Hfallback].
      intros f Hf. apply in_app_or in Hf. destruct Hf as [Hf|[<-|[]]]; [apply Hfits, Hf|].
      apply Hall. left. reflexivity.
    + apply IH; [intros q Hq; apply Hall; right; exact Hq|exact Hfits|].
      destruct fallback as [previous|].
      * destruct (Qltb _ _); intros f [= <-];
          [apply Hall; left; reflexivity|apply Hfallback; reflexivity].
      * intros f [= <-]. apply Hall. left. reflexivity.
Qed.

Lemma bestFitLoop_listed (fits : list FlexibleFit) :
  forall best bestScore chosen,
  bestFitLoop objects fits best bestScore = Some chosen ->
  In chosen fits \/ best = Some chosen.
Proof.
  induction fits as [|fit fits IH]; intros best bestScore chosen; cbn [bestFitLoop].
  - intros ->. right. reflexivity.
  - destruct (Qltb bestScore (score objects fit)); intros Hloop;
      destruct (IH _ _ _ Hloop) as [Hin|Hbest].
    + left. right. exact Hin.
    + left. left. congruence.
    + left. right. exact Hin.
    + right. exact Hbest.
Qed.

Lemma reapplyLastPosition_listed (s : Strategy) (e : Env) :
  lastPositionListed s ->
  lastPositionListed (fst (reapplyLastPosition objects coerceCssPixelValue s e)).
Proof.
  intros Hlisted. unfold reapplyLastPosition.
  destruct (negb (_isDisposed s) && isBrowser e); [|exact Hlisted].
  cbn [set_originRect _pane].
  destruct (_pane s) as [pane|]; [|exact Hlisted].
  cbn [_lastPosition _preferredPositions set_originRect set_overlayRect set_viewportRect].
  unfold lastPositionListed in Hlisted.
  destruct (_lastPosition s) as [position|] eqn:Hlast.
  - cbn [fst].
    match goal with
    | |- context [_applyPosition _ _ ?given e position ?originPoint] =>
        exact (_applyPosition_listed given e position originPoint Hlisted)
    end.
  - destruct (_preferredPositions s) as [|first others] eqn:Hpositions; cbn [head fst].
    + apply lastPositionListed_none. exact Hlast.
    + match goal with
      | |- context [_applyPosition _ _ ?given e first ?originPoint] =>
          apply (_applyPosition_listed given e first originPoint)
      end.
      cbn [_preferredPositions set_originRect set_overlayRect set_viewportRect].
      rewrite Hpositions. left. reflexivity.
Qed.

Lemma apply_listed (s : Strategy) (e : Env) :
  lastPositionListed s ->
  lastPositionListed (fst (apply objects parseFloat coerceCssPixelValue s e)).
Proof.
  intros Hlisted. unfold apply.
  destruct (_isDisposed s || negb (isBrowser e)); [exact Hlisted|].
  destruct (negb (_isInitialRender s) && _positionLocked s
            && bool_decide (is_Some (_lastPosition s))).
  { apply reapplyLastPosition_listed. exact Hlisted. }
  destruct (_pane s) as [pane|]; [|exact Hlisted].
  destruct (_boundingBox s) as [box|]; [|exact Hlisted].
  pose proof (positionsLoop_listed (beginApply s e pane) e (_preferredPositions s)
                (_preferredPositions s) [] None (fun p Hp => Hp)
                (fun f Hf => match Hf with end)
                (fun f Hf => match Hf in _ = o return
                               match o with Some _ => _ | None => True end with
                             | eq_refl => I end)) as Hloop.
  rewrite beginApply_preferredPositions. revert Hloop.
  destruct (positionsLoop objects parseFloat (beginApply s e pane) e _ [] None)
    as [position originPoint|[|fit fits] fallback]; intros Hloop.
  - cbn [fst].
    match goal with
    | |- context [_applyPosition _ _ ?given e position originPoint] =>
        exact (_applyPosition_listed given e position originPoint Hloop)
    end.
  - destruct Hloop as [_ Hfallback].
    destruct (_canPush (beginApply s e pane)); destruct fallback as [f|]; cbn [fst];
      try exact Hlisted;
      match goal with
      | |- context [_applyPosition _ _ ?given e (fb_position f) ?originPoint] =>
          exact (_applyPosition_listed given e (fb_position f) originPoint
                   (Hfallback f eq_refl))
      end.
  - destruct Hloop as [Hfits _].
    destruct (bestFitLoop objects (fit :: fits) None (-1)) as [best|] eqn:Hbest; cbn [fst].
    + destruct (bestFitLoop_listed _ _ _ _ Hbest) as [Hin|Hnone]; [|discriminate].
      match goal with
      | |- context [_applyPosition _ _ ?given e (ff_position best) ?originPoint] =>
          exact (_applyPosition_listed given e (ff_position best) originPoint
                   (Hfits best Hin))
      end.
    + exact Hlisted.
Qed.

Lemma attach_listed (s : Strategy) (e : Env) (overlayRef : OverlayReference) :
  lastPositionListed s ->
  lastPositionListed (fst (attach objects s e overlayRef)).
Proof.
  intros Hlisted. unfold attach.
  destruct (andThen _ (_validatePositions objects s e)); [exact Hlisted|exact I].
Qed.

Lemma existsb_eqb_In (p : PosRef) (positions : list PosRef) :
  existsb (Nat.eqb p) positions = true -> In p positions.
Proof.
  intros H. apply existsb_exists in H. destruct H as [q [Hq Heq]].
  apply Nat.eqb_eq in Heq. subst q. exact Hq.
Qed.

Lemma withPositions_listed (s : Strategy) (e : Env) (positions : list PosRef) :
  lastPositionListed (fst (withPositions objects s e positions)).
Proof.
  unfold withPositions.
  cbn [_lastPosition set_preferredPositions].
  destruct (_lastPosition s) as [p|] eqn:Hlast; cbn [notPartOf].
  - destruct (existsb (Nat.eqb p) positions) eqn:Hpart; cbn [negb];
      destruct (_validatePositions objects _ e); cbn [fst]; try exact I.
    + unfold lastPositionListed. cbn [_lastPosition _preferredPositions set_preferredPositions].
      rewrite Hlast. apply existsb_eqb_In. exact Hpart.
    + unfold lastPositionListed. cbn [_lastPosition _preferredPositions set_preferredPositions].
      rewrite Hlast. apply existsb_eqb_In. exact Hpart.
  - destruct (_validatePositions objects _ e); exact I.
Qed.

Lemma dispose_listed (s : Strategy) :
  lastPositionListed s -> lastPositionListed (dispose s).
Proof.
  intros Hlisted. unfold dispose. destruct (_isDisposed s); [exact Hlisted|exact I].
Qed.

(** Every call keeps the last position among the preferred positions. *)
Lemma run_listed (call : Call) (s : Strategy) (e : Env) :
  lastPositionListed s ->
  lastPositionListed (run objects parseFloat coerceCssPixelValue call s e).
Proof.
  intros Hlisted. destruct call; cbn [run]; try exact Hlisted.
  - apply attach_listed. exact Hlisted.
  - apply apply_listed. exact Hlisted.
  - exact I.
  - apply dispose_listed. exact Hlisted.
  - apply reapplyLastPosition_listed. exact Hlisted.
  - apply withPositions_listed.
  - unfold viewportChange. destruct (_resizeSubscription s); [|exact Hlisted].
    apply apply_listed. exact Hlisted.
Qed.

(** The locked shortcut of [apply] applies the last position again. *)
Lemma apply_locked_reuses_lastPosition (s : Strategy) (e : Env) (s' : Strategy) :
  lockedShortcut s = true ->
  _isDisposed s = false ->
  isBrowser e = true ->
  apply objects parseFloat coerceCssPixelValue s e = (s', Returned) ->
  exists position,
    _lastPosition s = Some position
    /\ _lastPosition s' = Some position
    /\ _preferredPositions s' = _preferredPositions s.
Proof.
  unfold lockedShortcut. intros Hlocked Hdisposed Hbrowser.
  unfold apply, reapplyLastPosition.
  rewrite Hdisposed, Hbrowser, Hlocked.
  cbn [negb orb andb set_originRect _pane].
  destruct (_pane s) as [pane|]; [|discriminate].
  cbn [_lastPosition _preferredPositions set_originRect set_overlayRect set_viewportRect].
  apply andb_prop in Hlocked. destruct Hlocked as [_ Hsome].
  apply bool_decide_eq_true in Hsome. destruct Hsome as [position Hlast].
  rewrite Hlast. intros [= <-]. exists position.
  match goal with
  | |- context [_applyPosition _ _ ?given e position ?originPoint] =>
      destruct (_applyPosition_fields objects coerceCssPixelValue given e position originPoint)
        as (size & amount & styles & Happlied)
  end.
  rewrite Happlied. repeat apply conj; reflexivity.
Qed.

(** C10: on every strategy a consumer can get to, the last position is
    [null] or one of the current preferred positions.  [withPositions] clears
    a last position that is not in the list it is given, [detach] resets it,
    and a call of [apply] that takes the locked shortcut reapplies a position
    that is still in the list. *)
Theorem lastPosition_is_null_or_listed (s : Strategy) :
  reachable objects parseFloat coerceCssPixelValue s ->
  lastPositionListed s
  /\ (forall e positions position,
        _lastPosition s = Some position ->
        ~ In position positions ->
        _lastPosition (fst (withPositions objects s e positions)) = None)
  /\ _lastPosition (detach s) = None
  /\ (forall e s',
        lockedShortcut s = true ->
        _isDisposed s = false ->
        isBrowser e = true ->
        apply objects parseFloat coerceCssPixelValue s e = (s', Returned) ->
        exists position,
          _lastPosition s = Some position
          /\ _lastPosition s' = Some position
          /\ In position (_preferredPositions s')).
Proof.
  intros Hreachable.
  assert (Hlisted : lastPositionListed s).
  { induction Hreachable as [connectedTo|s call e _ IH]; [exact I|].
    apply run_listed. exact IH. }
  repeat apply conj.
  - exact Hlisted.
  - intros e positions position Hlast Hnotin. unfold withPositions.
    cbn [_lastPosition set_preferredPositions]. rewrite Hlast. cbn [notPartOf].
    destruct (existsb (Nat.eqb position) positions) eqn:Hpart.
    + exfalso. apply Hnotin. apply existsb_eqb_In. exact Hpart.
    + cbn [negb]. destruct (_validatePositions objects _ e); reflexivity.
  - reflexivity.
  - intros e s' Hlocked Hdisposed Hbrowser Hrun.
    destruct (apply_locked_reuses_lastPosition s e s' Hlocked Hdisposed Hbrowser Hrun)
      as (position & Hlast & Hlast' & Hpositions).
    exists position. repeat apply conj; try assumption.
    rewrite Hpositions. unfold lastPositionListed in Hlisted.
    rewrite Hlast in Hlisted. exact Hlisted.
Qed.

End Lifecycle.

(** C10 on a strategy that was attached with two positions, placed its
    overlay at the second, and was then given a list without it. *)
Lemma lastPosition_is_null_or_listed_witness :
  let e := Fixture.browser (Fixture.rectAt 10 10 20 20) 30 30 0 in
  let run := run Fixture.objects Fixture.parseFloat Fixture.coerceCssPixelValue in
  let placed :=
    run Apply
      (run (Attach Fixture.overlayRef)
         (run (WithPositions [1; 0]%nat) (newStrategy (OriginElement Fixture.trigger)) e) e) e in
  let s := run (WithPositions [1; 3]%nat) placed e in
  _lastPosition placed = Some 0%nat
  /\ _lastPosition s = None
  /\ lastPositionListed s.
Proof.
  cbv zeta. repeat apply conj; [vm_compute; reflexivity|vm_compute; reflexivity|].
  refine (proj1 (lastPosition_is_null_or_listed Fixture.objects Fixture.parseFloat
                   Fixture.coerceCssPixelValue _ _)).
  do 4 apply reachable_run. apply reachable_new.
Defined.

(** ** Reapplying a position *)

(** Reads the fields of a strategy built by setters. *)
Ltac fields :=
  cbn [_overlayRef _isInitialRender _lastBoundingBoxSize _isPushed _canPush
       _growAfterOpen _hasFlexibleDimensions _positionLocked _originRect _overlayRect
       _viewportRect _viewportMargin _preferredPositions _origin _pane _boundingBox
       _isDisposed _lastPosition _resizeSubscription _offsetX _offsetY
       _previousPushAmount dom emitted
       set_overlayRef set_isInitialRender set_lastBoundingBoxSize set_isPushed
       set_canPush set_growAfterOpen set_hasFlexibleDimensions set_positionLocked
       set_originRect set_overlayRect set_viewportRect set_viewportMargin
       set_preferredPositions set_origin set_pane set_boundingBox set_isDisposed
       set_lastPosition set_resizeSubscription set_offsetX set_offsetY
       set_previousPushAmount set_dom set_emitted fst snd] in *.

Section Reapply.

Variable objects : PosRef -> ConnectedPosition.
Variable parseFloat : string -> JsNumber.
Variable coerceCssPixelValue : JsVal -> Css.

(** Once the styles of the pane have been computed, computing them again on
    a strategy with the same geometry and the push amount then recorded
    gives the same styles and records nothing new. *)
Lemma overlayElementStyles_again (s t : Strategy) (e : Env) (originPoint : Point)
    (position : ConnectedPosition) :
  geometry t = geometry s ->
  _previousPushAmount t
  = _previousPushAmount (fst (overlayElementStyles coerceCssPixelValue s e originPoint position)) ->
  overlayElementStyles coerceCssPixelValue t e originPoint position
  = (t, snd (overlayElementStyles coerceCssPixelValue s e originPoint position)).
Proof.
  unfold geometry. intros Hgeometry Hamount.
  destruct s as [? ? ? pushed ? ? flexible locked ? ? ? ? ? ? ? ? ? ? ? ? ? amount ? ?].
  destruct t as [? ? ? pushed' ? ? flexible' locked' ? ? ? ? ? ? ? ? ? ? ? ? ? amount' ? ?].
  fields. injection Hgeometry as -> -> -> -> -> -> -> -> ->.
  unfold overlayElementStyles, _getExactOverlayY, _getExactOverlayX, _pushOverlayOnScreen,
    _hasExactPosition in *.
  fields.
  destruct flexible, pushed, locked, amount as [previous|]; cbn in Hamount; subst amount';
    reflexivity.
Qed.

Lemma Qmin_self (a : Q) : Qmin a a = a.
Proof.
  unfold Qmin, GenericMinMax.gmin.
  destruct (a ?= a)%Q; reflexivity.
Qed.

Lemma Qmin_absorb (a b : Q) : Qmin a (Qmin a b) = Qmin a b.
Proof.
  unfold Qmin, GenericMinMax.gmin.
  destruct (a ?= b)%Q eqn:Hab; [| |rewrite Hab; reflexivity];
    destruct (a ?= a)%Q; reflexivity.
Qed.

Lemma Qltb_irrefl (a : Q) : Qltb a a = false.
Proof. apply Qltb_false. apply Qle_refl. Qed.

(** The test of the centered branch after the size was capped once. *)
Lemma center_again {A : Type} (calculated previous : Q) (shrunk : Q -> A) (full : A) :
  (if Qltb (Qmin calculated previous) calculated
   then shrunk (Qmin calculated previous) else full)
  = (if Qltb previous calculated then shrunk previous else full).
Proof.
  unfold Qmin, GenericMinMax.gmin.
  destruct (calculated ?= previous)%Q eqn:Hcompare.
  - rewrite Qltb_irrefl.
    apply Qeq_alt in Hcompare.
    destruct (Qltb previous calculated) eqn:Hlt; [|reflexivity].
    apply Qltb_true in Hlt. rewrite Hcompare in Hlt. exfalso. exact (Qlt_irrefl _ Hlt).
  - rewrite Qltb_irrefl.
    apply Qlt_alt in Hcompare.
    destruct (Qltb previous calculated) eqn:Hlt; [|reflexivity].
    apply Qltb_true in Hlt. lra.
  - reflexivity.
Qed.

(** Once the bounding box has been sized, sizing it again on a strategy with
    the same geometry that is past its initial render and has that size as
    its last size gives the same box. *)
Lemma boundingBoxRect_again (s t : Strategy) (e : Env) (origin : Point)
    (position : ConnectedPosition) :
  geometry t = geometry s ->
  _isInitialRender t = false ->
  _lastBoundingBoxSize t
  = sizeOf (cappedBoundingBoxRect s (_calculateBoundingBoxRect s e origin position)) ->
  cappedBoundingBoxRect t (_calculateBoundingBoxRect t e origin position)
  = cappedBoundingBoxRect s (_calculateBoundingBoxRect s e origin position).
Proof.
  unfold geometry, sizeOf. intros Hgeometry Hinitial Hsize.
  destruct s as [? initial previous ? ? grow ? ? ? ? ? ? ? ? ? ? ? ? ? ? ? ? ? ?].
  destruct t as [? initial' previous' ? ? grow' ? ? ? ? ? ? ? ? ? ? ? ? ? ? ? ? ? ?].
  fields. injection Hgeometry as -> -> -> -> -> -> -> -> ->. subst initial'.
  revert Hsize.
  unfold cappedBoundingBoxRect, _calculateBoundingBoxRect. fields.
  destruct (String.eqb (overlayY position) "top"), (String.eqb (overlayY position) "bottom"),
    (String.eqb (overlayX position) "start"), (String.eqb (overlayX position) "end"),
    (isRtl e), initial, grow;
    cbn [negb andb orb bb_width bb_height bb_top bb_left bb_bottom bb_right sz_width sz_height];
    intros ->; cbn [sz_width sz_height]; rewrite ?andb_true_r, ?andb_false_r;
    rewrite ?Qmin_absorb, ?Qmin_self, ?Qltb_irrefl; try reflexivity;
    repeat match goal with
           | |- context [if Qltb (Qmin ?c ?p) ?c then ?a - Qmin ?c ?p / 2 else ?b] =>
               let H := fresh in
               pose proof (center_again c p (fun q => a - q / 2) b) as H;
               cbv beta in H; rewrite H; clear H
           end;
    reflexivity.
Qed.

Lemma union_twice (a b m : gmap string Css) : a ∪ (b ∪ (a ∪ (b ∪ m))) = a ∪ (b ∪ m).
Proof.
  apply map_eq. intros k. rewrite !lookup_union.
  destruct (a !! k), (b !! k), (m !! k); reflexivity.
Qed.

Lemma union_again (a m : gmap string Css) : a ∪ (a ∪ m) = a ∪ m.
Proof.
  apply map_eq. intros k. rewrite !lookup_union.
  destruct (a !! k), (m !! k); reflexivity.
Qed.

(** Writing the same two style objects onto the same two elements a second
    time changes nothing in the document. *)
Lemma extendElementStyles_again (box pane : option Element)
    (boxStyles paneStyles : gmap string Css) (d : gmap Element (gmap string Css)) :
  extendElementStyles box boxStyles
    (extendElementStyles pane paneStyles
       (extendElementStyles box boxStyles (extendElementStyles pane paneStyles d)))
  = extendElementStyles box boxStyles (extendElementStyles pane paneStyles d).
Proof.
  destruct box as [b|], pane as [p|]; unfold extendElementStyles, styleOf, extendStyles.
  - apply map_eq. intros el. rewrite !lookup_insert.
    repeat case_decide; subst; try congruence; cbn [default]; unfold id;
      rewrite ?union_twice, ?union_again; reflexivity.
  - rewrite lookup_insert_eq. cbn [default]. unfold id.
    rewrite insert_insert_eq, union_again. reflexivity.
  - rewrite lookup_insert_eq. cbn [default]. unfold id.
    rewrite insert_insert_eq, union_again. reflexivity.
  - reflexivity.
Qed.

(** The state [_applyPosition] returns, in full. *)
Lemma _applyPosition_explicit (s : Strategy) (e : Env) (position : PosRef)
    (originPoint : Point) :
  _applyPosition objects coerceCssPixelValue s e position originPoint
  = mkStrategy (_overlayRef s) false (sizeOf (placedRect objects s e position originPoint))
      (_isPushed s) (_canPush s)
      (_growAfterOpen s) (_hasFlexibleDimensions s) (_positionLocked s) (_originRect s)
      (_overlayRect s) (_viewportRect s) (_viewportMargin s) (_preferredPositions s)
      (_origin s) (_pane s) (_boundingBox s) (_isDisposed s) (Some position)
      (_resizeSubscription s) (_offsetX s) (_offsetY s)
      (placedAmount objects coerceCssPixelValue s e position originPoint)
      (extendElementStyles (_boundingBox s)
         (boxStylesAt objects coerceCssPixelValue s e position originPoint)
         (extendElementStyles (_pane s)
            (paneStylesAt objects coerceCssPixelValue s e position originPoint) (dom s)))
      (afterApplying e position (emitted s)).
Proof.
  unfold placedAmount, paneStylesAt, boxStylesAt, placedRect, sizeOf, afterApplying.
  unfold _applyPosition, _setOverlayElementStyles.
  destruct (overlayElementStyles_frame coerceCssPixelValue s e originPoint (objects position))
    as [amount Hamount].
  destruct (overlayElementStyles _ s e originPoint (objects position)) as [s1 styles1].
  cbn [fst snd] in *. subst s1.
  unfold _setBoundingBoxStyles, cappedBoundingBoxRect, boundingBoxStyles,
    _calculateBoundingBoxRect, _hasExactPosition.
  cbn [_overlayRef _isInitialRender _lastBoundingBoxSize _isPushed _canPush
       _growAfterOpen _hasFlexibleDimensions _positionLocked _originRect _overlayRect
       _viewportRect _viewportMargin _preferredPositions _origin _pane _boundingBox
       _isDisposed _lastPosition _resizeSubscription _offsetX _offsetY
       _previousPushAmount dom emitted
       set_lastBoundingBoxSize set_previousPushAmount set_dom].
  destruct (0 <? observers e)%nat.
  - apply setters_in_applyPosition.
  - rewrite <- (set_emitted_same (set_lastPosition _ _)). apply setters_in_applyPosition.
Qed.

Lemma boundingBoxStyles_geometry (s t : Strategy) (e : Env) (rect : BoundingBoxRect)
    (position : ConnectedPosition) :
  geometry t = geometry s ->
  boundingBoxStyles coerceCssPixelValue t e rect position
  = boundingBoxStyles coerceCssPixelValue s e rect position.
Proof.
  unfold geometry. intros Hgeometry.
  injection Hgeometry as Hpushed Hflexible _ _ _ _ _ _ _.
  unfold boundingBoxStyles, _hasExactPosition. rewrite Hpushed, Hflexible. reflexivity.
Qed.

(** A placement computed a second time, on a strategy with the same geometry
    that holds what the first computation recorded, comes out the same. *)
Lemma placed_again (s t : Strategy) (e : Env) (position : PosRef) (originPoint : Point) :
  geometry t = geometry s ->
  _isInitialRender t = false ->
  _lastBoundingBoxSize t = sizeOf (placedRect objects s e position originPoint) ->
  _previousPushAmount t = placedAmount objects coerceCssPixelValue s e position originPoint ->
  placedAmount objects coerceCssPixelValue t e position originPoint
  = placedAmount objects coerceCssPixelValue s e position originPoint
  /\ paneStylesAt objects coerceCssPixelValue t e position originPoint
     = paneStylesAt objects coerceCssPixelValue s e position originPoint
  /\ placedRect objects t e position originPoint = placedRect objects s e position originPoint
  /\ boxStylesAt objects coerceCssPixelValue t e position originPoint
     = boxStylesAt objects coerceCssPixelValue s e position originPoint.
Proof.
  intros Hgeometry Hinitial Hsize Hamount.
  pose proof (overlayElementStyles_again s t e originPoint (objects position)
                Hgeometry Hamount) as Hpane.
  pose proof (boundingBoxRect_again s t e originPoint (objects position)
                Hgeometry Hinitial Hsize) as Hrect.
  unfold boxStylesAt, placedAmount, paneStylesAt, placedRect in *.
  rewrite Hpane, Hrect. cbn [fst snd]. repeat apply conj; try reflexivity.
  - exact Hamount.
  - apply boundingBoxStyles_geometry. exact Hgeometry.
Qed.

(** Applying the position just applied once more, in the same surroundings,
    changes nothing but the list of events sent. *)
Lemma _applyPosition_again (s : Strategy) (e : Env) (position : PosRef)
    (originPoint : Point) (t : Strategy) :
  t = _applyPosition objects coerceCssPixelValue s e position originPoint ->
  _applyPosition objects coerceCssPixelValue t e position originPoint
  = set_emitted (afterApplying e position (emitted t)) t.
Proof.
  rewrite (_applyPosition_explicit s e position originPoint). intros Ht.
  rewrite (_applyPosition_explicit t e position originPoint).
  destruct (placed_again s t e position originPoint) as (Hamount & Hpane & Hrect & Hbox);
    try (rewrite Ht; reflexivity).
  rewrite Hamount, Hpane, Hrect, Hbox. clear Hamount Hpane Hrect Hbox. subst t.
  cbn [_overlayRef _isPushed _canPush
       _growAfterOpen _hasFlexibleDimensions _positionLocked _originRect _overlayRect
       _viewportRect _viewportMargin _preferredPositions _origin _pane _boundingBox
       _isDisposed _resizeSubscription _offsetX _offsetY dom emitted set_emitted
       _isInitialRender _lastBoundingBoxSize _lastPosition _previousPushAmount].
  rewrite extendElementStyles_again. reflexivity.
Qed.

(** What [apply] does when it takes the locked shortcut. *)
Lemma apply_locked (s : Strategy) (e : Env) (position : PosRef) :
  lockedShortcut s = true ->
  _isDisposed s = false ->
  isBrowser e = true ->
  _lastPosition s = Some position ->
  apply objects parseFloat coerceCssPixelValue s e
  = match _pane s with
    | Some pane =>
        (_applyPosition objects coerceCssPixelValue (remeasure s e pane) e position
           (_getOriginPoint (isRtl e) (_getOriginRect s e) (objects position)),
         Returned)
    | None => (set_originRect (_getOriginRect s e) s, TypeError)
    end.
Proof.
  unfold lockedShortcut. intros Hlocked Hdisposed Hbrowser Hlast.
  unfold apply, reapplyLastPosition. rewrite Hdisposed, Hbrowser, Hlocked.
  cbn [negb orb andb set_originRect _pane].
  destruct (_pane s) as [pane|]; [|reflexivity].
  cbn [_lastPosition _preferredPositions _originRect
       set_originRect set_overlayRect set_viewportRect].
  rewrite Hlast. reflexivity.
Qed.

(** After a locked placement the rectangles are already the ones a second
    measurement in the same surroundings gives. *)
Lemma remeasure_again (s : Strategy) (e : Env) (pane : Element) (position : PosRef)
    (originPoint : Point) (t : Strategy) :
  t = _applyPosition objects coerceCssPixelValue (remeasure s e pane) e position originPoint ->
  remeasure t e pane = t /\ _getOriginRect t e = _getOriginRect s e.
Proof.
  rewrite _applyPosition_explicit. intros ->.
  unfold remeasure, _getOriginRect, _getNarrowedViewportRect.
  cbn [_overlayRef _isInitialRender _lastBoundingBoxSize _isPushed _canPush
       _growAfterOpen _hasFlexibleDimensions _positionLocked _originRect _overlayRect
       _viewportRect _viewportMargin _preferredPositions _origin _pane _boundingBox
       _isDisposed _lastPosition _resizeSubscription _offsetX _offsetY
       _previousPushAmount dom emitted set_originRect set_overlayRect set_viewportRect].
  split; reflexivity.
Qed.

(** C4, amended: two calls of [apply] in succession that both take the
    locked shortcut (position locked, a last position, no viewport resize in
    between), made in the same surroundings (the same origin, overlay and
    viewport measurements), reuse the same position and leave the same
    styles on every element, the same bounding-box size and the same push
    amount.  The locked call measures the origin afresh: nothing is promised
    when the origin rectangle changed between the calls. *)
Theorem locked_apply_twice_same_box (s : Strategy) (e : Env) (s1 : Strategy) :
  lockedShortcut s = true ->
  _isDisposed s = false ->
  isBrowser e = true ->
  apply objects parseFloat coerceCssPixelValue s e = (s1, Returned) ->
  exists position s2,
    _lastPosition s = Some position
    /\ _lastPosition s1 = Some position
    /\ lockedShortcut s1 = true
    /\ apply objects parseFloat coerceCssPixelValue s1 e = (s2, Returned)
    /\ _lastPosition s2 = Some position
    /\ dom s2 = dom s1
    /\ _lastBoundingBoxSize s2 = _lastBoundingBoxSize s1
    /\ _previousPushAmount s2 = _previousPushAmount s1.
Proof.
  intros Hlocked Hdisposed Hbrowser Hrun.
  assert (Hsome : exists position, _lastPosition s = Some position).
  { unfold lockedShortcut in Hlocked. apply andb_prop in Hlocked.
    destruct Hlocked as [_ Hsome]. apply bool_decide_eq_true in Hsome. exact Hsome. }
  destruct Hsome as [position Hlast].
  rewrite (apply_locked s e position Hlocked Hdisposed Hbrowser Hlast) in Hrun.
  destruct (_pane s) as [pane|] eqn:Hpane; [|discriminate].
  injection Hrun as Hs1. symmetry in Hs1.
  destruct (remeasure_again s e pane position _ s1 Hs1) as [Hmeasure Horigin].
  pose proof (_applyPosition_again (remeasure s e pane) e position _ s1 Hs1) as Hagain.
  assert (Hfields :
    _lastPosition s1 = Some position /\ _isInitialRender s1 = false
    /\ _positionLocked s1 = _positionLocked s /\ _isDisposed s1 = _isDisposed s
    /\ _pane s1 = _pane s).
  { rewrite Hs1, _applyPosition_explicit. repeat apply conj; reflexivity. }
  destruct Hfields as (Hlast1 & Hinitial1 & Hlocked1 & Hdisposed1 & Hpane1).
  assert (Hshortcut1 : lockedShortcut s1 = true).
  { unfold lockedShortcut in *. rewrite Hinitial1, Hlocked1, Hlast1.
    apply andb_prop in Hlocked. destruct Hlocked as [Hlocked _].
    apply andb_prop in Hlocked. destruct Hlocked as [_ Hlocked]. rewrite Hlocked.
    cbn [negb andb]. apply bool_decide_eq_true. eexists. reflexivity. }
  exists position, (set_emitted (afterApplying e position (emitted s1)) s1).
  repeat apply conj; try assumption; try reflexivity.
  rewrite (apply_locked s1 e position Hshortcut1) by congruence.
  rewrite Hpane1, Hpane, Hmeasure, Horigin, Hagain. reflexivity.
Qed.

End Reapply.

(** C4, as stated, fails: after a first placement below the trigger, two
    calls of [apply] take the locked shortcut; the trigger has moved [30]
    pixels to the right between them, and the bounding box moves with it. *)
Lemma locked_apply_follows_the_origin :
  let run := apply Fixture.objects Fixture.parseFloat Fixture.coerceCssPixelValue in
  let here := Fixture.browser (Fixture.rectAt 10 10 20 20) 30 30 0 in
  let there := Fixture.browser (Fixture.rectAt 40 10 20 20) 30 30 0 in
  let placed := fst (run (withLockedPosition (Fixture.attached [0%nat]) true) here) in
  let first := fst (run placed here) in
  let second := fst (run first there) in
  lockedShortcut placed = true
  /\ lockedShortcut first = true
  /\ _lastPosition first = Some 0%nat
  /\ _lastPosition second = Some 0%nat
  /\ styleOf (dom first) Fixture.host !! "left" = Some (CssPx 10)
  /\ styleOf (dom second) Fixture.host !! "left" = Some (CssPx 40).
Proof. cbv zeta. repeat apply conj; vm_compute; reflexivity. Qed.

(** C4 on that overlay, with the trigger where it was. *)
Lemma locked_apply_twice_same_box_witness :
  let run := apply Fixture.objects Fixture.parseFloat Fixture.coerceCssPixelValue in
  let here := Fixture.browser (Fixture.rectAt 10 10 20 20) 30 30 0 in
  let placed := fst (run (withLockedPosition (Fixture.attached [0%nat]) true) here) in
  let first := fst (run placed here) in
  exists position second,
    _lastPosition placed = Some position
    /\ _lastPosition first = Some position
    /\ lockedShortcut first = true
    /\ run first here = (second, Returned)
    /\ _lastPosition second = Some position
    /\ dom second = dom first
    /\ _lastBoundingBoxSize second = _lastBoundingBoxSize first
    /\ _previousPushAmount second = _previousPushAmount first.
Proof.
  cbv zeta.
  apply (locked_apply_twice_same_box Fixture.objects Fixture.parseFloat
           Fixture.coerceCssPixelValue); vm_compute; reflexivity.
Defined.

(** * The rest of the strategy *)

(** ** Pixel values *)

Lemma splitCssUnits_units (units : string) :
  allUnits units = true -> splitCssUnits units = (EmptyString, units).
Proof.
  induction units as [|c rest IH]; [reflexivity|].
  cbn [allUnits]. intros H. apply andb_prop in H. destruct H as [Hc Hrest].
  cbn [splitCssUnits]. rewrite (IH Hrest). rewrite Hc. reflexivity.
Qed.

(** Splitting a value followed by units gives them back. *)
Lemma splitCssUnits_round_trip (value units : string) :
  allUnits units = true ->
  endsWithUnit value = false ->
  splitCssUnits (value ++ units) = (value, units).
Proof.
  intros Hunits. induction value as [|c rest IH].
  - intros _. apply splitCssUnits_units. exact Hunits.
  - destruct rest as [|d rest'].
    + cbn [endsWithUnit]. intros Hc.
      change (String c "" ++ units) with (String c units).
      cbn [splitCssUnits]. rewrite (splitCssUnits_units units Hunits). rewrite Hc. reflexivity.
    + intros Hends.
      change (endsWithUnit (String c (String d rest')))
        with (endsWithUnit (String d rest')) in Hends.
      change (String c (String d rest') ++ units) with (String c (String d rest' ++ units)).
      cbn [splitCssUnits]. fold splitCssUnits.
      change (splitCssUnits (String d (rest' ++ units)))
        with (splitCssUnits (String d rest' ++ units)).
      rewrite (IH Hends). reflexivity.
Qed.

Lemma append_empty (value : string) : value ++ "" = value.
Proof.
  induction value as [|c rest IH]; [reflexivity|].
  change (String c (rest ++ "") = String c rest). f_equal. exact IH.
Qed.

(** X1: splitting a string on [cssUnitPattern] loses nothing: the two parts
    put together are the string again; the second part consists of unit
    characters only (letters and [%]), and the first part does not end in
    one, so that the second part is the whole trailing run of unit
    characters. *)
Theorem splitCssUnits_splits_off_the_trailing_units (input : string) :
  fst (splitCssUnits input) ++ snd (splitCssUnits input) = input
  /\ allUnits (snd (splitCssUnits input)) = true
  /\ endsWithUnit (fst (splitCssUnits input)) = false.
Proof.
  induction input as [|c rest IH]; [repeat split|].
  cbn [splitCssUnits]. destruct (splitCssUnits rest) as [value units].
  cbn [fst snd] in IH. destruct IH as [Hcat [Hunits Hends]].
  destruct value as [|d value'].
  - destruct (isUnitChar c) eqn:Hc; cbn [fst snd].
    + cbn in Hcat. subst rest. repeat split. cbn [allUnits]. rewrite Hc, Hunits. reflexivity.
    + cbn in Hcat. subst rest. repeat split; [exact Hunits|]. cbn [endsWithUnit]. exact Hc.
  - cbn [fst snd]. subst rest. repeat split; [exact Hunits|]. exact Hends.
Qed.

Section Pixels.

Variable parseFloat : string -> JsNumber.

(** X2: of a string made of a value and a trailing run of unit characters,
    [getPixelValue] reads the value with [parseFloat] when there are no
    units or the units are [px], and gives [null] for any other unit; of a
    number it gives the number, except that [0] gives [null]; of a missing
    value it gives [null]. *)
Theorem getPixelValue_reads_pixels_only (value units : string) (q : Q) :
  allUnits units = true ->
  endsWithUnit value = false ->
  getPixelValue parseFloat (JStr (value ++ units))
  = (if String.eqb units "" || String.eqb units "px" then Some (parseFloat value) else None)
  /\ getPixelValue parseFloat (JStr (value ++ "px")) = Some (parseFloat value)
  /\ getPixelValue parseFloat (JStr value) = Some (parseFloat value)
  /\ getPixelValue parseFloat (JNum q) = (if Qeq_bool q 0 then None else Some (Num q))
  /\ getPixelValue parseFloat JUndefined = None.
Proof.
  intros Hunits Hvalue. repeat apply conj.
  - unfold getPixelValue. rewrite (splitCssUnits_round_trip value units Hunits Hvalue).
    reflexivity.
  - unfold getPixelValue. rewrite (splitCssUnits_round_trip value "px" eq_refl Hvalue).
    reflexivity.
  - unfold getPixelValue. rewrite <- (append_empty value) at 1.
    rewrite (splitCssUnits_round_trip value "" eq_refl Hvalue). reflexivity.
  - unfold getPixelValue, truthy. destruct (Qeq_bool q 0); reflexivity.
  - reflexivity.
Qed.

Lemma getPixelValue_noPixels (input : JsVal) :
  noPixels input -> getPixelValue parseFloat input = None.
Proof.
  intros [|q Hzero|value units Hunits Hvalue Hsome Hother].
  - reflexivity.
  - unfold getPixelValue, truthy. apply Qeq_bool_iff in Hzero. rewrite Hzero. reflexivity.
  - unfold getPixelValue. rewrite (splitCssUnits_round_trip value units Hunits Hvalue).
    apply String.eqb_neq in Hsome. apply String.eqb_neq in Hother.
    rewrite Hsome, Hother. reflexivity.
Qed.

(** X3: a position counts as fitting with flexible dimensions only when
    flexible dimensions are on and, on each axis, the overlay fits as it is
    or the overlay config gives a minimum in pixels that is at most the space
    from the overlay point to the far edge of the viewport.  A minimum that
    is missing, [0] or in another unit than [px] is no minimum: the overlay
    then has to fit on that axis as it is. *)
Theorem canFitWithFlexibleDimensions_needs_a_minimum_in_pixels (s : Strategy) (e : Env)
    (fit : OverlayFit) (point : Point) (viewport : ClientRect) :
  _canFitWithFlexibleDimensions parseFloat s e fit point viewport = true ->
  _hasFlexibleDimensions s = true
  /\ (noPixels (minWidth (getConfig e)) -> fitsInViewportHorizontally fit = true)
  /\ (noPixels (minHeight (getConfig e)) -> fitsInViewportVertically fit = true)
  /\ (fitsInViewportHorizontally fit = false ->
      exists minimum,
        getPixelValue parseFloat (minWidth (getConfig e)) = Some (Num minimum)
        /\ minimum <= right viewport - x point)
  /\ (fitsInViewportVertically fit = false ->
      exists minimum,
        getPixelValue parseFloat (minHeight (getConfig e)) = Some (Num minimum)
        /\ minimum <= bottom viewport - y point).
Proof.
  unfold _canFitWithFlexibleDimensions. intros Hfits.
  destruct (_hasFlexibleDimensions s); [|discriminate].
  apply andb_prop in Hfits. destruct Hfits as [Hvertical Hhorizontal].
  apply orb_prop in Hvertical. apply orb_prop in Hhorizontal.
  assert (Hmeets : forall minimum available,
             meetsMinimum minimum available = true ->
             exists m, minimum = Some (Num m) /\ m <= available).
  { intros [[|m]|] available H; try discriminate. exists m. split; [reflexivity|].
    apply Qle_bool_iff. exact H. }
  repeat apply conj.
  - reflexivity.
  - intros Hnone. destruct Hhorizontal as [H|H]; [exact H|].
    rewrite (getPixelValue_noPixels _ Hnone) in H. discriminate.
  - intros Hnone. destruct Hvertical as [H|H]; [exact H|].
    rewrite (getPixelValue_noPixels _ Hnone) in H. discriminate.
  - intros Hno. destruct Hhorizontal as [H|H]; [congruence|]. apply Hmeets. exact H.
  - intros Hno. destruct Hvertical as [H|H]; [congruence|]. apply Hmeets. exact H.
Qed.

End Pixels.

Lemma getPixelValue_reads_pixels_only_witness :
  getPixelValue Fixture.parseFloat (JStr ("12.5" ++ "em"))
  = (if String.eqb "em" "" || String.eqb "em" "px"
     then Some (Fixture.parseFloat "12.5") else None)
  /\ getPixelValue Fixture.parseFloat (JStr ("12.5" ++ "px")) = Some (Fixture.parseFloat "12.5")
  /\ getPixelValue Fixture.parseFloat (JStr "12.5") = Some (Fixture.parseFloat "12.5")
  /\ getPixelValue Fixture.parseFloat (JNum 0) = (if Qeq_bool 0 0 then None else Some (Num 0))
  /\ getPixelValue Fixture.parseFloat JUndefined = None.
Proof.
  exact (getPixelValue_reads_pixels_only Fixture.parseFloat "12.5" "em" 0 eq_refl eq_refl).
Defined.

Lemma canFitWithFlexibleDimensions_needs_a_minimum_in_pixels_witness :
  let s := set_viewportRect (Fixture.rectAt 0 0 100 100) (Fixture.attached [0%nat]) in
  let e := Fixture.withMinimums JUndefined (JNum 10)
             (Fixture.browser (Fixture.rectAt 10 30 20 20) 30 80 0) in
  let point := mkPoint 10 50 in
  let fit := _getOverlayFit 0 0 point (Fixture.rectAt 0 0 30 80) (_viewportRect s)
               Fixture.belowStart in
  _hasFlexibleDimensions s = true
  /\ (noPixels (minWidth (getConfig e)) -> fitsInViewportHorizontally fit = true)
  /\ (noPixels (minHeight (getConfig e)) -> fitsInViewportVertically fit = true)
  /\ (fitsInViewportHorizontally fit = false ->
      exists minimum,
        getPixelValue Fixture.parseFloat (minWidth (getConfig e)) = Some (Num minimum)
        /\ minimum <= right (_viewportRect s) - x point)
  /\ (fitsInViewportVertically fit = false ->
      exists minimum,
        getPixelValue Fixture.parseFloat (minHeight (getConfig e)) = Some (Num minimum)
        /\ minimum <= bottom (_viewportRect s) - y point).
Proof.
  cbv zeta.
  refine (canFitWithFlexibleDimensions_needs_a_minimum_in_pixels Fixture.parseFloat
            (set_viewportRect (Fixture.rectAt 0 0 100 100) (Fixture.attached [0%nat]))
            (Fixture.withMinimums JUndefined (JNum 10)
               (Fixture.browser (Fixture.rectAt 10 30 20 20) 30 80 0))
            _ (mkPoint 10 50) _ _).
  vm_compute. reflexivity.
Defined.

(** ** Rectangles and points *)

Lemma half (a : Q) : a / 2 == a * (1 # 2).
Proof. field. Qed.

Lemma Math_floor_again (q : Q) : Math_floor (Math_floor q) = Math_floor q.
Proof. unfold Math_floor. rewrite Qfloor_Z. reflexivity. Qed.

Lemma Math_floor_within_a_pixel (q : Q) : Math_floor q <= q /\ q < Math_floor q + 1.
Proof.
  unfold Math_floor. split; [apply Qfloor_le|].
  assert (H := Qlt_floor q). rewrite inject_Z_plus in H. exact H.
Qed.

(** X4: [getRoundedBoundingClientRect] rounds each of the six numbers of a
    rectangle down to a whole number, by less than one pixel; rounding a
    rounded rectangle changes nothing. *)
Theorem getRoundedBoundingClientRect_rounds_down (clientRect : ClientRect) :
  let rounded := getRoundedBoundingClientRect clientRect in
  getRoundedBoundingClientRect rounded = rounded
  /\ Forall2 (fun whole raw => whole <= raw /\ raw < whole + 1 /\ Math_floor whole = whole)
       (fieldsOf rounded) (fieldsOf clientRect).
Proof.
  cbv zeta. split.
  - unfold getRoundedBoundingClientRect. cbn [top right bottom left width height].
    rewrite !Math_floor_again. reflexivity.
  - unfold fieldsOf, getRoundedBoundingClientRect. cbn [top right bottom left width height].
    repeat constructor; try apply Math_floor_within_a_pixel; apply Math_floor_again.
Qed.

(** X5: the narrowed viewport rectangle is well formed: its width and height
    are the distances between its edges.  It is the rectangle of the whole
    document viewport (margin [0], whose size is the client size of the
    document) with every edge moved inwards by the viewport margin, so that
    its left and top edges lie one margin from the scroll position. *)
Theorem getNarrowedViewportRect_is_the_viewport_less_the_margin (s : Strategy) (e : Env) :
  let viewport := _getNarrowedViewportRect s e in
  let whole := _getNarrowedViewportRect (withViewportMargin s 0) e in
  let margin := _viewportMargin s in
  right viewport - left viewport == width viewport
  /\ bottom viewport - top viewport == height viewport
  /\ left viewport - scroll_left (getViewportScrollPosition e) == margin
  /\ top viewport - scroll_top (getViewportScrollPosition e) == margin
  /\ left viewport == left whole + margin
  /\ top viewport == top whole + margin
  /\ right viewport == right whole - margin
  /\ bottom viewport == bottom whole - margin
  /\ width whole == clientWidth e
  /\ height whole == clientHeight e.
Proof.
  cbv zeta. unfold _getNarrowedViewportRect, withViewportMargin.
  cbn [top right bottom left width height _viewportMargin set_viewportMargin].
  repeat apply conj; lra.
Qed.

(** X6: the rectangle of a point origin starts at the point and is well
    formed; its width (height) is the one given with the point, or [0] when
    none or [0] is given.  For a bare point every position, in either
    direction, connects at the point itself. *)
Theorem getOriginRect_of_a_point (s : Strategy) (e : Env) (px py : Q)
    (pwidth pheight : option Q) (rtl : bool) (pos : ConnectedPosition) :
  let rect := _getOriginRect (setOrigin s (OriginPoint px py pwidth pheight)) e in
  let bare := _getOriginRect (setOrigin s (OriginPoint px py None None)) e in
  left rect = px /\ top rect = py
  /\ right rect == px + width rect /\ bottom rect == py + height rect
  /\ (forall given, pwidth = Some given -> ~ given == 0 -> width rect = given)
  /\ (forall given, pwidth = Some given -> given == 0 -> width rect = 0)
  /\ (pwidth = None -> width rect = 0)
  /\ (forall given, pheight = Some given -> ~ given == 0 -> height rect = given)
  /\ (forall given, pheight = Some given -> given == 0 -> height rect = 0)
  /\ (pheight = None -> height rect = 0)
  /\ x (_getOriginPoint rtl bare pos) == px
  /\ y (_getOriginPoint rtl bare pos) == py.
Proof.
  cbv zeta. unfold _getOriginRect, setOrigin. cbn [_origin set_origin].
  cbn [top right bottom left width height].
  assert (Hgiven : forall (v : option Q) given, v = Some given -> ~ given == 0 ->
                                                orZero v = given).
  { intros v given -> Hnonzero. cbn [orZero]. unfold truthy.
    destruct (Qeq_bool given 0) eqn:Hzero; [|reflexivity].
    apply Qeq_bool_iff in Hzero. contradiction. }
  assert (Hzero : forall (v : option Q) given, v = Some given -> given == 0 -> orZero v = 0).
  { intros v given -> Hzero. cbn [orZero]. unfold truthy.
    apply Qeq_bool_iff in Hzero. rewrite Hzero. reflexivity. }
  repeat apply conj; try reflexivity; try apply Hgiven; try apply Hzero;
    try (intros ->; reflexivity).
  - unfold _getOriginPoint. cbn [x top right bottom left width height orZero].
    destruct (String.eqb (originX pos) "center"), rtl, (String.eqb (originX pos) "start");
      rewrite ?half; lra.
  - unfold _getOriginPoint. cbn [y top right bottom left width height orZero].
    destruct (String.eqb (originY pos) "center"), (String.eqb (originY pos) "top");
      rewrite ?half; lra.
Qed.

(** X7: the origin point of a position lies within the origin rectangle,
    edges included, whatever the position and the direction, when the
    rectangle is well formed. *)
Theorem getOriginPoint_within_the_origin (rtl : bool) (originRect : ClientRect)
    (pos : ConnectedPosition) :
  wellFormed originRect ->
  let point := _getOriginPoint rtl originRect pos in
  left originRect <= x point <= right originRect
  /\ top originRect <= y point <= bottom originRect.
Proof.
  intros [Hx [Hy [Hw Hh]]]. cbv zeta. unfold _getOriginPoint. cbn [x y].
  destruct (String.eqb (originX pos) "center"), rtl, (String.eqb (originX pos) "start"),
    (String.eqb (originY pos) "center"), (String.eqb (originY pos) "top");
    rewrite ?half; repeat split; lra.
Qed.

Lemma wellFormed_origin : wellFormed (Fixture.rectAt 10 10 20 20).
Proof. unfold wellFormed. vm_compute. repeat split; discriminate. Defined.

Lemma getOriginPoint_within_the_origin_witness :
  let originRect := Fixture.rectAt 10 10 20 20 in
  let point := _getOriginPoint true originRect Fixture.belowStart in
  left originRect <= x point <= right originRect
  /\ top originRect <= y point <= bottom originRect.
Proof.
  exact (getOriginPoint_within_the_origin true (Fixture.rectAt 10 10 20 20)
           Fixture.belowStart wellFormed_origin).
Defined.

(** X8: the overlay placed with its top-left corner at the overlay point
    touches the origin point: the origin point lies within the overlay's
    width from the overlay point on the x axis and within its height on the
    y axis, whatever the position and the direction, for an overlay
    rectangle of non-negative size. *)
Theorem getOverlayPoint_connects_the_overlay (rtl : bool) (originPoint : Point)
    (overlayRect : ClientRect) (pos : ConnectedPosition) :
  0 <= width overlayRect ->
  0 <= height overlayRect ->
  let point := _getOverlayPoint rtl originPoint overlayRect pos in
  x point <= x originPoint <= x point + width overlayRect
  /\ y point <= y originPoint <= y point + height overlayRect.
Proof.
  intros Hw Hh. cbv zeta. unfold _getOverlayPoint. cbn [x y].
  destruct (String.eqb (overlayX pos) "center"), rtl, (String.eqb (overlayX pos) "start"),
    (String.eqb (overlayY pos) "center"), (String.eqb (overlayY pos) "top");
    rewrite ?half; repeat split; lra.
Qed.

Lemma getOverlayPoint_connects_the_overlay_witness :
  let overlayRect := Fixture.rectAt 0 0 30 30 in
  let originPoint := mkPoint 10 30 in
  let point := _getOverlayPoint false originPoint overlayRect Fixture.aboveStart in
  x point <= x originPoint <= x point + width overlayRect
  /\ y point <= y originPoint <= y point + height overlayRect.
Proof.
  refine (getOverlayPoint_connects_the_overlay false (mkPoint 10 30)
            (Fixture.rectAt 0 0 30 30) Fixture.aboveStart _ _);
    vm_compute; discriminate.
Defined.

(** ** Pushing the overlay on screen *)

(** A push that is computed afresh, of an overlay no larger than the
    viewport: along each axis the amount is the overflow at the near edge or,
    when there is none, minus the overflow at the far edge. *)
Lemma _pushOverlayOnScreen_afresh (s : Strategy) (start : Point)
    (rawOverlayRect : ClientRect) (scrollPosition : ViewportScrollPosition) :
  let overlay := getRoundedBoundingClientRect rawOverlayRect in
  let viewport := _viewportRect s in
  let overflowLeft := left viewport - scroll_left scrollPosition - x start in
  let overflowRight := x start + width overlay - width viewport in
  let overflowTop := top viewport - scroll_top scrollPosition - y start in
  let overflowBottom := y start + height overlay - height viewport in
  _positionLocked s = false \/ _previousPushAmount s = None ->
  width overlay <= width viewport ->
  height overlay <= height viewport ->
  exists pushX pushY,
    _pushOverlayOnScreen s start rawOverlayRect scrollPosition
    = (set_previousPushAmount (Some {| x := pushX; y := pushY |}) s,
       {| x := x start + pushX; y := y start + pushY |})
    /\ ((0 < overflowLeft /\ pushX == overflowLeft)
        \/ (overflowLeft <= 0 /\ 0 < overflowRight /\ pushX == - overflowRight)
        \/ (overflowLeft <= 0 /\ overflowRight <= 0 /\ pushX == 0))
    /\ ((0 < overflowTop /\ pushY == overflowTop)
        \/ (overflowTop <= 0 /\ 0 < overflowBottom /\ pushY == - overflowBottom)
        \/ (overflowTop <= 0 /\ overflowBottom <= 0 /\ pushY == 0)).
Proof.
  cbv zeta. intros Hfresh Hw Hh.
  apply Qle_bool_iff in Hw. apply Qle_bool_iff in Hh.
  eexists. eexists. split; [|split; apply push_amount].
  unfold _pushOverlayOnScreen. rewrite Hw, Hh.
  destruct Hfresh as [Hunlocked|Hnone].
  - rewrite Hunlocked. destruct (_previousPushAmount s); reflexivity.
  - rewrite Hnone. reflexivity.
Qed.

(** X9: a push computed afresh (the position is not locked, or no push
    amount is recorded) puts an overlay that has room in the viewport wholly
    on screen.  With [leftEdge] and [topEdge] the viewport's left and top
    edges less the scroll position, both non-negative, and the rounded
    overlay fitting between them and the viewport's width and height, the
    pushed overlay lies between [leftEdge] and the viewport's width and
    between [topEdge] and its height; [_getOverlayFit] finds it completely
    within the viewport at a position without offsets. *)
Theorem pushOverlayOnScreen_brings_the_overlay_on_screen (s : Strategy) (start : Point)
    (rawOverlayRect : ClientRect) (scrollPosition : ViewportScrollPosition) :
  let overlay := getRoundedBoundingClientRect rawOverlayRect in
  let viewport := _viewportRect s in
  let leftEdge := left viewport - scroll_left scrollPosition in
  let topEdge := top viewport - scroll_top scrollPosition in
  let pushed := snd (_pushOverlayOnScreen s start rawOverlayRect scrollPosition) in
  _positionLocked s = false \/ _previousPushAmount s = None ->
  0 <= leftEdge ->
  leftEdge + width overlay <= width viewport ->
  0 <= topEdge ->
  topEdge + height overlay <= height viewport ->
  leftEdge <= x pushed /\ x pushed + width overlay <= width viewport
  /\ topEdge <= y pushed /\ y pushed + height overlay <= height viewport
  /\ (forall position,
        offsetX position = None -> offsetY position = None ->
        isCompletelyWithinViewport
          (_getOverlayFit 0 0 pushed rawOverlayRect viewport position) = true).
Proof.
  cbv zeta. intros Hfresh HL Hw HT Hh.
  destruct (_pushOverlayOnScreen_afresh s start rawOverlayRect scrollPosition Hfresh)
    as [pushX [pushY [-> [Hx Hy]]]]; [lra|lra|].
  cbn [snd x y].
  assert (Hbounds :
    (left (_viewportRect s) - scroll_left scrollPosition <= x start + pushX
     /\ x start + pushX + width (getRoundedBoundingClientRect rawOverlayRect)
        <= width (_viewportRect s))
    /\ (top (_viewportRect s) - scroll_top scrollPosition <= y start + pushY
        /\ y start + pushY + height (getRoundedBoundingClientRect rawOverlayRect)
           <= height (_viewportRect s))).
  { split.
    - destruct Hx as [[? ?]|[[? [? ?]]|[? [? ?]]]]; split; lra.
    - destruct Hy as [[? ?]|[[? [? ?]]|[? [? ?]]]]; split; lra. }
  destruct Hbounds as [[Hx1 Hx2] [Hy1 Hy2]].
  repeat apply conj; try assumption.
  intros position HoffX HoffY.
  unfold _getOverlayFit, visibleWidth, visibleHeight. cbn [isCompletelyWithinViewport x y].
  rewrite HoffX, HoffY. cbn [_getOffset]. unfold plusOffset.
  change (truthy 0) with false. cbv iota.
  apply Qeq_bool_iff.
  assert (Hvisible : forall length a b,
             a <= 0 -> b <= 0 -> _subtractOverflows length [a; b] == length).
  { intros length a b Ha Hb. apply _subtractOverflows_full. split; assumption. }
  rewrite !Hvisible by lra. reflexivity.
Qed.

Lemma pushOverlayOnScreen_brings_the_overlay_on_screen_witness :
  let s := set_viewportRect (Fixture.rectAt 0 0 100 100) (Fixture.attached [0%nat]) in
  let overlayRect := Fixture.rectAt 0 0 30 30 in
  let pushed := snd (_pushOverlayOnScreen s (mkPoint 90 (-20)) overlayRect (mkScroll 0 0)) in
  0 - 0 <= x pushed /\ x pushed + Math_floor 30 <= 100
  /\ 0 - 0 <= y pushed /\ y pushed + Math_floor 30 <= 100
  /\ (forall position,
        offsetX position = None -> offsetY position = None ->
        isCompletelyWithinViewport
          (_getOverlayFit 0 0 pushed overlayRect (Fixture.rectAt 0 0 100 100) position) = true).
Proof.
  cbv zeta.
  refine (pushOverlayOnScreen_brings_the_overlay_on_screen
            (set_viewportRect (Fixture.rectAt 0 0 100 100) (Fixture.attached [0%nat]))
            (mkPoint 90 (-20)) (Fixture.rectAt 0 0 30 30) (mkScroll 0 0) _ _ _ _ _).
  - left. reflexivity.
  - vm_compute. discriminate.
  - vm_compute. discriminate.
  - vm_compute. discriminate.
  - vm_compute. discriminate.
Defined.

(** X10: a push computed afresh does not move an overlay that is on screen
    already, between [leftEdge] and the viewport's width and between
    [topEdge] and its height: the point comes back as it was, and the amount
    recorded is zero on both axes. *)
Theorem pushOverlayOnScreen_leaves_an_overlay_on_screen (s : Strategy) (start : Point)
    (rawOverlayRect : ClientRect) (scrollPosition : ViewportScrollPosition) :
  let overlay := getRoundedBoundingClientRect rawOverlayRect in
  let viewport := _viewportRect s in
  let leftEdge := left viewport - scroll_left scrollPosition in
  let topEdge := top viewport - scroll_top scrollPosition in
  let result := _pushOverlayOnScreen s start rawOverlayRect scrollPosition in
  _positionLocked s = false \/ _previousPushAmount s = None ->
  0 <= leftEdge -> leftEdge <= x start -> x start + width overlay <= width viewport ->
  0 <= topEdge -> topEdge <= y start -> y start + height overlay <= height viewport ->
  x (snd result) == x start /\ y (snd result) == y start
  /\ exists amount,
       fst result = set_previousPushAmount (Some amount) s
       /\ x amount == 0 /\ y amount == 0.
Proof.
  cbv zeta. intros Hfresh HL Hx1 Hx2 HT Hy1 Hy2.
  destruct (_pushOverlayOnScreen_afresh s start rawOverlayRect scrollPosition Hfresh)
    as [pushX [pushY [-> [Hx Hy]]]]; [lra|lra|].
  cbn [fst snd x y].
  assert (HpushX : pushX == 0) by (destruct Hx as [[? ?]|[[? [? ?]]|[? [? ?]]]]; lra).
  assert (HpushY : pushY == 0) by (destruct Hy as [[? ?]|[[? [? ?]]|[? [? ?]]]]; lra).
  repeat apply conj; [lra|lra|].
  exists {| x := pushX; y := pushY |}.
  repeat apply conj; [reflexivity|exact HpushX|exact HpushY].
Qed.

Lemma pushOverlayOnScreen_leaves_an_overlay_on_screen_witness :
  let s := set_viewportRect (Fixture.rectAt 0 0 100 100) (Fixture.attached [0%nat]) in
  let start := mkPoint 40 50 in
  let result := _pushOverlayOnScreen s start (Fixture.rectAt 0 0 30 30) (mkScroll 0 0) in
  x (snd result) == x start /\ y (snd result) == y start
  /\ exists amount,
       fst result = set_previousPushAmount (Some amount) s
       /\ x amount == 0 /\ y amount == 0.
Proof.
  cbv zeta.
  refine (pushOverlayOnScreen_leaves_an_overlay_on_screen
            (set_viewportRect (Fixture.rectAt 0 0 100 100) (Fixture.attached [0%nat]))
            (mkPoint 40 50) (Fixture.rectAt 0 0 30 30) (mkScroll 0 0) _ _ _ _ _ _ _).
  - left. reflexivity.
  - vm_compute. discriminate.
  - vm_compute. discriminate.
  - vm_compute. discriminate.
  - vm_compute. discriminate.
  - vm_compute. discriminate.
  - vm_compute. discriminate.
Defined.

(** ** The bounding box *)

Lemma eqb_neq_false (a b : string) : a <> b -> String.eqb a b = false.
Proof. intros H. apply String.eqb_neq. exact H. Qed.

(** The size that is applied to a centred box, and the edge that goes with
    it. *)
Lemma centred_edge (smallest previous coordinate : Q) (capped : bool) :
  let size := if capped then Qmin (smallest * 2) previous else smallest * 2 in
  let edge := if Qltb previous (smallest * 2) && capped
              then coordinate - previous / 2 else coordinate - smallest in
  edge + size / 2 == coordinate.
Proof.
  cbv zeta. destruct capped; rewrite ?andb_true_r, ?andb_false_r.
  - destruct (Qltb previous (smallest * 2)) eqn:Hlt.
    + apply Qltb_true in Hlt. rewrite Q.min_r by lra. rewrite !half. lra.
    + apply Qltb_false in Hlt. rewrite Q.min_l by lra. rewrite !half. lra.
  - rewrite !half. lra.
Qed.

(** The two axes of [_calculateBoundingBoxRect] are computed apart. *)
Lemma _calculateBoundingBoxRect_vertical (s : Strategy) (e : Env) (origin : Point)
    (position : ConnectedPosition) :
  let rect := _calculateBoundingBoxRect s e origin position in
  (bb_height rect, bb_top rect, bb_bottom rect)
  = if String.eqb (overlayY position) "top" then
      (height (_viewportRect s) - y origin + _viewportMargin s, Some (y origin), None)
    else if String.eqb (overlayY position) "bottom" then
      (height (_viewportRect s)
       - (height (_viewportRect s) - y origin + _viewportMargin s * 2) + _viewportMargin s,
       None, Some (height (_viewportRect s) - y origin + _viewportMargin s * 2))
    else
      let smallest := Qmin (bottom (_viewportRect s) - y origin + top (_viewportRect s))
                        (y origin) in
      (smallest * 2,
       Some (if Qltb (sz_height (_lastBoundingBoxSize s)) (smallest * 2)
                && negb (_isInitialRender s) && negb (_growAfterOpen s)
             then y origin - sz_height (_lastBoundingBoxSize s) / 2
             else y origin - smallest),
       None).
Proof.
  cbv zeta. unfold _calculateBoundingBoxRect.
  destruct (String.eqb (overlayY position) "top"), (String.eqb (overlayY position) "bottom"),
    (String.eqb (overlayX position) "start"), (String.eqb (overlayX position) "end"),
    (isRtl e); reflexivity.
Qed.

Lemma _calculateBoundingBoxRect_horizontal (s : Strategy) (e : Env) (origin : Point)
    (position : ConnectedPosition) :
  let rect := _calculateBoundingBoxRect s e origin position in
  (bb_width rect, bb_left rect, bb_right rect)
  = if (String.eqb (overlayX position) "end" && negb (isRtl e))
       || (String.eqb (overlayX position) "start" && isRtl e) then
      (x origin - _viewportMargin s, None,
       Some (width (_viewportRect s) - x origin + _viewportMargin s))
    else if (String.eqb (overlayX position) "start" && negb (isRtl e))
            || (String.eqb (overlayX position) "end" && isRtl e) then
      (right (_viewportRect s) - x origin, Some (x origin), None)
    else
      let smallest := Qmin (right (_viewportRect s) - x origin + left (_viewportRect s))
                        (x origin) in
      (smallest * 2,
       Some (if Qltb (sz_width (_lastBoundingBoxSize s)) (smallest * 2)
                && negb (_isInitialRender s) && negb (_growAfterOpen s)
             then x origin - sz_width (_lastBoundingBoxSize s) / 2
             else x origin - smallest),
       None).
Proof.
  cbv zeta. unfold _calculateBoundingBoxRect.
  destruct (String.eqb (overlayY position) "top"), (String.eqb (overlayY position) "bottom"),
    (String.eqb (overlayX position) "start"), (String.eqb (overlayX position) "end"),
    (isRtl e); reflexivity.
Qed.

(** Taking the last size into account changes the size only. *)
Lemma cappedBoundingBoxRect_edges (s : Strategy) (rect : BoundingBoxRect) :
  let applied := cappedBoundingBoxRect s rect in
  bb_top applied = bb_top rect /\ bb_bottom applied = bb_bottom rect
  /\ bb_left applied = bb_left rect /\ bb_right applied = bb_right rect
  /\ bb_width applied
     = (if negb (_isInitialRender s) && negb (_growAfterOpen s)
        then Qmin (bb_width rect) (sz_width (_lastBoundingBoxSize s)) else bb_width rect)
  /\ bb_height applied
     = (if negb (_isInitialRender s) && negb (_growAfterOpen s)
        then Qmin (bb_height rect) (sz_height (_lastBoundingBoxSize s)) else bb_height rect).
Proof.
  cbv zeta. unfold cappedBoundingBoxRect.
  destruct (negb (_isInitialRender s) && negb (_growAfterOpen s)); repeat split.
Qed.

(** X11: a bounding box that is centred on an axis stays centred on the
    origin point once the last size has been taken into account.  For a
    position whose [overlayY] is neither [top] nor [bottom], the box that
    [_setBoundingBoxStyles] applies has a [top] and no [bottom], and its
    [top] plus half its height is the origin's [y]; likewise on the x axis
    for an [overlayX] that is neither [start] nor [end], with [left] and the
    width. *)
Theorem centred_bounding_box_is_centred_on_the_origin (s : Strategy) (e : Env)
    (origin : Point) (position : ConnectedPosition) :
  let rect := cappedBoundingBoxRect s (_calculateBoundingBoxRect s e origin position) in
  (overlayY position <> "top" -> overlayY position <> "bottom" ->
   exists top_,
     bb_top rect = Some top_ /\ bb_bottom rect = None
     /\ top_ + bb_height rect / 2 == y origin)
  /\ (overlayX position <> "start" -> overlayX position <> "end" ->
      exists left_,
        bb_left rect = Some left_ /\ bb_right rect = None
        /\ left_ + bb_width rect / 2 == x origin).
Proof.
  cbv zeta.
  destruct (cappedBoundingBoxRect_edges s (_calculateBoundingBoxRect s e origin position))
    as [-> [-> [-> [-> [-> ->]]]]].
  split.
  - intros Htop Hbottom.
    assert (H := _calculateBoundingBoxRect_vertical s e origin position). cbv zeta in H.
    rewrite (eqb_neq_false _ _ Htop), (eqb_neq_false _ _ Hbottom) in H.
    injection H as -> -> ->.
    eexists. split; [reflexivity|]. split; [reflexivity|].
    rewrite <- andb_assoc. apply centred_edge.
  - intros Hstart Hend.
    assert (H := _calculateBoundingBoxRect_horizontal s e origin position). cbv zeta in H.
    rewrite (eqb_neq_false _ _ Hstart), (eqb_neq_false _ _ Hend) in H.
    cbn [andb orb] in H. injection H as -> -> ->.
    eexists. split; [reflexivity|]. split; [reflexivity|].
    rewrite <- andb_assoc. apply centred_edge.
Qed.

Lemma centred_bounding_box_is_centred_on_the_origin_witness :
  let e := Fixture.browser (Fixture.rectAt 40 40 20 20) 30 30 0 in
  let s := set_isInitialRender false
             (set_lastBoundingBoxSize (mkSize 60 60)
                (set_viewportRect (Fixture.rectAt 0 0 100 100) (Fixture.attached [0%nat]))) in
  let position := mkPos "center" "center" "center" "center" None None None in
  let rect := cappedBoundingBoxRect s
                (_calculateBoundingBoxRect s e (mkPoint 50 50) position) in
  (exists top_,
     bb_top rect = Some top_ /\ bb_bottom rect = None
     /\ top_ + bb_height rect / 2 == 50)
  /\ (exists left_,
        bb_left rect = Some left_ /\ bb_right rect = None
        /\ left_ + bb_width rect / 2 == 50).
Proof.
  cbv zeta.
  pose proof (centred_bounding_box_is_centred_on_the_origin
                (set_isInitialRender false
                   (set_lastBoundingBoxSize (mkSize 60 60)
                      (set_viewportRect (Fixture.rectAt 0 0 100 100)
                         (Fixture.attached [0%nat]))))
                (Fixture.browser (Fixture.rectAt 40 40 20 20) 30 30 0) (mkPoint 50 50)
                (mkPos "center" "center" "center" "center" None None None)) as [Hy Hx].
  split; [apply Hy|apply Hx]; discriminate.
Defined.

(** X12: [_calculateBoundingBoxRect] anchors the box by one edge on each
    axis: it defines [bottom] and not [top] when [overlayY] is [bottom], and
    [top] and not [bottom] otherwise; it defines [right] and not [left] when
    the box is bounded by the left edge of the viewport ([overlayX] is [end]
    in LTR or [start] in RTL), and [left] and not [right] otherwise.  Taking
    the last size into account changes none of the four edges. *)
Theorem calculateBoundingBoxRect_anchors_one_edge_per_axis (s : Strategy) (e : Env)
    (origin : Point) (position : ConnectedPosition) :
  let rect := _calculateBoundingBoxRect s e origin position in
  let applied := cappedBoundingBoxRect s rect in
  (if String.eqb (overlayY position) "bottom"
   then bb_top rect = None /\ is_Some (bb_bottom rect)
   else is_Some (bb_top rect) /\ bb_bottom rect = None)
  /\ (if (String.eqb (overlayX position) "end" && negb (isRtl e))
         || (String.eqb (overlayX position) "start" && isRtl e)
      then bb_left rect = None /\ is_Some (bb_right rect)
      else is_Some (bb_left rect) /\ bb_right rect = None)
  /\ bb_top applied = bb_top rect /\ bb_bottom applied = bb_bottom rect
  /\ bb_left applied = bb_left rect /\ bb_right applied = bb_right rect.
Proof.
  cbv zeta.
  destruct (cappedBoundingBoxRect_edges s (_calculateBoundingBoxRect s e origin position))
    as [-> [-> [-> [-> _]]]].
  assert (Hv := _calculateBoundingBoxRect_vertical s e origin position).
  assert (Hh := _calculateBoundingBoxRect_horizontal s e origin position).
  cbv zeta in Hv, Hh.
  repeat apply conj; try reflexivity.
  - destruct (String.eqb (overlayY position) "top") eqn:Htop.
    + apply String.eqb_eq in Htop. rewrite Htop. cbn [String.eqb Ascii.eqb Bool.eqb].
      injection Hv as _ -> ->. split; eauto.
    + destruct (String.eqb (overlayY position) "bottom"); injection Hv as _ -> ->;
        split; eauto.
  - destruct ((String.eqb (overlayX position) "end" && negb (isRtl e))
              || (String.eqb (overlayX position) "start" && isRtl e)).
    + injection Hh as _ -> ->. split; eauto.
    + destruct ((String.eqb (overlayX position) "start" && negb (isRtl e))
                || (String.eqb (overlayX position) "end" && isRtl e));
        injection Hh as _ -> ->; split; eauto.
Qed.

(** ** Styles *)

(** Reading a property of an element after a style object was written. *)
Lemma styleOf_extend (target : option Element) (source : gmap string Css)
    (d : gmap Element (gmap string Css)) (el : Element) (property : string) :
  styleOf (extendElementStyles target source d) el !! property
  = if decide (target = Some el)
    then match source !! property with
         | Some value => Some value
         | None => styleOf d el !! property
         end
    else styleOf d el !! property.
Proof.
  destruct target as [t|]; unfold extendElementStyles; [|case_decide; [discriminate|reflexivity]].
  unfold styleOf at 1. rewrite lookup_insert. case_decide.
  - subst t. rewrite decide_True by reflexivity. cbn [default]. unfold id, extendStyles.
    rewrite lookup_union. destruct (source !! property), (styleOf d el !! property); reflexivity.
  - rewrite decide_False by congruence. reflexivity.
Qed.

(** Writing a style object leaves alone what it does not name. *)
Lemma styleOf_extend_other (target : option Element) (source : gmap string Css)
    (d : gmap Element (gmap string Css)) (el : Element) (property : string) :
  target <> Some el \/ source !! property = None ->
  styleOf (extendElementStyles target source d) el !! property = styleOf d el !! property.
Proof.
  intros Hother. rewrite styleOf_extend. case_decide; [|reflexivity].
  destruct Hother as [Hother| ->]; [contradiction|reflexivity].
Qed.

Lemma not_positioning (property : string) :
  ~ In property positioningProperties ->
  property <> "top" /\ property <> "left" /\ property <> "bottom" /\ property <> "right"
  /\ property <> "width" /\ property <> "height" /\ property <> "maxWidth"
  /\ property <> "maxHeight" /\ property <> "alignItems" /\ property <> "justifyContent"
  /\ property <> "position" /\ property <> "transform".
Proof.
  intros Hnot. repeat apply conj; intros ->; apply Hnot; cbn; tauto.
Qed.

Ltac other_property :=
  match goal with
  | H : ~ In _ positioningProperties |- _ =>
      destruct (not_positioning _ H) as (? & ? & ? & ? & ? & ? & ? & ? & ? & ? & ? & ?)
  end;
  unfold list_to_map; cbn [foldr fst snd uncurry];
  rewrite ?lookup_insert_ne by congruence;
  rewrite ?lookup_singleton_ne by congruence;
  try apply lookup_empty; try reflexivity.

Lemma untouched_same (s t : Strategy) (el : Element) (property : string) :
  _pane t = _pane s -> _boundingBox t = _boundingBox s ->
  untouched s el property -> untouched t el property.
Proof. unfold untouched. intros -> ->. exact id. Qed.

Lemma _resetOverlayElementStyles_other (s : Strategy) (el : Element) (property : string) :
  untouched s el property ->
  styleOf (dom (_resetOverlayElementStyles s)) el !! property = styleOf (dom s) el !! property.
Proof.
  intros Hother. unfold _resetOverlayElementStyles. cbn [dom set_dom].
  apply styleOf_extend_other.
  destruct Hother as [[Hpane _]|Hother]; [left; exact Hpane|right; other_property].
Qed.

Lemma _resetBoundingBoxStyles_other (s : Strategy) (el : Element) (property : string) :
  untouched s el property ->
  styleOf (dom (_resetBoundingBoxStyles s)) el !! property = styleOf (dom s) el !! property.
Proof.
  intros Hother. unfold _resetBoundingBoxStyles. cbn [dom set_dom].
  apply styleOf_extend_other.
  destruct Hother as [[_ Hbox]|Hother]; [left; exact Hbox|right; other_property].
Qed.

Lemma beginApply_other (s : Strategy) (e : Env) (pane : Element) (el : Element)
    (property : string) :
  untouched s el property ->
  styleOf (dom (beginApply s e pane)) el !! property = styleOf (dom s) el !! property
  /\ untouched (beginApply s e pane) el property.
Proof.
  intros Hother. split.
  - unfold beginApply. cbn [dom set_overlayRect set_originRect set_viewportRect].
    rewrite _resetBoundingBoxStyles_other.
    + apply _resetOverlayElementStyles_other. exact Hother.
    + eapply untouched_same; [| |exact Hother]; reflexivity.
  - eapply untouched_same; [| |exact Hother]; reflexivity.
Qed.

Lemma dispose_other (s : Strategy) (el : Element) (property : string) :
  untouched s el property ->
  styleOf (dom (dispose s)) el !! property = styleOf (dom s) el !! property.
Proof.
  intros Hother. unfold dispose. destruct (_isDisposed s); [reflexivity|].
  cbn [dom set_isDisposed set_boundingBox set_overlayRef detach set_resizeSubscription
       set_previousPushAmount set_lastPosition].
  rewrite _resetOverlayElementStyles_other.
  - cbn [dom set_dom]. apply styleOf_extend_other.
    destruct Hother as [[_ Hbox]|Hother]; [left; exact Hbox|right; other_property].
  - eapply untouched_same; [| |exact Hother]; reflexivity.
Qed.

Section Styles.

Variable objects : PosRef -> ConnectedPosition.
Variable parseFloat : string -> JsNumber.
Variable coerceCssPixelValue : JsVal -> Css.

Lemma _getExactOverlayY_properties (s : Strategy) (e : Env) (position : ConnectedPosition)
    (originPoint : Point) (scrollPosition : ViewportScrollPosition) (property : string) :
  property <> "top" -> property <> "bottom" ->
  snd (_getExactOverlayY coerceCssPixelValue s e position originPoint scrollPosition)
    !! property = None.
Proof.
  intros Htop Hbottom. unfold _getExactOverlayY.
  destruct (if _isPushed s then _ else _) as [s1 overlayPoint]. cbn [snd].
  destruct (String.eqb (overlayY position) "bottom");
    rewrite lookup_insert_ne by congruence;
    unfold list_to_map; cbn [foldr fst snd uncurry];
    rewrite !lookup_insert_ne by congruence; apply lookup_empty.
Qed.

Lemma _getExactOverlayX_properties (s : Strategy) (e : Env) (position : ConnectedPosition)
    (originPoint : Point) (scrollPosition : ViewportScrollPosition) (property : string) :
  property <> "left" -> property <> "right" ->
  snd (_getExactOverlayX coerceCssPixelValue s e position originPoint scrollPosition)
    !! property = None.
Proof.
  intros Hleft Hright. unfold _getExactOverlayX.
  destruct (if _isPushed s then _ else _) as [s1 overlayPoint]. cbn [snd].
  destruct (String.eqb _ "right");
    rewrite lookup_insert_ne by congruence;
    unfold list_to_map; cbn [foldr fst snd uncurry];
    rewrite !lookup_insert_ne by congruence; apply lookup_empty.
Qed.

(** The exact position of the pane names neither another property nor a
    maximum size. *)
Lemma exact_position_properties (s : Strategy) (e : Env) (position : ConnectedPosition)
    (originPoint : Point) (property : string) :
  property <> "top" -> property <> "bottom" -> property <> "left" -> property <> "right" ->
  property <> "position" ->
  snd (if _hasExactPosition s then
         let scrollPosition := getViewportScrollPosition e in
         let '(s, stylesY) :=
           _getExactOverlayY coerceCssPixelValue s e position originPoint scrollPosition in
         let styles := extendStyles ∅ stylesY in
         let '(s, stylesX) :=
           _getExactOverlayX coerceCssPixelValue s e position originPoint scrollPosition in
         (s, extendStyles styles stylesX)
       else (s, {["position" := CssLit "static"]})) !! property = None.
Proof.
  intros Htop Hbottom Hleft Hright Hposition.
  destruct (_hasExactPosition s).
  - cbv zeta.
    destruct (_getExactOverlayY _ s e position originPoint _) as [s1 stylesY] eqn:HY.
    destruct (_getExactOverlayX _ s1 e position originPoint _) as [s2 stylesX] eqn:HX.
    cbn [snd]. unfold extendStyles. rewrite !lookup_union.
    change stylesX with (snd (s2, stylesX)). rewrite <- HX.
    change stylesY with (snd (s1, stylesY)). rewrite <- HY.
    rewrite _getExactOverlayX_properties, _getExactOverlayY_properties by assumption.
    rewrite lookup_empty. reflexivity.
  - cbn [snd]. rewrite lookup_singleton_ne by congruence. reflexivity.
Qed.

(** The styles of the pane, from the styles of its exact position on. *)
Lemma overlayElementStyles_from (s : Strategy) (e : Env) (originPoint : Point)
    (position : ConnectedPosition) :
  exists base : Strategy * gmap string Css,
    (forall property,
        property <> "top" -> property <> "bottom" -> property <> "left" ->
        property <> "right" -> property <> "position" -> snd base !! property = None)
    /\ snd (overlayElementStyles coerceCssPixelValue s e originPoint position)
       = let styles :=
           <["transform" := transformString (_getOffset (_offsetX (fst base)) (offsetX position))
                              (_getOffset (_offsetY (fst base)) (offsetY position))]>
             (snd base) in
         let styles :=
           if truthyVal (maxHeight (getConfig e)) then
             if _hasExactPosition s
             then <["maxHeight" := coerceCssPixelValue (maxHeight (getConfig e))]> styles
             else if _hasFlexibleDimensions s then <["maxHeight" := CssLit ""]> styles
             else styles
           else styles in
         if truthyVal (maxWidth (getConfig e)) then
           if _hasExactPosition s
           then <["maxWidth" := coerceCssPixelValue (maxWidth (getConfig e))]> styles
           else if _hasFlexibleDimensions s then <["maxWidth" := CssLit ""]> styles
           else styles
         else styles.
Proof.
  eexists. split.
  - intros property. apply (exact_position_properties s e position originPoint property).
  - unfold overlayElementStyles.
    destruct (if _hasExactPosition s then _ else _) as [s0 styles]. reflexivity.
Qed.

Lemma overlayElementStyles_max (s : Strategy) (e : Env) (originPoint : Point)
    (position : ConnectedPosition) (property : string) (value : JsVal) :
  (property = "maxHeight" /\ value = maxHeight (getConfig e))
  \/ (property = "maxWidth" /\ value = maxWidth (getConfig e)) ->
  snd (overlayElementStyles coerceCssPixelValue s e originPoint position) !! property
  = if truthyVal value then
      if _hasExactPosition s then Some (coerceCssPixelValue value)
      else if _hasFlexibleDimensions s then Some (CssLit "") else None
    else None.
Proof.
  intros Hproperty.
  destruct (overlayElementStyles_from s e originPoint position) as ([s0 styles] & Hbase & ->).
  cbn [fst snd] in *. cbv zeta.
  assert (Hh := Hbase "maxHeight"). assert (Hw := Hbase "maxWidth").
  destruct Hproperty as [[-> ->]|[-> ->]];
    destruct (truthyVal (maxHeight (getConfig e))), (truthyVal (maxWidth (getConfig e))),
      (_hasExactPosition s), (_hasFlexibleDimensions s);
    rewrite ?lookup_insert_eq; try reflexivity;
    rewrite ?lookup_insert_ne by discriminate;
    rewrite ?lookup_insert_eq; try reflexivity;
    first [apply Hh | apply Hw]; discriminate.
Qed.

Lemma overlayElementStyles_properties (s : Strategy) (e : Env) (originPoint : Point)
    (position : ConnectedPosition) (property : string) :
  ~ In property positioningProperties ->
  snd (overlayElementStyles coerceCssPixelValue s e originPoint position) !! property = None.
Proof.
  intros Hother.
  destruct (overlayElementStyles_from s e originPoint position) as ([s0 styles] & Hbase & ->).
  cbn [fst snd] in *. cbv zeta.
  destruct (truthyVal (maxHeight (getConfig e))), (truthyVal (maxWidth (getConfig e))),
    (_hasExactPosition s), (_hasFlexibleDimensions s);
    other_property; apply Hbase; assumption.
Qed.

Lemma boundingBoxStyles_max (s : Strategy) (e : Env) (rect : BoundingBoxRect)
    (position : ConnectedPosition) (property : string) (value : JsVal) :
  (property = "maxHeight" /\ value = maxHeight (getConfig e))
  \/ (property = "maxWidth" /\ value = maxWidth (getConfig e)) ->
  boundingBoxStyles coerceCssPixelValue s e rect position !! property
  = if _hasExactPosition s then Some (CssLit "")
    else if truthyVal value then Some (coerceCssPixelValue value) else None.
Proof.
  intros Hproperty. unfold boundingBoxStyles.
  destruct Hproperty as [[-> ->]|[-> ->]];
    destruct (_hasExactPosition s), (truthyVal (maxHeight (getConfig e))),
      (truthyVal (maxWidth (getConfig e)));
    rewrite ?lookup_insert_eq; try reflexivity;
    rewrite ?lookup_insert_ne by discriminate;
    rewrite ?lookup_insert_eq; reflexivity.
Qed.

Lemma boundingBoxStyles_properties (s : Strategy) (e : Env) (rect : BoundingBoxRect)
    (position : ConnectedPosition) (property : string) :
  ~ In property positioningProperties ->
  boundingBoxStyles coerceCssPixelValue s e rect position !! property = None.
Proof.
  intros Hother. unfold boundingBoxStyles.
  destruct (_hasExactPosition s), (truthyVal (maxHeight (getConfig e))),
    (truthyVal (maxWidth (getConfig e))); other_property.
Qed.

(** X13: a maximum height (width) of the overlay config that is set, that
    is truthy, ends up on exactly one of the two elements when a position is
    applied to distinct pane and bounding box: with an exact position (no
    flexible dimensions, or pushed) the pane gets it and the bounding box's
    is emptied; otherwise the bounding box gets it and the pane's is
    emptied. *)
Theorem applyPosition_puts_the_maximum_size_on_one_element (s : Strategy) (e : Env)
    (position : PosRef) (originPoint : Point) (pane box : Element)
    (property : string) (value : JsVal) :
  _pane s = Some pane ->
  _boundingBox s = Some box ->
  pane <> box ->
  (property = "maxHeight" /\ value = maxHeight (getConfig e))
  \/ (property = "maxWidth" /\ value = maxWidth (getConfig e)) ->
  truthyVal value = true ->
  let s' := _applyPosition objects coerceCssPixelValue s e position originPoint in
  if _hasExactPosition s
  then styleOf (dom s') pane !! property = Some (coerceCssPixelValue value)
       /\ styleOf (dom s') box !! property = Some (CssLit "")
  else styleOf (dom s') pane !! property = Some (CssLit "")
       /\ styleOf (dom s') box !! property = Some (coerceCssPixelValue value).
Proof.
  intros Hpane Hbox Hdistinct Hproperty Htruthy. cbv zeta.
  rewrite _applyPosition_explicit. cbn [dom]. rewrite Hpane, Hbox.
  rewrite !styleOf_extend.
  rewrite (decide_False (P := Some box = Some pane)) by congruence.
  rewrite (decide_False (P := Some pane = Some box)) by congruence.
  rewrite !decide_True by reflexivity.
  unfold paneStylesAt, boxStylesAt.
  rewrite (overlayElementStyles_max s e originPoint (objects position) property value Hproperty).
  rewrite (boundingBoxStyles_max s e _ (objects position) property value Hproperty).
  rewrite Htruthy.
  assert (Hflexible : _hasExactPosition s = false -> _hasFlexibleDimensions s = true).
  { unfold _hasExactPosition. destruct (_hasFlexibleDimensions s); [reflexivity|discriminate]. }
  destruct (_hasExactPosition s); [split; reflexivity|].
  rewrite (Hflexible eq_refl). split; reflexivity.
Qed.

Lemma _applyPosition_other (s : Strategy) (e : Env) (position : PosRef) (originPoint : Point)
    (el : Element) (property : string) :
  untouched s el property ->
  styleOf (dom (_applyPosition objects coerceCssPixelValue s e position originPoint)) el
    !! property
  = styleOf (dom s) el !! property.
Proof.
  intros Hother. rewrite _applyPosition_explicit. cbn [dom].
  rewrite !styleOf_extend_other; [reflexivity| |].
  - destruct Hother as [[Hpane _]|Hother]; [left; exact Hpane|right].
    apply overlayElementStyles_properties. exact Hother.
  - destruct Hother as [[_ Hbox]|Hother]; [left; exact Hbox|right].
    apply boundingBoxStyles_properties. exact Hother.
Qed.

Lemma reapplyLastPosition_other (s : Strategy) (e : Env) (el : Element) (property : string) :
  untouched s el property ->
  styleOf (dom (fst (reapplyLastPosition objects coerceCssPixelValue s e))) el !! property
  = styleOf (dom s) el !! property.
Proof.
  intros Hother. unfold reapplyLastPosition.
  destruct (negb (_isDisposed s) && isBrowser e); [|reflexivity].
  change (_pane (set_originRect (_getOriginRect s e) s)) with (_pane s).
  destruct (_pane s) as [pane|] eqn:Hpane; [|reflexivity].
  match goal with
  | |- context [match ?chosen with Some _ => _ | None => (?t, TypeError) end] =>
      destruct chosen as [lastPosition|]; [|reflexivity]
  end.
  cbn [fst]. rewrite _applyPosition_other; [reflexivity|].
  eapply untouched_same; [| |exact Hother]; reflexivity.
Qed.

Lemma apply_other (s : Strategy) (e : Env) (el : Element) (property : string) :
  untouched s el property ->
  styleOf (dom (fst (apply objects parseFloat coerceCssPixelValue s e))) el !! property
  = styleOf (dom s) el !! property.
Proof.
  intros Hother. unfold apply.
  destruct (_isDisposed s || negb (isBrowser e)); [reflexivity|].
  destruct (negb (_isInitialRender s) && _positionLocked s
            && bool_decide (is_Some (_lastPosition s))).
  { apply reapplyLastPosition_other. exact Hother. }
  destruct (_pane s) as [pane|] eqn:Hpane; [|reflexivity].
  destruct (_boundingBox s) as [box|] eqn:Hbox; [|reflexivity].
  destruct (beginApply_other s e pane el property Hother) as [Hdom Hstill].
  cbv zeta. revert Hdom Hstill. generalize (beginApply s e pane). intros t Hdom Hstill.
  assert (Hpushed : forall pushed, untouched (set_isPushed pushed t) el property).
  { intros pushed. eapply untouched_same; [| |exact Hstill]; reflexivity. }
  assert (Hplaced : forall given position originPoint,
             untouched given el property -> dom given = dom t ->
             styleOf (dom (_applyPosition objects coerceCssPixelValue given e position
                             originPoint)) el !! property
             = styleOf (dom s) el !! property).
  { intros given position originPoint Hgiven Hsame.
    rewrite _applyPosition_other by exact Hgiven. rewrite Hsame. exact Hdom. }
  destruct (positionsLoop _ _ _ _ _ _ _) as [pos originPoint|[|fit fits] fallback].
  - apply Hplaced; [apply Hpushed|reflexivity].
  - destruct (_canPush t), fallback as [f|]; cbn [fst].
    + apply Hplaced; [apply Hpushed|reflexivity].
    + exact Hdom.
    + apply Hplaced; [exact Hstill|reflexivity].
    + exact Hdom.
  - destruct (bestFitLoop _ _ _ _) as [best|]; cbn [fst].
    + apply Hplaced; [apply Hpushed|reflexivity].
    + exact Hdom.
Qed.

(** Writing the transform origin of some elements leaves every other style
    as it was. *)
Lemma transformOrigin_other (value : Css) (elements : list Element) (el : Element)
    (property : string) :
  property <> "transformOrigin" \/ ~ In el elements ->
  forall d : gmap Element (gmap string Css),
  styleOf (fold_left (fun d element =>
                        extendElementStyles (Some element) {["transformOrigin" := value]} d)
                     elements d) el !! property
  = styleOf d el !! property.
Proof.
  induction elements as [|element elements IH]; intros Hother d; [reflexivity|].
  cbn [fold_left]. rewrite IH.
  - apply styleOf_extend_other. destruct Hother as [Hproperty|Hel].
    + right. apply lookup_singleton_ne. congruence.
    + left. intros [= ->]. apply Hel. left. reflexivity.
  - destruct Hother as [Hproperty|Hel]; [left; exact Hproperty|].
    right. intros Hin. apply Hel. right. exact Hin.
Qed.

(** X24: no call on the strategy, and no change of the viewport, writes a
    style of an element other than the pane and the bounding box of the
    strategy, or a style property other than the twelve it positions with
    ([top], [left], [bottom], [right], [width], [height], [maxWidth],
    [maxHeight], [alignItems], [justifyContent], [position], [transform]):
    every such style reads after the call as it did before.  The one other
    write of a placement is that of [_setTransformOrigin], which writes
    nothing but the property [transformOrigin], and that only on the
    elements its selector finds in the bounding box. *)
Theorem strategy_writes_only_positioning_styles_of_its_elements (call : Call)
    (s : Strategy) (e : Env) (el : Element) (property : string)
    (querySelectorAll : Element -> string -> list Element)
    (_transformOriginSelector : option string) (position : ConnectedPosition) :
  (untouched s el property ->
   styleOf (dom (run objects parseFloat coerceCssPixelValue call s e)) el !! property
   = styleOf (dom s) el !! property)
  /\ (property <> "transformOrigin"
      \/ ~ transformed querySelectorAll _transformOriginSelector s el ->
      styleOf (dom (fst (_setTransformOrigin querySelectorAll _transformOriginSelector
                           s e position))) el !! property
      = styleOf (dom s) el !! property).
Proof.
  split.
  - intros Hother. destruct call; cbn [run]; try reflexivity.
    + unfold attach. destruct (andThen _ _); reflexivity.
    + apply apply_other. exact Hother.
    + apply dispose_other. exact Hother.
    + apply reapplyLastPosition_other. exact Hother.
    + unfold withPositions. cbn [_lastPosition set_preferredPositions].
      destruct (notPartOf positions (_lastPosition s)), (_validatePositions _ _ _);
        reflexivity.
    + unfold viewportChange. destruct (_resizeSubscription s); [|reflexivity].
      rewrite apply_other; [reflexivity|].
      eapply untouched_same; [| |exact Hother]; reflexivity.
  - intros Hother. unfold _setTransformOrigin.
    destruct _transformOriginSelector as [selector|]; [|reflexivity].
    destruct (String.eqb selector ""); [reflexivity|].
    destruct (_boundingBox s) as [box|] eqn:Hbox; [|reflexivity].
    destruct (transformOrigin (isRtl e) position) as [xOrigin yOrigin].
    cbn [fst dom set_dom]. apply transformOrigin_other.
    destruct Hother as [Hproperty|Hel]; [left; exact Hproperty|].
    right. intros Hin. apply Hel. exists box, selector. auto.
Qed.

End Styles.

(** X25: [dispose] of a live strategy empties the eight properties it names
    on the bounding box ([top], [left], [right], [bottom], [height], [width],
    [alignItems], [justifyContent]) and the six of the pane ([top], [left],
    [bottom], [right], [position], [transform]); it leaves [maxWidth] and
    [maxHeight] of every element as they were.  [_resetBoundingBoxStyles], by
    contrast, sets the four edges of the bounding box to [0]. *)
Theorem dispose_removes_the_positioning_styles (s : Strategy) (box pane : Element) :
  _isDisposed s = false ->
  _boundingBox s = Some box ->
  _pane s = Some pane ->
  Forall (fun property => styleOf (dom (dispose s)) box !! property = Some (CssLit ""))
    ["top"; "left"; "right"; "bottom"; "height"; "width"; "alignItems"; "justifyContent"]
  /\ Forall (fun property => styleOf (dom (dispose s)) pane !! property = Some (CssLit ""))
       ["top"; "left"; "bottom"; "right"; "position"; "transform"]
  /\ Forall (fun property =>
               forall el, styleOf (dom (dispose s)) el !! property
                          = styleOf (dom s) el !! property)
       ["maxWidth"; "maxHeight"]
  /\ Forall (fun property =>
               styleOf (dom (_resetBoundingBoxStyles s)) box !! property = Some (CssLit "0"))
       ["top"; "left"; "right"; "bottom"].
Proof.
  intros Hlive Hbox Hpane.
  assert (Hdom : dom (dispose s)
                 = extendElementStyles (Some pane)
                     (list_to_map [("top", CssLit ""); ("left", CssLit "");
                                   ("bottom", CssLit ""); ("right", CssLit "");
                                   ("position", CssLit ""); ("transform", CssLit "")])
                     (extendElementStyles (Some box)
                        (list_to_map [("top", CssLit ""); ("left", CssLit "");
                                      ("right", CssLit ""); ("bottom", CssLit "");
                                      ("height", CssLit ""); ("width", CssLit "");
                                      ("alignItems", CssLit ""); ("justifyContent", CssLit "")])
                        (dom s))).
  { unfold dispose. rewrite Hlive. unfold _resetOverlayElementStyles.
    cbn [dom _pane _boundingBox set_dom set_isDisposed set_boundingBox set_overlayRef detach
         set_resizeSubscription set_previousPushAmount set_lastPosition].
    rewrite Hbox, Hpane. reflexivity. }
  rewrite Hdom. unfold _resetBoundingBoxStyles. cbn [dom set_dom]. rewrite Hbox.
  repeat apply conj;
    repeat match goal with |- Forall _ _ => constructor end; intros;
    rewrite !styleOf_extend; repeat case_decide; try congruence; reflexivity.
Qed.

Lemma applyPosition_puts_the_maximum_size_on_one_element_witness :
  let e := Fixture.browser (Fixture.rectAt 10 10 20 20) 30 30 0 in
  let limited := mkEnv (isBrowser e) (ngDevMode e) (clientWidth e) (clientHeight e)
                   (getViewportScrollPosition e) (getBoundingClientRect e) (isRtl e)
                   (mkConfig JUndefined JUndefined JUndefined (JNum 200))
                   (containerTop e) (observers e) (scrollVisibility e) in
  let s := Fixture.attached [0%nat] in
  let s' := _applyPosition Fixture.objects Fixture.coerceCssPixelValue s limited 0%nat
              (mkPoint 10 30) in
  if _hasExactPosition s
  then styleOf (dom s') Fixture.pane !! "maxHeight"
       = Some (Fixture.coerceCssPixelValue (JNum 200))
       /\ styleOf (dom s') Fixture.host !! "maxHeight" = Some (CssLit "")
  else styleOf (dom s') Fixture.pane !! "maxHeight" = Some (CssLit "")
       /\ styleOf (dom s') Fixture.host !! "maxHeight"
          = Some (Fixture.coerceCssPixelValue (JNum 200)).
Proof.
  cbv zeta.
  refine (applyPosition_puts_the_maximum_size_on_one_element Fixture.objects
            Fixture.coerceCssPixelValue (Fixture.attached [0%nat]) _ 0%nat (mkPoint 10 30)
            Fixture.pane Fixture.host "maxHeight" (JNum 200) _ _ _ _ _).
  - reflexivity.
  - reflexivity.
  - discriminate.
  - left. split; reflexivity.
  - reflexivity.
Defined.

Lemma strategy_writes_only_positioning_styles_of_its_elements_witness :
  let e := Fixture.browser (Fixture.rectAt 10 10 20 20) 30 30 0 in
  let s := Fixture.attached [0%nat] in
  let querySelectorAll (_ : Element) (_ : string) := [7; 8]%nat in
  (untouched s Fixture.trigger "top"
   /\ styleOf (dom (run Fixture.objects Fixture.parseFloat Fixture.coerceCssPixelValue
                      Apply s e)) Fixture.trigger !! "top"
      = styleOf (dom s) Fixture.trigger !! "top")
  /\ styleOf (dom (fst (_setTransformOrigin querySelectorAll (Some ".menu") s e
                          Fixture.aboveStart))) 8%nat !! "top"
     = styleOf (dom s) 8%nat !! "top".
Proof.
  cbv zeta.
  assert (Hother : untouched (Fixture.attached [0%nat]) Fixture.trigger "top").
  { left. split; discriminate. }
  pose proof (strategy_writes_only_positioning_styles_of_its_elements Fixture.objects
                Fixture.parseFloat Fixture.coerceCssPixelValue Apply (Fixture.attached [0%nat])
                (Fixture.browser (Fixture.rectAt 10 10 20 20) 30 30 0) Fixture.trigger "top"
                (fun _ _ => [7; 8]%nat) (Some ".menu") Fixture.aboveStart) as [Hcalls _].
  pose proof (strategy_writes_only_positioning_styles_of_its_elements Fixture.objects
                Fixture.parseFloat Fixture.coerceCssPixelValue Apply (Fixture.attached [0%nat])
                (Fixture.browser (Fixture.rectAt 10 10 20 20) 30 30 0) 8%nat "top"
                (fun _ _ => [7; 8]%nat) (Some ".menu") Fixture.aboveStart) as [_ Horigin].
  split; [split; [exact Hother|exact (Hcalls Hother)]|].
  apply Horigin. left. discriminate.
Defined.

Lemma dispose_removes_the_positioning_styles_witness :
  let e := Fixture.browser (Fixture.rectAt 10 10 20 20) 30 30 0 in
  let s := fst (apply Fixture.objects Fixture.parseFloat Fixture.coerceCssPixelValue
                  (Fixture.attached [0%nat]) e) in
  Forall (fun property =>
            styleOf (dom (dispose s)) Fixture.host !! property = Some (CssLit ""))
    ["top"; "left"; "right"; "bottom"; "height"; "width"; "alignItems"; "justifyContent"]
  /\ Forall (fun property =>
               styleOf (dom (dispose s)) Fixture.pane !! property = Some (CssLit ""))
       ["top"; "left"; "bottom"; "right"; "position"; "transform"]
  /\ Forall (fun property =>
               forall el, styleOf (dom (dispose s)) el !! property
                          = styleOf (dom s) el !! property)
       ["maxWidth"; "maxHeight"]
  /\ Forall (fun property =>
               styleOf (dom (_resetBoundingBoxStyles s)) Fixture.host !! property
               = Some (CssLit "0"))
       ["top"; "left"; "right"; "bottom"].
Proof.
  cbv zeta.
  refine (dispose_removes_the_positioning_styles
            (fst (apply Fixture.objects Fixture.parseFloat Fixture.coerceCssPixelValue
                    (Fixture.attached [0%nat])
                    (Fixture.browser (Fixture.rectAt 10 10 20 20) 30 30 0)))
            Fixture.host Fixture.pane _ _ _); vm_compute; reflexivity.
Defined.

(** ** The fallback, and the ends of the selection *)

Section Fallback.

Variable objects : PosRef -> ConnectedPosition.
Variable parseFloat : string -> JsNumber.
Variable coerceCssPixelValue : JsVal -> Css.

(** One turn of the loop for a position that fits neither completely nor
    with flexible dimensions. *)
Lemma positionsLoop_step_fallback (s : Strategy) (e : Env) (p : PosRef)
    (positions : list PosRef) (flexibleFits : list FlexibleFit)
    (fallback : option FallbackPosition) :
  fitsCompletely objects s e p = false ->
  fitsFlexibly objects parseFloat s e p = false ->
  positionsLoop objects parseFloat s e (p :: positions) flexibleFits fallback
  = positionsLoop objects parseFloat s e positions flexibleFits
      (match fallback with
       | Some previous =>
           if Qltb (visibleArea (fb_overlayFit previous)) (visibleAreaAt objects s e p)
           then Some (fallbackOf objects s e p) else fallback
       | None => Some (fallbackOf objects s e p)
       end).
Proof.
  unfold fitsCompletely, fitsFlexibly, overlayFitOf, overlayPointOf, originPointOf.
  intros Hcomplete Hflexible. cbn [positionsLoop]. rewrite Hcomplete, Hflexible. reflexivity.
Qed.

(** The loop over positions none of which fits, starting with a fallback:
    the fallback is kept unless a position shows strictly more of the
    overlay, and then the first of the positions showing most is kept. *)
Lemma positionsLoop_keeps_the_most_visible (s : Strategy) (e : Env)
    (positions : list PosRef) (flexibleFits : list FlexibleFit) :
  (forall p, In p positions -> fitsCompletely objects s e p = false) ->
  (forall p, In p positions -> fitsFlexibly objects parseFloat s e p = false) ->
  forall previous,
  (positionsLoop objects parseFloat s e positions flexibleFits (Some previous)
   = NoneFits flexibleFits (Some previous)
   /\ forall p, In p positions ->
        visibleAreaAt objects s e p <= visibleArea (fb_overlayFit previous))
  \/ exists before chosen after,
       positions = (before ++ chosen :: after)%list
       /\ positionsLoop objects parseFloat s e positions flexibleFits (Some previous)
          = NoneFits flexibleFits (Some (fallbackOf objects s e chosen))
       /\ visibleArea (fb_overlayFit previous) < visibleAreaAt objects s e chosen
       /\ (forall p, In p before ->
             visibleAreaAt objects s e p < visibleAreaAt objects s e chosen)
       /\ (forall p, In p after ->
             visibleAreaAt objects s e p <= visibleAreaAt objects s e chosen).
Proof.
  induction positions as [|p positions IH]; intros Hcomplete Hflexible previous.
  - left. split; [reflexivity|]. intros p [].
  - rewrite (positionsLoop_step_fallback s e p positions flexibleFits (Some previous)
               (Hcomplete p (or_introl eq_refl)) (Hflexible p (or_introl eq_refl))).
    assert (Hcomplete' : forall q, In q positions -> fitsCompletely objects s e q = false)
      by (intros q Hq; apply Hcomplete; right; exact Hq).
    assert (Hflexible' : forall q, In q positions ->
                                   fitsFlexibly objects parseFloat s e q = false)
      by (intros q Hq; apply Hflexible; right; exact Hq).
    destruct (Qltb (visibleArea (fb_overlayFit previous)) (visibleAreaAt objects s e p))
      eqn:Hmore.
    + apply Qltb_true in Hmore. right.
      destruct (IH Hcomplete' Hflexible' (fallbackOf objects s e p))
        as [[Hkept Hrest]|(before & chosen & after & Hlist & Hrun & Hbetter & Hbefore & Hafter)].
      * exists [], p, positions. repeat apply conj.
        -- reflexivity.
        -- exact Hkept.
        -- exact Hmore.
        -- intros q [].
        -- exact Hrest.
      * exists (p :: before), chosen, after. repeat apply conj.
        -- rewrite Hlist. reflexivity.
        -- exact Hrun.
        -- change (visibleArea (fb_overlayFit (fallbackOf objects s e p)))
             with (visibleAreaAt objects s e p) in Hbetter. lra.
        -- intros q [<-|Hq]; [exact Hbetter|apply Hbefore; exact Hq].
        -- exact Hafter.
    + apply Qltb_false in Hmore.
      destruct (IH Hcomplete' Hflexible' previous)
        as [[Hkept Hrest]|(before & chosen & after & Hlist & Hrun & Hbetter & Hbefore & Hafter)].
      * left. split; [exact Hkept|]. intros q [<-|Hq]; [exact Hmore|apply Hrest; exact Hq].
      * right. exists (p :: before), chosen, after. repeat apply conj.
        -- rewrite Hlist. reflexivity.
        -- exact Hrun.
        -- exact Hbetter.
        -- intros q [<-|Hq]; [lra|apply Hbefore; exact Hq].
        -- exact Hafter.
Qed.

(** The same loop from the start, over at least one position. *)
Lemma positionsLoop_most_visible (s : Strategy) (e : Env) (positions : list PosRef) :
  positions <> [] ->
  (forall p, In p positions -> fitsCompletely objects s e p = false) ->
  (forall p, In p positions -> fitsFlexibly objects parseFloat s e p = false) ->
  exists before chosen after,
    positions = (before ++ chosen :: after)%list
    /\ positionsLoop objects parseFloat s e positions [] None
       = NoneFits [] (Some (fallbackOf objects s e chosen))
    /\ (forall p, In p before ->
          visibleAreaAt objects s e p < visibleAreaAt objects s e chosen)
    /\ (forall p, In p after ->
          visibleAreaAt objects s e p <= visibleAreaAt objects s e chosen).
Proof.
  intros Hsome Hcomplete Hflexible.
  destruct positions as [|p positions]; [contradiction|].
  rewrite (positionsLoop_step_fallback s e p positions [] None
             (Hcomplete p (or_introl eq_refl)) (Hflexible p (or_introl eq_refl))).
  destruct (positionsLoop_keeps_the_most_visible s e positions []
              (fun q Hq => Hcomplete q (or_intror Hq))
              (fun q Hq => Hflexible q (or_intror Hq)) (fallbackOf objects s e p))
    as [[Hkept Hrest]|(before & chosen & after & Hlist & Hrun & Hbetter & Hbefore & Hafter)].
  - exists [], p, positions. repeat apply conj.
    + reflexivity.
    + exact Hkept.
    + intros q [].
    + exact Hrest.
  - exists (p :: before), chosen, after. repeat apply conj.
    + rewrite Hlist. reflexivity.
    + exact Hrun.
    + intros q [<-|Hq]; [exact Hbetter|apply Hbefore; exact Hq].
    + exact Hafter.
Qed.

(** X14: when [apply] runs the selection over at least one position and no
    position fits, completely or with flexible dimensions, it applies the
    position at which most of the overlay is visible, the first of them in
    list order when several show as much (a later position replaces the
    fallback only if it shows strictly more).  It returns normally; the
    overlay is then pushed if pushing is allowed, and otherwise keeps the
    [_isPushed] it had. *)
Theorem apply_falls_back_to_the_most_visible_position (s : Strategy) (e : Env)
    (pane : Element) :
  selects s e pane ->
  _preferredPositions s <> [] ->
  (forall p, In p (_preferredPositions s) ->
     fitsCompletely objects (beginApply s e pane) e p = false) ->
  (forall p, In p (_preferredPositions s) ->
     fitsFlexibly objects parseFloat (beginApply s e pane) e p = false) ->
  exists before chosen after s',
    _preferredPositions s = (before ++ chosen :: after)%list
    /\ (forall p, In p before ->
          visibleAreaAt objects (beginApply s e pane) e p
          < visibleAreaAt objects (beginApply s e pane) e chosen)
    /\ (forall p, In p after ->
          visibleAreaAt objects (beginApply s e pane) e p
          <= visibleAreaAt objects (beginApply s e pane) e chosen)
    /\ apply objects parseFloat coerceCssPixelValue s e = (s', Returned)
    /\ _lastPosition s' = Some chosen
    /\ _isPushed s' = (_canPush s || _isPushed s).
Proof.
  intros Hselects Hsome Hcomplete Hflexible.
  destruct (positionsLoop_most_visible (beginApply s e pane) e (_preferredPositions s)
              Hsome Hcomplete Hflexible)
    as (before & chosen & after & Hlist & Hrun & Hbefore & Hafter).
  exists before, chosen, after.
  rewrite (apply_selecting objects parseFloat coerceCssPixelValue s e pane Hselects).
  cbv zeta. rewrite beginApply_preferredPositions. rewrite Hrun.
  change (_canPush (beginApply s e pane)) with (_canPush s).
  cbn [fb_position fb_originPoint fallbackOf].
  destruct (_canPush s).
  - destruct (_applyPosition_fields objects coerceCssPixelValue
                (set_isPushed true (beginApply s e pane)) e chosen
                (originPointOf objects (beginApply s e pane) e chosen))
      as (size & amount & styles & Happlied).
    rewrite Happlied. eexists. repeat split; try assumption; reflexivity.
  - destruct (_applyPosition_fields objects coerceCssPixelValue
                (beginApply s e pane) e chosen
                (originPointOf objects (beginApply s e pane) e chosen))
      as (size & amount & styles & Happlied).
    rewrite Happlied. eexists. repeat split; try assumption; reflexivity.
Qed.

(** X15: when no position fits completely and positions were saved as
    flexible fits, but none of them scores above [-1] (the score the scan
    starts from), no best fit is found and [apply] throws a [TypeError]
    reading the position of [null]: it has reset the styles, measured and
    cleared [_isPushed], and it places nothing: the last position and the
    events sent are as before. *)
Theorem apply_throws_when_no_flexible_fit_scores_above_minus_one (s : Strategy) (e : Env)
    (pane : Element) :
  selects s e pane ->
  (forall p, In p (_preferredPositions s) ->
     fitsCompletely objects (beginApply s e pane) e p = false) ->
  recordedFits objects parseFloat (beginApply s e pane) e (_preferredPositions s) <> [] ->
  (forall f, In f (recordedFits objects parseFloat (beginApply s e pane) e
                     (_preferredPositions s)) -> score objects f <= -1) ->
  apply objects parseFloat coerceCssPixelValue s e
  = (set_isPushed false (beginApply s e pane), TypeError)
  /\ _lastPosition (fst (apply objects parseFloat coerceCssPixelValue s e)) = _lastPosition s
  /\ emitted (fst (apply objects parseFloat coerceCssPixelValue s e)) = emitted s.
Proof.
  intros Hselects Hnone Hsome Hlow.
  rewrite (apply_selecting objects parseFloat coerceCssPixelValue s e pane Hselects).
  cbv zeta. rewrite beginApply_preferredPositions.
  destruct (positionsLoop_none_fits objects parseFloat (beginApply s e pane) e
              (_preferredPositions s) Hnone [] None) as [fallback Hrun].
  rewrite Hrun. cbn [app].
  rewrite (bestFitLoop_none_better objects _ None (-1) Hlow).
  destruct (recordedFits objects parseFloat (beginApply s e pane) e (_preferredPositions s));
    [contradiction|].
  repeat split.
Qed.

(** X16: with an empty list of positions (a production build lets one
    through) and no last position, [apply] and [reapplyLastPosition] on a
    live, attached strategy in a browser throw a [TypeError], reading a
    property of [undefined]; nothing is placed: there is still no last
    position, no event is sent and the render stays as initial as it was. *)
Theorem no_position_to_apply (s : Strategy) (e : Env) (pane : Element) :
  _isDisposed s = false ->
  isBrowser e = true ->
  _pane s = Some pane ->
  is_Some (_boundingBox s) ->
  _preferredPositions s = [] ->
  _lastPosition s = None ->
  let applied := apply objects parseFloat coerceCssPixelValue s e in
  let reapplied := reapplyLastPosition objects coerceCssPixelValue s e in
  snd applied = TypeError /\ snd reapplied = TypeError
  /\ _lastPosition (fst applied) = None /\ _lastPosition (fst reapplied) = None
  /\ emitted (fst applied) = emitted s /\ emitted (fst reapplied) = emitted s
  /\ _isInitialRender (fst applied) = _isInitialRender s
  /\ _isInitialRender (fst reapplied) = _isInitialRender s.
Proof.
  intros Hlive Hbrowser Hpane Hbox Hnone Hlast. cbv zeta.
  assert (Hselects : selects s e pane).
  { unfold selects, lockedShortcut. rewrite Hlast.
    repeat split; try assumption. rewrite andb_false_r. reflexivity. }
  rewrite (apply_selecting objects parseFloat coerceCssPixelValue s e pane Hselects).
  cbv zeta. rewrite beginApply_preferredPositions, Hnone. cbn [positionsLoop].
  unfold reapplyLastPosition. rewrite Hlive, Hbrowser. cbn [negb andb].
  change (_pane (set_originRect (_getOriginRect s e) s)) with (_pane s). rewrite Hpane.
  cbn [_lastPosition _preferredPositions set_viewportRect set_overlayRect set_originRect].
  rewrite Hlast, Hnone. cbn [head].
  change (_canPush (beginApply s e pane)) with (_canPush s).
  destruct (_canPush s); repeat split; assumption.
Qed.

(** X17: [reapplyLastPosition] on a live strategy with a pane, in a browser,
    with no last position applies the first of the preferred positions: it
    measures the three rectangles and applies that position at its origin
    point, which becomes the last position; the render is no longer initial,
    and the event is sent as for any placement. *)
Theorem reapplyLastPosition_defaults_to_the_first_position (s : Strategy) (e : Env)
    (pane : Element) (first : PosRef) (rest : list PosRef) :
  _isDisposed s = false ->
  isBrowser e = true ->
  _pane s = Some pane ->
  _lastPosition s = None ->
  _preferredPositions s = first :: rest ->
  exists s',
    reapplyLastPosition objects coerceCssPixelValue s e = (s', Returned)
    /\ s' = _applyPosition objects coerceCssPixelValue (remeasure s e pane) e first
              (_getOriginPoint (isRtl e) (_getOriginRect s e) (objects first))
    /\ _lastPosition s' = Some first
    /\ _isInitialRender s' = false
    /\ emitted s' = afterApplying e first (emitted s).
Proof.
  intros Hlive Hbrowser Hpane Hlast Hlist.
  unfold reapplyLastPosition. rewrite Hlive, Hbrowser. cbn [negb andb].
  change (_pane (set_originRect (_getOriginRect s e) s)) with (_pane s). rewrite Hpane.
  cbn [_lastPosition _preferredPositions set_viewportRect set_overlayRect set_originRect].
  rewrite Hlast, Hlist. cbn [head].
  eexists. split; [reflexivity|]. split; [reflexivity|].
  rewrite _applyPosition_explicit. repeat split.
Qed.

(** X21: a change of the viewport makes a subscribed, live strategy select
    afresh, locked or not and whatever its last position: when the first of
    the preferred positions fits completely in the rectangles measured then,
    that position is applied, unpushed, and the lock is left as it is. *)
Theorem viewportChange_selects_afresh (s : Strategy) (e : Env) (pane : Element)
    (first : PosRef) (rest : list PosRef) :
  _resizeSubscription s = true ->
  _isDisposed s = false ->
  isBrowser e = true ->
  _pane s = Some pane ->
  is_Some (_boundingBox s) ->
  _preferredPositions s = first :: rest ->
  fitsCompletely objects (beginApply (set_isInitialRender true s) e pane) e first = true ->
  exists s',
    viewportChange objects parseFloat coerceCssPixelValue s e = (s', Returned)
    /\ _lastPosition s' = Some first
    /\ _isPushed s' = false
    /\ _isInitialRender s' = false
    /\ _positionLocked s' = _positionLocked s.
Proof.
  intros Hsubscribed Hlive Hbrowser Hpane Hbox Hlist Hfits.
  unfold viewportChange. rewrite Hsubscribed.
  assert (Hselects : selects (set_isInitialRender true s) e pane).
  { unfold selects, lockedShortcut. repeat split; assumption. }
  rewrite (apply_selecting objects parseFloat coerceCssPixelValue _ e pane Hselects).
  cbv zeta. rewrite beginApply_preferredPositions.
  change (_preferredPositions (set_isInitialRender true s)) with (_preferredPositions s).
  rewrite Hlist.
  rewrite (positionsLoop_first_fit objects parseFloat _ e [] rest first
             (fun p (H : In p []) => match H with end) Hfits).
  destruct (_applyPosition_fields objects coerceCssPixelValue
              (set_isPushed false (beginApply (set_isInitialRender true s) e pane)) e first
              (_getOriginPoint (isRtl e)
                 (_originRect (beginApply (set_isInitialRender true s) e pane))
                 (objects first)))
    as (size & amount & styles & Happlied).
  rewrite Happlied. eexists. repeat split.
Qed.

End Fallback.

Lemma apply_falls_back_to_the_most_visible_position_witness :
  let s := Fixture.attached [1; 0]%nat in
  let e := Fixture.browser (Fixture.rectAt 10 30 20 20) 30 80 0 in
  exists before chosen after s',
    _preferredPositions s = (before ++ chosen :: after)%list
    /\ (forall p, In p before ->
          visibleAreaAt Fixture.objects (beginApply s e Fixture.pane) e p
          < visibleAreaAt Fixture.objects (beginApply s e Fixture.pane) e chosen)
    /\ (forall p, In p after ->
          visibleAreaAt Fixture.objects (beginApply s e Fixture.pane) e p
          <= visibleAreaAt Fixture.objects (beginApply s e Fixture.pane) e chosen)
    /\ apply Fixture.objects Fixture.parseFloat Fixture.coerceCssPixelValue s e = (s', Returned)
    /\ _lastPosition s' = Some chosen
    /\ _isPushed s' = (_canPush s || _isPushed s).
Proof.
  cbv zeta.
  refine (apply_falls_back_to_the_most_visible_position Fixture.objects Fixture.parseFloat
            Fixture.coerceCssPixelValue (Fixture.attached [1; 0]%nat)
            (Fixture.browser (Fixture.rectAt 10 30 20 20) 30 80 0) Fixture.pane _ _ _ _).
  - repeat split; vm_compute; eauto.
  - discriminate.
  - intros p [<-|[<-|[]]]; vm_compute; reflexivity.
  - intros p [<-|[<-|[]]]; vm_compute; reflexivity.
Defined.

Lemma apply_throws_when_no_flexible_fit_scores_above_minus_one_witness :
  let weighted (_ : PosRef) := mkPos "start" "bottom" "start" "top" (Some (-1)) None None in
  let s := Fixture.attached [0%nat] in
  let e := Fixture.withMinimums JUndefined (JNum 10)
             (Fixture.browser (Fixture.rectAt 10 30 20 20) 30 80 0) in
  apply weighted Fixture.parseFloat Fixture.coerceCssPixelValue s e
  = (set_isPushed false (beginApply s e Fixture.pane), TypeError)
  /\ _lastPosition (fst (apply weighted Fixture.parseFloat Fixture.coerceCssPixelValue s e))
     = _lastPosition s
  /\ emitted (fst (apply weighted Fixture.parseFloat Fixture.coerceCssPixelValue s e))
     = emitted s.
Proof.
  cbv zeta.
  refine (apply_throws_when_no_flexible_fit_scores_above_minus_one
            (fun _ => mkPos "start" "bottom" "start" "top" (Some (-1)) None None)
            Fixture.parseFloat Fixture.coerceCssPixelValue (Fixture.attached [0%nat])
            (Fixture.withMinimums JUndefined (JNum 10)
               (Fixture.browser (Fixture.rectAt 10 30 20 20) 30 80 0)) Fixture.pane _ _ _ _).
  - repeat split; vm_compute; eauto.
  - intros p [<-|[]]. vm_compute. reflexivity.
  - vm_compute. discriminate.
  - intros f Hf. apply Qle_bool_iff. revert f Hf. apply forallb_forall.
    vm_compute. reflexivity.
Defined.

Lemma no_position_to_apply_witness :
  let e := Fixture.production (Fixture.browser (Fixture.rectAt 10 10 20 20) 30 30 1) in
  let s := fst (attach Fixture.objects (newStrategy (OriginElement Fixture.trigger)) e
                  Fixture.overlayRef) in
  let applied := apply Fixture.objects Fixture.parseFloat Fixture.coerceCssPixelValue s e in
  let reapplied := reapplyLastPosition Fixture.objects Fixture.coerceCssPixelValue s e in
  snd applied = TypeError /\ snd reapplied = TypeError
  /\ _lastPosition (fst applied) = None /\ _lastPosition (fst reapplied) = None
  /\ emitted (fst applied) = emitted s /\ emitted (fst reapplied) = emitted s
  /\ _isInitialRender (fst applied) = _isInitialRender s
  /\ _isInitialRender (fst reapplied) = _isInitialRender s.
Proof.
  cbv zeta.
  refine (no_position_to_apply Fixture.objects Fixture.parseFloat Fixture.coerceCssPixelValue
            (fst (attach Fixture.objects (newStrategy (OriginElement Fixture.trigger))
                    (Fixture.production (Fixture.browser (Fixture.rectAt 10 10 20 20) 30 30 1))
                    Fixture.overlayRef))
            (Fixture.production (Fixture.browser (Fixture.rectAt 10 10 20 20) 30 30 1))
            Fixture.pane _ _ _ _ _ _); vm_compute; eauto.
Defined.

Lemma reapplyLastPosition_defaults_to_the_first_position_witness :
  let e := Fixture.browser (Fixture.rectAt 10 10 20 20) 30 30 1 in
  let s := Fixture.attached [1; 0]%nat in
  exists s',
    reapplyLastPosition Fixture.objects Fixture.coerceCssPixelValue s e = (s', Returned)
    /\ s' = _applyPosition Fixture.objects Fixture.coerceCssPixelValue
              (remeasure s e Fixture.pane) e 1%nat
              (_getOriginPoint (isRtl e) (_getOriginRect s e) (Fixture.objects 1%nat))
    /\ _lastPosition s' = Some 1%nat
    /\ _isInitialRender s' = false
    /\ emitted s' = afterApplying e 1%nat (emitted s).
Proof.
  cbv zeta.
  refine (reapplyLastPosition_defaults_to_the_first_position Fixture.objects
            Fixture.coerceCssPixelValue (Fixture.attached [1; 0]%nat)
            (Fixture.browser (Fixture.rectAt 10 10 20 20) 30 30 1) Fixture.pane 1%nat [0%nat]
            _ _ _ _ _); reflexivity.
Defined.

Lemma viewportChange_selects_afresh_witness :
  let here := Fixture.browser (Fixture.rectAt 10 10 20 20) 30 80 0 in
  let there := Fixture.browser (Fixture.rectAt 10 80 20 20) 30 80 0 in
  let placed := fst (apply Fixture.objects Fixture.parseFloat Fixture.coerceCssPixelValue
                       (withLockedPosition (Fixture.attached [1; 0]%nat) true) here) in
  _lastPosition placed = Some 0%nat
  /\ exists s',
       viewportChange Fixture.objects Fixture.parseFloat Fixture.coerceCssPixelValue
         placed there = (s', Returned)
       /\ _lastPosition s' = Some 1%nat
       /\ _isPushed s' = false
       /\ _isInitialRender s' = false
       /\ _positionLocked s' = _positionLocked placed.
Proof.
  cbv zeta. split; [vm_compute; reflexivity|].
  refine (viewportChange_selects_afresh Fixture.objects Fixture.parseFloat
            Fixture.coerceCssPixelValue
            (fst (apply Fixture.objects Fixture.parseFloat Fixture.coerceCssPixelValue
                    (withLockedPosition (Fixture.attached [1; 0]%nat) true)
                    (Fixture.browser (Fixture.rectAt 10 10 20 20) 30 80 0)))
            (Fixture.browser (Fixture.rectAt 10 80 20 20) 30 80 0) Fixture.pane 1%nat [0%nat]
            _ _ _ _ _ _ _); vm_compute; eauto.
Defined.

(** ** The life of a strategy *)

Lemma validateHorizontalPosition_valid (property value : string) :
  horizontal value -> validateHorizontalPosition property value = None.
Proof. intros [-> | [-> | ->]]; reflexivity. Qed.

Lemma validateVerticalPosition_valid (property value : string) :
  vertical value -> validateVerticalPosition property value = None.
Proof. intros [-> | [-> | ->]]; reflexivity. Qed.

Lemma validatePair_returns (pair : ConnectedPosition) :
  valid pair -> validatePair pair = None.
Proof.
  intros (H1 & H2 & H3 & H4). unfold validatePair.
  rewrite (validateHorizontalPosition_valid _ _ H1), (validateVerticalPosition_valid _ _ H2),
    (validateHorizontalPosition_valid _ _ H3), (validateVerticalPosition_valid _ _ H4).
  reflexivity.
Qed.

Lemma OverlayReference_eqb_refl (overlayRef : OverlayReference) :
  OverlayReference_eqb overlayRef overlayRef = true.
Proof. unfold OverlayReference_eqb. rewrite !Nat.eqb_refl. reflexivity. Qed.

Lemma placement_none (s : Strategy) (e : Env) (s' : Strategy) :
  attachment s' = attachment s ->
  emitted s' = emitted s ->
  _lastPosition s' = _lastPosition s ->
  _previousPushAmount s' = _previousPushAmount s ->
  placement s e s'.
Proof.
  intros Hattachment Hemitted Hlast Hpush. repeat split; try assumption.
  exists []. repeat split; [exact Hemitted|cbn; lia].
Qed.

Section Life.

Variable objects : PosRef -> ConnectedPosition.
Variable parseFloat : string -> JsNumber.
Variable coerceCssPixelValue : JsVal -> Css.

(** A list of valid positions passes [_validatePositions] in every build. *)
Lemma _validatePositions_returns (s : Strategy) (e : Env) :
  _preferredPositions s <> [] ->
  (forall p, In p (_preferredPositions s) -> valid (objects p)) ->
  _validatePositions objects s e = None.
Proof.
  intros Hsome Hvalid. unfold _validatePositions.
  destruct (ngDevMode e); [|reflexivity].
  destruct (_preferredPositions s) as [|first rest] eqn:Hpositions; [contradiction|].
  clear Hsome Hpositions. revert Hvalid. generalize (first :: rest). intros positions Hvalid.
  induction positions as [|p positions IH]; [reflexivity|].
  cbn [fold_left andThen].
  rewrite (validatePair_returns _ (Hvalid p (or_introl eq_refl))).
  apply IH. intros q Hq. apply Hvalid. right. exact Hq.
Qed.

(** [attach] when nothing is wrong. *)
Lemma attach_returns (s : Strategy) (e : Env) (overlayRef : OverlayReference) :
  (forall current, _overlayRef s = Some current ->
                   OverlayReference_eqb overlayRef current = true \/ ngDevMode e = false) ->
  _validatePositions objects s e = None ->
  attach objects s e overlayRef
  = (set_resizeSubscription true
       (set_lastPosition None
          (set_isInitialRender true
             (set_isDisposed false
                (set_pane (Some (overlayElement overlayRef))
                   (set_boundingBox (Some (hostElement overlayRef))
                      (set_overlayRef (Some overlayRef) s)))))),
     Returned).
Proof.
  intros Hsame Hvalid. unfold attach. rewrite Hvalid.
  destruct (_overlayRef s) as [current|]; [|reflexivity].
  destruct (Hsame current eq_refl) as [-> | ->]; rewrite ?andb_false_r; reflexivity.
Qed.

(** X18: [dispose] is final.  A disposed strategy is marked as such, and
    neither [apply], nor [reapplyLastPosition], nor another [dispose]
    changes it, in any surroundings.  Disposing of a live strategy releases
    the overlay and the bounding box, forgets the last position and the push
    amount and ends the subscription to the viewport, a change of which
    changes nothing any more. *)
Theorem dispose_is_final (s : Strategy) (e : Env) :
  let disposed := dispose s in
  _isDisposed disposed = true
  /\ apply objects parseFloat coerceCssPixelValue disposed e = (disposed, Returned)
  /\ reapplyLastPosition objects coerceCssPixelValue disposed e = (disposed, Returned)
  /\ dispose disposed = disposed
  /\ (_isDisposed s = false ->
      _overlayRef disposed = None /\ _boundingBox disposed = None
      /\ _lastPosition disposed = None /\ _previousPushAmount disposed = None
      /\ _resizeSubscription disposed = false
      /\ viewportChange objects parseFloat coerceCssPixelValue disposed e
         = (disposed, Returned)).
Proof.
  cbv zeta.
  assert (Hdisposed : _isDisposed (dispose s) = true).
  { unfold dispose. destruct (_isDisposed s) eqn:H; [exact H|reflexivity]. }
  repeat apply conj.
  - exact Hdisposed.
  - unfold apply. rewrite Hdisposed. reflexivity.
  - unfold reapplyLastPosition. rewrite Hdisposed. reflexivity.
  - unfold dispose at 1. rewrite Hdisposed. reflexivity.
  - intros Hlive. unfold dispose. rewrite Hlive. repeat apply conj; reflexivity.
Qed.

(** X19: [dispose] releases the overlay, [detach] does not.  In a
    development build, a live strategy attached to an overlay, with a
    non-empty list of valid positions, cannot be attached to another overlay
    after [detach]: [attach] throws and changes nothing, while attaching it
    again to its own overlay returns.  After [dispose] it can be attached to
    the other overlay: [attach] returns, and the strategy is live again,
    holds the elements of the new overlay, is on its initial render and
    follows the viewport. *)
Theorem dispose_releases_the_overlay_and_detach_does_not (s : Strategy) (e : Env)
    (current other : OverlayReference) :
  ngDevMode e = true ->
  _overlayRef s = Some current ->
  _isDisposed s = false ->
  OverlayReference_eqb other current = false ->
  _preferredPositions s <> [] ->
  (forall p, In p (_preferredPositions s) -> valid (objects p)) ->
  attach objects (detach s) e other
  = (detach s, Threw "This position strategy is already attached to an overlay")
  /\ snd (attach objects (detach s) e current) = Returned
  /\ snd (attach objects (dispose s) e other) = Returned
  /\ attachedTo (fst (attach objects (dispose s) e other)) other
  /\ _isInitialRender (fst (attach objects (dispose s) e other)) = true
  /\ _resizeSubscription (fst (attach objects (dispose s) e other)) = true.
Proof.
  intros Hdev Hcurrent Hlive Hother Hsome Hvalid.
  assert (Hchecked : forall t, _preferredPositions t = _preferredPositions s ->
                               _validatePositions objects t e = None).
  { intros t Hsame. apply _validatePositions_returns; rewrite Hsame; assumption. }
  assert (Hrevived := attach_returns (dispose s) e other).
  rewrite Hrevived.
  - split; [|split].
    + unfold attach. cbn [_overlayRef detach set_resizeSubscription set_previousPushAmount
                          set_lastPosition].
      rewrite Hcurrent, Hother, Hdev. reflexivity.
    + rewrite attach_returns; [reflexivity| |apply Hchecked; reflexivity].
      intros ref Href. left. cbn in Href. rewrite Hcurrent in Href. injection Href as <-.
      apply OverlayReference_eqb_refl.
    + repeat split.
  - unfold dispose. rewrite Hlive. cbn. discriminate.
  - apply Hchecked. unfold dispose. rewrite Hlive. reflexivity.
Qed.

(** X20: [detach] forgets the placement.  After it the next [apply] never
    takes the locked shortcut, a change of the viewport changes nothing, and
    a push is computed as if the position were not locked; the overlay, the
    pane, the bounding box, the styles and the disposed flag are as they
    were.  ([detach] also clears the classes of the panel, see
    [_clearPanelClasses].) *)
Theorem detach_forgets_the_placement (s : Strategy) (e : Env) (start : Point)
    (rawOverlayRect : ClientRect) (scrollPosition : ViewportScrollPosition) :
  let detached := detach s in
  lockedShortcut detached = false
  /\ viewportChange objects parseFloat coerceCssPixelValue detached e = (detached, Returned)
  /\ snd (_pushOverlayOnScreen detached start rawOverlayRect scrollPosition)
     = snd (_pushOverlayOnScreen (withLockedPosition s false) start rawOverlayRect
              scrollPosition)
  /\ _overlayRef detached = _overlayRef s
  /\ _pane detached = _pane s
  /\ _boundingBox detached = _boundingBox s
  /\ _isDisposed detached = _isDisposed s
  /\ dom detached = dom s.
Proof.
  cbv zeta. repeat apply conj; try reflexivity.
  - unfold lockedShortcut, detach. cbn. rewrite andb_false_r. reflexivity.
  - unfold _pushOverlayOnScreen, detach, withLockedPosition. cbn.
    destruct (_previousPushAmount s); reflexivity.
Qed.

(** What a placement leaves of a strategy other than its styles. *)
Lemma _applyPosition_attachment (s : Strategy) (e : Env) (position : PosRef)
    (originPoint : Point) :
  attachment (_applyPosition objects coerceCssPixelValue s e position originPoint)
  = attachment s
  /\ exists new,
       emitted (_applyPosition objects coerceCssPixelValue s e position originPoint)
       = (new ++ emitted s)%list
       /\ (length new <= 1)%nat
       /\ (observers e = 0%nat -> new = []).
Proof.
  rewrite _applyPosition_explicit. split; [reflexivity|].
  cbn [emitted]. unfold afterApplying.
  destruct (observers e) as [|n]; cbn [Nat.ltb Nat.leb].
  - exists []. repeat split. cbn. lia.
  - exists [mkChange position (scrollVisibility e)]. repeat split; [cbn; lia|discriminate].
Qed.

Lemma placement_applied (s : Strategy) (e : Env) (given : Strategy) (position : PosRef)
    (originPoint : Point) :
  attachment given = attachment s ->
  emitted given = emitted s ->
  is_Some (_pane s) ->
  _isDisposed s = false ->
  placement s e (_applyPosition objects coerceCssPixelValue given e position originPoint).
Proof.
  intros Hattachment Hemitted [pane Hpane] Hlive.
  destruct (_applyPosition_attachment given e position originPoint) as [Hkept Hnew].
  repeat split.
  - rewrite Hkept. exact Hattachment.
  - rewrite <- Hemitted. exact Hnew.
  - destruct H as [Hnone|Hdisposed]; congruence.
  - destruct H as [Hnone|Hdisposed]; congruence.
Qed.

Lemma reapplyLastPosition_placement (s : Strategy) (e : Env) :
  placement s e (fst (reapplyLastPosition objects coerceCssPixelValue s e)).
Proof.
  unfold reapplyLastPosition.
  destruct (_isDisposed s) eqn:Hlive; cbn [negb andb];
    [apply placement_none; reflexivity|].
  destruct (isBrowser e); [|apply placement_none; reflexivity].
  change (_pane (set_originRect (_getOriginRect s e) s)) with (_pane s).
  destruct (_pane s) as [pane|] eqn:Hpane; [|apply placement_none; reflexivity].
  match goal with
  | |- context [match ?chosen with Some _ => _ | None => (?t, TypeError) end] =>
      destruct chosen as [lastPosition|]; [|apply placement_none; reflexivity]
  end.
  cbn [fst]. apply placement_applied; [reflexivity|reflexivity|eauto|exact Hlive].
Qed.

Lemma apply_placement (s : Strategy) (e : Env) :
  placement s e (fst (apply objects parseFloat coerceCssPixelValue s e)).
Proof.
  unfold apply.
  destruct (_isDisposed s) eqn:Hlive; cbn [orb]; [apply placement_none; reflexivity|].
  destruct (negb (isBrowser e)); [apply placement_none; reflexivity|].
  destruct (negb (_isInitialRender s) && _positionLocked s
            && bool_decide (is_Some (_lastPosition s))).
  { apply reapplyLastPosition_placement. }
  destruct (_pane s) as [pane|] eqn:Hpane; [|apply placement_none; reflexivity].
  destruct (_boundingBox s) as [box|] eqn:Hbox; [|apply placement_none; reflexivity].
  cbv zeta.
  assert (Hbegun : attachment (beginApply s e pane) = attachment s
                   /\ emitted (beginApply s e pane) = emitted s
                   /\ _lastPosition (beginApply s e pane) = _lastPosition s
                   /\ _previousPushAmount (beginApply s e pane) = _previousPushAmount s).
  { repeat split. }
  revert Hbegun. generalize (beginApply s e pane).
  intros t (Hattachment & Hemitted & Hlast & Hpush).
  assert (Hplaced : forall given position originPoint,
             attachment given = attachment t -> emitted given = emitted t ->
             placement s e (_applyPosition objects coerceCssPixelValue given e position
                              originPoint)).
  { intros given position originPoint Hsame Hsame'.
    apply placement_applied; [congruence|congruence|rewrite Hpane; eauto|exact Hlive]. }
  assert (Hthrown : forall given,
             attachment given = attachment t -> emitted given = emitted t ->
             _lastPosition given = _lastPosition t ->
             _previousPushAmount given = _previousPushAmount t ->
             placement s e given).
  { intros given H1 H2 H3 H4. apply placement_none; congruence. }
  destruct (positionsLoop _ _ _ _ _ _ _) as [pos originPoint|[|fit fits] fallback].
  - apply Hplaced; reflexivity.
  - destruct (_canPush t), fallback as [f|]; cbn [fst];
      first [apply Hplaced; reflexivity | apply Hthrown; reflexivity].
  - destruct (bestFitLoop _ _ _ _) as [best|]; cbn [fst];
      first [apply Hplaced; reflexivity | apply Hthrown; reflexivity].
Qed.

Lemma viewportChange_placement (s : Strategy) (e : Env) :
  placement s e (fst (viewportChange objects parseFloat coerceCssPixelValue s e)).
Proof.
  unfold viewportChange. destruct (_resizeSubscription s); [|apply placement_none; reflexivity].
  exact (apply_placement (set_isInitialRender true s) e).
Qed.

(** X23: every call, and every change of the viewport, sends at most one
    event to [positionChanges], after those sent before, none of which is
    dropped or reordered; it sends none while the subject has no observer,
    and only [apply], [reapplyLastPosition] and a change of the viewport
    ever send one. *)
Theorem each_call_sends_at_most_one_event (call : Call) (s : Strategy) (e : Env) :
  exists new,
    emitted (run objects parseFloat coerceCssPixelValue call s e) = (new ++ emitted s)%list
    /\ (length new <= 1)%nat
    /\ (observers e = 0%nat -> new = [])
    /\ (places call = false -> new = []).
Proof.
  assert (Hnone : emitted (run objects parseFloat coerceCssPixelValue call s e) = emitted s ->
                  exists new,
                    emitted (run objects parseFloat coerceCssPixelValue call s e)
                    = (new ++ emitted s)%list
                    /\ (length new <= 1)%nat
                    /\ (observers e = 0%nat -> new = [])
                    /\ (places call = false -> new = [])).
  { intros Hsame. exists []. repeat split; [exact Hsame|cbn; lia]. }
  assert (Hplaced : places call = true ->
                    placement s e (run objects parseFloat coerceCssPixelValue call s e) ->
                    exists new,
                      emitted (run objects parseFloat coerceCssPixelValue call s e)
                      = (new ++ emitted s)%list
                      /\ (length new <= 1)%nat
                      /\ (observers e = 0%nat -> new = [])
                      /\ (places call = false -> new = [])).
  { intros Hplaces (_ & (new & H1 & H2 & H3) & _). exists new. repeat split; try assumption.
    rewrite Hplaces. discriminate. }
  destruct call; cbn [run] in *; try (apply Hnone; reflexivity).
  - apply Hnone. unfold attach. destruct (andThen _ _); reflexivity.
  - apply Hplaced; [reflexivity|apply apply_placement].
  - apply Hnone. unfold dispose. destruct (_isDisposed s); reflexivity.
  - apply Hplaced; [reflexivity|apply reapplyLastPosition_placement].
  - apply Hnone. unfold withPositions. cbn [_lastPosition set_preferredPositions].
    destruct (notPartOf positions (_lastPosition s)), (_validatePositions _ _ _); reflexivity.
  - apply Hplaced; [reflexivity|apply viewportChange_placement].
Qed.

(** A call leaves a strategy attached to an overlay or to none. *)
Lemma run_attachment (call : Call) (s : Strategy) (e : Env) :
  (exists overlayRef, attachedTo s overlayRef) \/ unattached s ->
  (exists overlayRef,
     attachedTo (run objects parseFloat coerceCssPixelValue call s e) overlayRef)
  \/ unattached (run objects parseFloat coerceCssPixelValue call s e).
Proof.
  assert (Hplacement : forall s',
             placement s e s' ->
             (exists overlayRef, attachedTo s overlayRef) \/ unattached s ->
             (exists overlayRef, attachedTo s' overlayRef) \/ unattached s').
  { intros s' (Hattachment & _ & Hidle). unfold attachment in Hattachment.
    injection Hattachment as Href Hpane Hbox Hdisposed Hsubscribed.
    intros [[overlayRef (H1 & H2 & H3 & H4)]|(H1 & H2 & H3 & H4 & H5 & H6)].
    - left. exists overlayRef. unfold attachedTo. repeat split; congruence.
    - right. destruct (Hidle H6) as [Hlast Hpush].
      unfold unattached. repeat split; congruence. }
  intros Hbefore.
  destruct call; cbn [run];
    try (apply Hplacement;
         [first [apply apply_placement | apply reapplyLastPosition_placement
                | apply viewportChange_placement]
         |exact Hbefore]).
  - unfold attach. destruct (andThen _ _); [exact Hbefore|].
    left. exists overlayRef. repeat split.
  - destruct Hbefore as [[overlayRef (H1 & H2 & H3 & H4)]|(H1 & H2 & H3 & H4 & H5 & H6)].
    + left. exists overlayRef. repeat split; assumption.
    + right. repeat split; assumption.
  - unfold dispose. destruct (_isDisposed s) eqn:Hlive; [exact Hbefore|].
    right. repeat split. right. reflexivity.
  - unfold withPositions. cbn [_lastPosition set_preferredPositions].
    destruct Hbefore as [[overlayRef (H1 & H2 & H3 & H4)]|(H1 & H2 & H3 & H4 & H5 & H6)].
    + left. exists overlayRef.
      destruct (notPartOf positions (_lastPosition s)), (_validatePositions _ _ _);
        repeat split; assumption.
    + right.
      destruct (notPartOf positions (_lastPosition s)), (_validatePositions _ _ _);
        repeat split; assumption.
  - exact Hbefore.
  - exact Hbefore.
  - exact Hbefore.
  - exact Hbefore.
  - exact Hbefore.
  - exact Hbefore.
  - exact Hbefore.
  - exact Hbefore.
Qed.

(** X22: a strategy a consumer can get to is attached to an overlay, whose
    elements it holds and being live, or it remembers nothing: it has no
    overlay, no bounding box, no last position, no push amount and no
    subscription to the viewport, and it has no pane or is disposed of.  So
    a strategy with a last position, or one that follows the viewport, is
    attached; and an [apply] that takes the locked shortcut never throws. *)
Theorem strategy_is_attached_or_remembers_nothing (s : Strategy) :
  reachable objects parseFloat coerceCssPixelValue s ->
  ((exists overlayRef, attachedTo s overlayRef) \/ unattached s)
  /\ (is_Some (_lastPosition s) -> exists overlayRef, attachedTo s overlayRef)
  /\ (_resizeSubscription s = true -> exists overlayRef, attachedTo s overlayRef)
  /\ (forall e, lockedShortcut s = true ->
                snd (apply objects parseFloat coerceCssPixelValue s e) = Returned).
Proof.
  intros Hreachable.
  assert (Hattachment : (exists overlayRef, attachedTo s overlayRef) \/ unattached s).
  { induction Hreachable as [connectedTo|s call e _ IH].
    - right. repeat split. left. reflexivity.
    - apply run_attachment. exact IH. }
  assert (Hremembers : is_Some (_lastPosition s) -> exists overlayRef, attachedTo s overlayRef).
  { intros [position Hlast].
    destruct Hattachment as [Hattached|(_ & _ & _ & Hnone & _)]; [exact Hattached|congruence]. }
  repeat apply conj.
  - exact Hattachment.
  - exact Hremembers.
  - intros Hsubscribed.
    destruct Hattachment as [Hattached|(_ & _ & Hnone & _)]; [exact Hattached|congruence].
  - intros e Hlocked.
    assert (Hlast : is_Some (_lastPosition s)).
    { unfold lockedShortcut in Hlocked. apply andb_prop in Hlocked.
      destruct Hlocked as [_ Hlast]. apply bool_decide_eq_true in Hlast. exact Hlast. }
    destruct (Hremembers Hlast) as [overlayRef (_ & Hpane & _ & Hlive)].
    destruct Hlast as [position Hlast].
    destruct (isBrowser e) eqn:Hbrowser.
    + rewrite (apply_locked objects parseFloat coerceCssPixelValue s e position
                 Hlocked Hlive Hbrowser Hlast).
      rewrite Hpane. reflexivity.
    + unfold apply. rewrite Hbrowser, orb_true_r. reflexivity.
Qed.

(** X28: a strategy fresh from the builder has no positions.  In a
    development build [attach] throws for the lack of one and leaves the
    strategy as built; once [withPositions] has given it a non-empty list of
    valid positions, which returns, [attach] returns: the strategy holds the
    overlay's elements, is live and, in a browser, the next [apply] runs the
    selection. *)
Theorem flexibleConnectedTo_needs_positions (origin : Origin) (e : Env)
    (overlayRef : OverlayReference) (positions : list PosRef) :
  ngDevMode e = true ->
  positions <> [] ->
  (forall p, In p positions -> valid (objects p)) ->
  let built := flexibleConnectedTo origin in
  let configured := fst (withPositions objects built e positions) in
  attach objects built e overlayRef
  = (built, Threw "FlexibleConnectedPositionStrategy: At least one position is required.")
  /\ withPositions objects built e positions
     = (set_preferredPositions positions built, Returned)
  /\ snd (attach objects configured e overlayRef) = Returned
  /\ attachedTo (fst (attach objects configured e overlayRef)) overlayRef
  /\ (isBrowser e = true ->
      selects (fst (attach objects configured e overlayRef)) e (overlayElement overlayRef)).
Proof.
  intros Hdev Hsome Hvalid. cbv zeta.
  assert (Hchecked : _validatePositions objects
                       (set_preferredPositions positions (flexibleConnectedTo origin)) e
                     = None).
  { apply _validatePositions_returns; assumption. }
  assert (Hconfigured : withPositions objects (flexibleConnectedTo origin) e positions
                        = (set_preferredPositions positions (flexibleConnectedTo origin),
                           Returned)).
  { unfold withPositions.
    change (_validatePositions objects _ e)
      with (_validatePositions objects
              (set_preferredPositions positions (flexibleConnectedTo origin)) e).
    rewrite Hchecked. reflexivity. }
  rewrite Hconfigured. cbn [fst].
  split; [unfold attach, _validatePositions; rewrite Hdev; reflexivity|].
  split; [reflexivity|].
  rewrite attach_returns;
    [|intros current Hcurrent; discriminate|exact Hchecked].
  split; [reflexivity|]. split; [repeat split|].
  intros Hbrowser. repeat split; [exact Hbrowser|]. cbn. eauto.
Qed.

End Life.

Lemma dispose_releases_the_overlay_and_detach_does_not_witness :
  let e := Fixture.browser (Fixture.rectAt 10 10 20 20) 30 30 0 in
  let s := Fixture.attached [0%nat] in
  let other := mkOverlayRef 5%nat 6%nat in
  attach Fixture.objects (detach s) e other
  = (detach s, Threw "This position strategy is already attached to an overlay")
  /\ snd (attach Fixture.objects (detach s) e Fixture.overlayRef) = Returned
  /\ snd (attach Fixture.objects (dispose s) e other) = Returned
  /\ attachedTo (fst (attach Fixture.objects (dispose s) e other)) other
  /\ _isInitialRender (fst (attach Fixture.objects (dispose s) e other)) = true
  /\ _resizeSubscription (fst (attach Fixture.objects (dispose s) e other)) = true.
Proof.
  cbv zeta.
  refine (dispose_releases_the_overlay_and_detach_does_not Fixture.objects
            (Fixture.attached [0%nat]) (Fixture.browser (Fixture.rectAt 10 10 20 20) 30 30 0)
            Fixture.overlayRef (mkOverlayRef 5%nat 6%nat) _ _ _ _ _ _).
  - reflexivity.
  - reflexivity.
  - reflexivity.
  - reflexivity.
  - discriminate.
  - intros p [<-|[]]. repeat split; vm_compute; auto.
Defined.

Lemma strategy_is_attached_or_remembers_nothing_witness :
  let e := Fixture.browser (Fixture.rectAt 10 10 20 20) 30 30 0 in
  let run := run Fixture.objects Fixture.parseFloat Fixture.coerceCssPixelValue in
  let s :=
    run Apply
      (run (WithLockedPosition true)
         (run (Attach Fixture.overlayRef)
            (run (WithPositions [1; 0]%nat) (newStrategy (OriginElement Fixture.trigger)) e)
            e) e) e in
  lockedShortcut s = true
  /\ ((exists overlayRef, attachedTo s overlayRef) \/ unattached s)
  /\ (is_Some (_lastPosition s) -> exists overlayRef, attachedTo s overlayRef)
  /\ (_resizeSubscription s = true -> exists overlayRef, attachedTo s overlayRef)
  /\ (forall e, lockedShortcut s = true ->
                snd (apply Fixture.objects Fixture.parseFloat Fixture.coerceCssPixelValue s e)
                = Returned).
Proof.
  cbv zeta. split; [vm_compute; reflexivity|].
  refine (strategy_is_attached_or_remembers_nothing Fixture.objects Fixture.parseFloat
            Fixture.coerceCssPixelValue _ _).
  do 4 apply reachable_run. apply reachable_new.
Defined.

Lemma flexibleConnectedTo_needs_positions_witness :
  let e := Fixture.browser (Fixture.rectAt 10 10 20 20) 30 30 0 in
  let built := flexibleConnectedTo (OriginElement Fixture.trigger) in
  let configured := fst (withPositions Fixture.objects built e [0; 1]%nat) in
  attach Fixture.objects built e Fixture.overlayRef
  = (built, Threw "FlexibleConnectedPositionStrategy: At least one position is required.")
  /\ withPositions Fixture.objects built e [0; 1]%nat
     = (set_preferredPositions [0; 1]%nat built, Returned)
  /\ snd (attach Fixture.objects configured e Fixture.overlayRef) = Returned
  /\ attachedTo (fst (attach Fixture.objects configured e Fixture.overlayRef))
       Fixture.overlayRef
  /\ (isBrowser e = true ->
      selects (fst (attach Fixture.objects configured e Fixture.overlayRef)) e
        (overlayElement Fixture.overlayRef)).
Proof.
  cbv zeta.
  refine (flexibleConnectedTo_needs_positions Fixture.objects (OriginElement Fixture.trigger)
            (Fixture.browser (Fixture.rectAt 10 10 20 20) 30 30 0) Fixture.overlayRef
            [0; 1]%nat _ _ _).
  - reflexivity.
  - discriminate.
  - intros p [<-|[<-|[]]]; repeat split; vm_compute; auto.
Defined.

(** ** The classes of the panel and the transform origin *)

Lemma existsb_eqb_false (cssClass : string) (classes : list string) :
  existsb (String.eqb cssClass) classes = false <-> ~ In cssClass classes.
Proof.
  split.
  - intros Hnone Hin. assert (H : existsb (String.eqb cssClass) classes = true).
    { apply existsb_exists. exists cssClass. split; [exact Hin|apply String.eqb_refl]. }
    congruence.
  - intros Hnot. destruct (existsb (String.eqb cssClass) classes) eqn:H; [|reflexivity].
    apply existsb_exists in H. destruct H as (c & Hin & Heq). apply String.eqb_eq in Heq.
    subst c. contradiction.
Qed.

(** Adding classes one by one: what is new is appended, once, and added to
    the pane in the same order. *)
Lemma addPanelClass_fold (pane : Element) (classes : list string) :
  forall p : PanelClasses,
  NoDup (_appliedPanelClasses p) ->
  exists new,
    _appliedPanelClasses (fold_left (addPanelClass pane) classes p)
    = (_appliedPanelClasses p ++ new)%list
    /\ classListCalls (fold_left (addPanelClass pane) classes p)
       = (classListCalls p ++ map (ClassListAdd pane) new)%list
    /\ NoDup (_appliedPanelClasses p ++ new)
    /\ (forall c, In c new <->
                  In c classes /\ c <> "" /\ ~ In c (_appliedPanelClasses p)).
Proof.
  induction classes as [|cssClass classes IH]; intros p Hnodup.
  - exists []. cbn [fold_left map]. rewrite !app_nil_r.
    split; [reflexivity|]. split; [reflexivity|]. split; [exact Hnodup|].
    intros c. split; [intros []|intros [[] _]].
  - cbn [fold_left].
    assert (Hskip : cssClass = "" \/ In cssClass (_appliedPanelClasses p) ->
                    addPanelClass pane p cssClass = p).
    { unfold addPanelClass. intros [-> | Hthere]; [reflexivity|].
      assert (H : existsb (String.eqb cssClass) (_appliedPanelClasses p) = true).
      { apply existsb_exists. exists cssClass. split; [exact Hthere|apply String.eqb_refl]. }
      rewrite H, andb_false_r. reflexivity. }
    assert (Hskipped : cssClass = "" \/ In cssClass (_appliedPanelClasses p) ->
                       exists new,
                         _appliedPanelClasses
                           (fold_left (addPanelClass pane) classes (addPanelClass pane p cssClass))
                         = (_appliedPanelClasses p ++ new)%list
                         /\ classListCalls
                              (fold_left (addPanelClass pane) classes
                                 (addPanelClass pane p cssClass))
                            = (classListCalls p ++ map (ClassListAdd pane) new)%list
                         /\ NoDup (_appliedPanelClasses p ++ new)
                         /\ (forall c, In c new <->
                                       In c (cssClass :: classes) /\ c <> ""
                                       /\ ~ In c (_appliedPanelClasses p))).
    { intros Hwhy. rewrite (Hskip Hwhy).
      destruct (IH p Hnodup) as (new & Happlied & Hcalls & Hnew & Hin).
      exists new. split; [exact Happlied|]. split; [exact Hcalls|]. split; [exact Hnew|].
      intros c. rewrite Hin. split.
      - intros (H1 & H2 & H3). split; [right; exact H1|]. split; assumption.
      - intros ([<-|H1] & H2 & H3); [destruct Hwhy; contradiction|].
        split; [exact H1|]. split; assumption. }
    destruct (String.eqb cssClass "") eqn:Hempty.
    { apply String.eqb_eq in Hempty. apply Hskipped. left. exact Hempty. }
    apply String.eqb_neq in Hempty.
    destruct (existsb (String.eqb cssClass) (_appliedPanelClasses p)) eqn:Hthere.
    { apply existsb_exists in Hthere. destruct Hthere as (c & Hc & Heq).
      apply String.eqb_eq in Heq. subst c. apply Hskipped. right. exact Hc. }
    clear Hskip Hskipped.
    assert (Hnew : ~ In cssClass (_appliedPanelClasses p))
      by (apply existsb_eqb_false; exact Hthere).
    assert (Hstep : addPanelClass pane p cssClass
                    = {| _appliedPanelClasses := (_appliedPanelClasses p ++ [cssClass])%list;
                         classListCalls :=
                           (classListCalls p ++ [ClassListAdd pane cssClass])%list |}).
    { unfold addPanelClass. apply String.eqb_neq in Hempty. rewrite Hempty, Hthere.
      reflexivity. }
    rewrite Hstep.
    assert (Hnodup' : NoDup (_appliedPanelClasses p ++ [cssClass])).
    { apply NoDup_app. split; [exact Hnodup|]. split; [|apply NoDup_singleton].
      intros c Hc Hc'. apply list_elem_of_singleton in Hc'. subst c.
      apply Hnew. apply list_elem_of_In. exact Hc. }
    destruct (IH {| _appliedPanelClasses := (_appliedPanelClasses p ++ [cssClass])%list;
                    classListCalls := (classListCalls p ++ [ClassListAdd pane cssClass])%list |}
                Hnodup') as (new & Happlied & Hcalls & Hnodup'' & Hin).
    cbn [_appliedPanelClasses classListCalls] in *.
    exists (cssClass :: new).
    split; [rewrite Happlied, <- app_assoc; reflexivity|].
    split; [rewrite Hcalls, <- app_assoc; reflexivity|].
    split; [rewrite <- app_assoc in Hnodup''; exact Hnodup''|].
    intros c. split.
    + intros [<-|H].
      * split; [left; reflexivity|]. split; assumption.
      * apply Hin in H. destruct H as (H1 & H2 & H3).
        split; [right; exact H1|]. split; [exact H2|].
        intros Hc. apply H3. apply in_or_app. left. exact Hc.
    + intros ([<-|H1] & H2 & H3); [left; reflexivity|].
      destruct (String.eqb cssClass c) eqn:Hsame.
      * apply String.eqb_eq in Hsame. left. exact Hsame.
      * apply String.eqb_neq in Hsame. right. apply Hin.
        split; [exact H1|]. split; [exact H2|].
        intros Hc. apply in_app_or in Hc. destruct Hc as [Hc|[Hc|[]]]; contradiction.
Qed.

Section PanelClassCalls.

Variable coerceArray : PanelClass -> list string.


End PanelClassCalls.


Section TransformOrigins.

Variable querySelectorAll : Element -> string -> list Element.

Lemma transformOrigin_written (value : Css) (elements : list Element) (el : Element) :
  forall d : gmap Element (gmap string Css),
  In el elements \/ styleOf d el !! "transformOrigin" = Some value ->
  styleOf (fold_left (fun d element =>
                        extendElementStyles (Some element) {["transformOrigin" := value]} d)
                     elements d) el !! "transformOrigin"
  = Some value.
Proof.
  induction elements as [|element elements IH]; intros d Hwritten.
  - destruct Hwritten as [[]|Hthere]. exact Hthere.
  - cbn [fold_left]. apply IH.
    destruct Hwritten as [[->|Hlater]|Hthere].
    + right. apply extendElementStyles_lookup. apply lookup_singleton_eq.
    + left. exact Hlater.
    + right. rewrite styleOf_extend. case_decide; [|exact Hthere].
      rewrite lookup_singleton_eq. reflexivity.
Qed.

(** X27: with a selector set and a bounding box, [_setTransformOrigin]
    returns and gives every element the selector finds in the bounding box a
    transform origin [xOrigin yOrigin] that names the point of the overlay
    that sits on the origin point: the overlay point, moved right by the
    distance of [xOrigin] ([left], [center] or [right]) along the overlay's
    width and down by the distance of [yOrigin] ([top], [center] or
    [bottom]) along its height, is the origin point, in either direction,
    for a position whose [overlayY] is one of the three literals. *)
Theorem setTransformOrigin_names_the_connection_point (selector : string) (s : Strategy)
    (e : Env) (position : ConnectedPosition) (box el : Element) (originPoint : Point)
    (overlayRect : ClientRect) :
  selector <> "" ->
  _boundingBox s = Some box ->
  In el (querySelectorAll box selector) ->
  vertical (overlayY position) ->
  let point := _getOverlayPoint (isRtl e) originPoint overlayRect position in
  let result := _setTransformOrigin querySelectorAll (Some selector) s e position in
  exists xOrigin yOrigin,
    snd result = Returned
    /\ styleOf (dom (fst result)) el !! "transformOrigin"
       = Some (CssLit (xOrigin ++ " " ++ yOrigin))
    /\ x point + anchorX xOrigin (width overlayRect) == x originPoint
    /\ y point + anchorY yOrigin (height overlayRect) == y originPoint.
Proof.
  intros Hselector Hbox Hin Hvertical. cbv zeta.
  unfold _setTransformOrigin. apply String.eqb_neq in Hselector. rewrite Hselector, Hbox.
  exists (fst (transformOrigin (isRtl e) position)), (snd (transformOrigin (isRtl e) position)).
  destruct (transformOrigin (isRtl e) position) as [xOrigin yOrigin] eqn:Horigin.
  cbn [fst snd dom set_dom]. split; [reflexivity|]. split.
  - apply transformOrigin_written. left. exact Hin.
  - unfold transformOrigin in Horigin. injection Horigin as <- <-.
    unfold _getOverlayPoint. cbn [x y]. split.
    + destruct (String.eqb (overlayX position) "center"), (isRtl e),
        (String.eqb (overlayX position) "start"); cbn; rewrite ?half; lra.
    + destruct Hvertical as [-> | [-> | ->]]; cbn; rewrite ?half; lra.
Qed.

End TransformOrigins.

Lemma setTransformOrigin_names_the_connection_point_witness :
  let querySelectorAll (_ : Element) (_ : string) := [7; 8]%nat in
  let e := Fixture.browser (Fixture.rectAt 10 10 20 20) 30 30 0 in
  let s := Fixture.attached [1%nat] in
  let overlayRect := Fixture.rectAt 0 0 30 30 in
  let originPoint := mkPoint 10 10 in
  let point := _getOverlayPoint (isRtl e) originPoint overlayRect Fixture.aboveStart in
  let result := _setTransformOrigin querySelectorAll (Some ".menu") s e Fixture.aboveStart in
  styleOf (dom (fst result)) 8%nat !! "transformOrigin" = Some (CssLit "left bottom")
  /\ exists xOrigin yOrigin,
       snd result = Returned
       /\ styleOf (dom (fst result)) 8%nat !! "transformOrigin"
          = Some (CssLit (xOrigin ++ " " ++ yOrigin))
       /\ x point + anchorX xOrigin (width overlayRect) == x originPoint
       /\ y point + anchorY yOrigin (height overlayRect) == y originPoint.
Proof.
  cbv zeta. split; [vm_compute; reflexivity|].
  refine (setTransformOrigin_names_the_connection_point (fun _ _ => [7; 8]%nat) ".menu"
            (Fixture.attached [1%nat]) (Fixture.browser (Fixture.rectAt 10 10 20 20) 30 30 0)
            Fixture.aboveStart Fixture.host 8%nat (mkPoint 10 10) (Fixture.rectAt 0 0 30 30)
            _ _ _ _).
  - discriminate.
  - reflexivity.
  - right. left. reflexivity.
  - right. right. reflexivity.
Defined.

(** ** The extent of the bounding box *)

(** X30: where the edges of the bounding box of a flexible overlay lie in
    the narrowed viewport, in the coordinates of the document's client
    area.  A box opening downward ([overlayY] [top]) starts at the origin
    point and ends one margin above the bottom; a box opening upward
    ([bottom]) ends at the origin point and starts one margin below the top.
    A box opening rightward starts at the origin point and ends at the right
    edge of the viewport rectangle; a box opening leftward is as wide as the
    origin point is far from the left margin line, but its right edge lies
    one margin to the right of the origin point. *)
Theorem calculateBoundingBoxRect_reaches_the_margin (s : Strategy) (e : Env) (origin : Point)
    (position : ConnectedPosition) :
  _viewportRect s = _getNarrowedViewportRect s e ->
  let rect := _calculateBoundingBoxRect s e origin position in
  let margin := _viewportMargin s in
  (overlayY position = "top" ->
   bb_top rect = Some (y origin)
   /\ y origin + bb_height rect == clientHeight e - margin)
  /\ (overlayY position = "bottom" ->
      exists fromBottom,
        bb_bottom rect = Some fromBottom
        /\ clientHeight e - fromBottom == y origin
        /\ clientHeight e - fromBottom - bb_height rect == margin)
  /\ (overlayX position = (if isRtl e then "end" else "start") ->
      bb_left rect = Some (x origin)
      /\ x origin + bb_width rect == right (_viewportRect s))
  /\ (overlayX position = (if isRtl e then "start" else "end") ->
      exists fromRight,
        bb_right rect = Some fromRight
        /\ clientWidth e - fromRight == x origin + margin
        /\ x origin - bb_width rect == margin).
Proof.
  intros Hviewport. cbv zeta. unfold _calculateBoundingBoxRect. rewrite Hviewport.
  unfold _getNarrowedViewportRect. cbn [height width right bottom top left].
  destruct (String.eqb (overlayY position) "top") eqn:Htop,
    (String.eqb (overlayY position) "bottom") eqn:Hbottom,
    (String.eqb (overlayX position) "start") eqn:Hstart,
    (String.eqb (overlayX position) "end") eqn:Hend, (isRtl e);
    cbn [negb andb orb bb_top bb_bottom bb_left bb_right bb_width bb_height];
    repeat apply conj; intros Hposition; rewrite Hposition in *;
    try discriminate;
    try (split; [reflexivity|lra]);
    eexists; (split; [reflexivity|]); split; lra.
Qed.

Lemma calculateBoundingBoxRect_reaches_the_margin_witness :
  let here := Fixture.browser (Fixture.rectAt 10 10 20 20) 30 30 0 in
  let s := beginApply (withViewportMargin (Fixture.attached [1%nat]) 8) here Fixture.pane in
  let origin := mkPoint 30 40 in
  let rect := _calculateBoundingBoxRect s here origin Fixture.aboveStart in
  bb_height rect == 32
  /\ bb_width rect == 62
  /\ _viewportRect s = _getNarrowedViewportRect s here
  /\ exists fromBottom,
       bb_bottom rect = Some fromBottom
       /\ clientHeight here - fromBottom == y origin
       /\ clientHeight here - fromBottom - bb_height rect == 8.
Proof.
  cbv zeta. split; [vm_compute; reflexivity|]. split; [vm_compute; reflexivity|].
  split; [reflexivity|].
  refine (proj1 (proj2 (calculateBoundingBoxRect_reaches_the_margin
                          (beginApply (withViewportMargin (Fixture.attached [1%nat]) 8)
                             (Fixture.browser (Fixture.rectAt 10 10 20 20) 30 30 0)
                             Fixture.pane)
                          (Fixture.browser (Fixture.rectAt 10 10 20 20) 30 30 0)
                          (mkPoint 30 40) Fixture.aboveStart _)) _); reflexivity.
Defined.

(** ** Applying twice *)

Section Again.

Variable objects : PosRef -> ConnectedPosition.
Variable parseFloat : string -> JsNumber.
Variable coerceCssPixelValue : JsVal -> Css.

Lemma pushedAs_fields (pushed : option bool) (s : Strategy) :
  pushedAs pushed s
  = mkStrategy (_overlayRef s) (_isInitialRender s) (_lastBoundingBoxSize s)
      (_isPushed (pushedAs pushed s)) (_canPush s)
      (_growAfterOpen s) (_hasFlexibleDimensions s) (_positionLocked s) (_originRect s)
      (_overlayRect s) (_viewportRect s) (_viewportMargin s) (_preferredPositions s)
      (_origin s) (_pane s) (_boundingBox s) (_isDisposed s) (_lastPosition s)
      (_resizeSubscription s) (_offsetX s) (_offsetY s) (_previousPushAmount s)
      (dom s) (emitted s).
Proof. destruct pushed, s; reflexivity. Qed.

(** The width and the height of the bounding box of a position depend on
    neither the last size nor the render being the first. *)
Lemma _calculateBoundingBoxRect_size (s t : Strategy) (e : Env) (origin : Point)
    (position : ConnectedPosition) :
  _viewportRect t = _viewportRect s ->
  _viewportMargin t = _viewportMargin s ->
  bb_width (_calculateBoundingBoxRect t e origin position)
  = bb_width (_calculateBoundingBoxRect s e origin position)
  /\ bb_height (_calculateBoundingBoxRect t e origin position)
     = bb_height (_calculateBoundingBoxRect s e origin position).
Proof.
  intros Hviewport Hmargin. unfold _calculateBoundingBoxRect. rewrite Hviewport, Hmargin.
  destruct (String.eqb (overlayY position) "top"), (String.eqb (overlayY position) "bottom"),
    (String.eqb (overlayX position) "start"), (String.eqb (overlayX position) "end"),
    (isRtl e); split; reflexivity.
Qed.

Lemma _canFitWithFlexibleDimensions_again (s t : Strategy) (e : Env) (fit : OverlayFit)
    (point : Point) (viewport : ClientRect) :
  _hasFlexibleDimensions t = _hasFlexibleDimensions s ->
  _canFitWithFlexibleDimensions parseFloat t e fit point viewport
  = _canFitWithFlexibleDimensions parseFloat s e fit point viewport.
Proof. unfold _canFitWithFlexibleDimensions. intros ->. reflexivity. Qed.

(** The loop over the positions reads the three rectangles, the margin, the
    offsets and the flexible-dimensions flag: on two strategies that agree on
    these it ends alike. *)
Lemma positionsLoop_again (s t : Strategy) (e : Env) :
  _originRect t = _originRect s ->
  _overlayRect t = _overlayRect s ->
  _viewportRect t = _viewportRect s ->
  _viewportMargin t = _viewportMargin s ->
  _offsetX t = _offsetX s ->
  _offsetY t = _offsetY s ->
  _hasFlexibleDimensions t = _hasFlexibleDimensions s ->
  forall positions fits fits' fallback,
  map readOf fits' = map readOf fits ->
  match positionsLoop objects parseFloat s e positions fits fallback with
  | FitsCompletely pos originPoint =>
      positionsLoop objects parseFloat t e positions fits' fallback
      = FitsCompletely pos originPoint
  | NoneFits found fallback' =>
      exists found',
        positionsLoop objects parseFloat t e positions fits' fallback
        = NoneFits found' fallback'
        /\ map readOf found' = map readOf found
  end.
Proof.
  intros Horigin Hoverlay Hviewport Hmargin Hx Hy Hflexible.
  induction positions as [|pos positions IH]; intros fits fits' fallback Hfits.
  - cbn [positionsLoop]. exists fits'. split; [reflexivity|exact Hfits].
  - cbn [positionsLoop]. rewrite Horigin, Hoverlay, Hviewport, Hx, Hy.
    destruct (isCompletelyWithinViewport _); [reflexivity|].
    rewrite (_canFitWithFlexibleDimensions_again s t e _ _ _ Hflexible).
    destruct (_canFitWithFlexibleDimensions _ _ _ _ _ _).
    + apply IH. rewrite !map_app, Hfits. f_equal. cbn [map]. f_equal. unfold readOf.
      cbn [ff_position ff_origin ff_boundingBoxRect].
      destruct (_calculateBoundingBoxRect_size s t e
                  (_getOriginPoint (isRtl e) (_originRect s) (objects pos)) (objects pos)
                  Hviewport Hmargin) as [Hwidth Hheight].
      rewrite Hwidth, Hheight. reflexivity.
    + apply IH. exact Hfits.
Qed.

Lemma score_readOf (fit fit' : FlexibleFit) :
  readOf fit' = readOf fit -> score objects fit' = score objects fit.
Proof.
  unfold readOf, score. intros [= -> _ -> ->]. reflexivity.
Qed.

(** The scan for the best fit reads of each fit what [readOf] gives. *)
Lemma bestFitLoop_again (fits : list FlexibleFit) :
  forall fits' best best' bestScore,
  map readOf fits' = map readOf fits ->
  option_map readOf best' = option_map readOf best ->
  option_map readOf (bestFitLoop objects fits' best' bestScore)
  = option_map readOf (bestFitLoop objects fits best bestScore).
Proof.
  induction fits as [|fit fits IH]; intros [|fit' fits'] best best' bestScore Hfits Hbest;
    try discriminate.
  - exact Hbest.
  - pose proof (f_equal (List.hd (readOf fit)) Hfits) as Hfit.
    pose proof (f_equal (@List.tl _) Hfits) as Hrest. cbn [map List.hd List.tl] in Hfit, Hrest.
    cbn [bestFitLoop].
    rewrite (score_readOf fit fit' Hfit).
    destruct (Qltb bestScore (score objects fit)); apply IH; try assumption.
    cbn [option_map]. rewrite Hfit. reflexivity.
Qed.

(** The selection settles on the same position on two strategies that agree
    on what the loop reads, on the positions and on [_canPush]. *)
Lemma selectionOf_again (s t : Strategy) (e : Env) :
  _originRect t = _originRect s ->
  _overlayRect t = _overlayRect s ->
  _viewportRect t = _viewportRect s ->
  _viewportMargin t = _viewportMargin s ->
  _offsetX t = _offsetX s ->
  _offsetY t = _offsetY s ->
  _hasFlexibleDimensions t = _hasFlexibleDimensions s ->
  _preferredPositions t = _preferredPositions s ->
  _canPush t = _canPush s ->
  selectionOf objects parseFloat t e = selectionOf objects parseFloat s e.
Proof.
  intros Horigin Hoverlay Hviewport Hmargin Hx Hy Hflexible Hpositions Hpush.
  pose proof (positionsLoop_again s t e Horigin Hoverlay Hviewport Hmargin Hx Hy Hflexible
                (_preferredPositions s) [] [] None eq_refl) as Hloop.
  unfold selectionOf. rewrite Hpositions, Hpush.
  destruct (positionsLoop objects parseFloat s e (_preferredPositions s) [] None)
    as [pos originPoint|found fallback].
  - rewrite Hloop. reflexivity.
  - destruct Hloop as (found' & -> & Hfound).
    destruct found as [|fit found], found' as [|fit' found']; try discriminate;
      [reflexivity|].
    pose proof (bestFitLoop_again (fit :: found) (fit' :: found') None None (-1) Hfound
                  eq_refl) as Hbest.
    destruct (bestFitLoop objects (fit' :: found') None (-1)) as [best'|],
      (bestFitLoop objects (fit :: found) None (-1)) as [best|]; try discriminate;
      [|reflexivity].
    cbn [option_map] in Hbest. unfold readOf in Hbest. injection Hbest as -> -> _ _.
    reflexivity.
Qed.

(** The loop keeps with every position its origin point. *)
Lemma positionsLoop_origins (s : Strategy) (e : Env) (positions : list PosRef) :
  forall fits fallback,
  (forall f, In f fits -> ff_origin f = originPointOf objects s e (ff_position f)) ->
  (forall f, fallback = Some f -> fb_originPoint f = originPointOf objects s e (fb_position f)) ->
  match positionsLoop objects parseFloat s e positions fits fallback with
  | FitsCompletely pos originPoint => originPoint = originPointOf objects s e pos
  | NoneFits found fallback' =>
      (forall f, In f found -> ff_origin f = originPointOf objects s e (ff_position f))
      /\ (forall f, fallback' = Some f ->
            fb_originPoint f = originPointOf objects s e (fb_position f))
  end.
Proof.
  induction positions as [|pos positions IH]; intros fits fallback Hfits Hfallback.
  - cbn [positionsLoop]. split; assumption.
  - cbn [positionsLoop].
    destruct (isCompletelyWithinViewport _); [reflexivity|].
    destruct (_canFitWithFlexibleDimensions _ _ _ _ _ _).
    + apply IH; [|exact Hfallback].
      intros f Hf. apply in_app_or in Hf. destruct Hf as [Hf|[<-|[]]]; [apply Hfits, Hf|].
      reflexivity.
    + apply IH; [exact Hfits|].
      destruct fallback as [previous|].
      * destruct (Qltb _ _); intros f [= <-]; [reflexivity|].
        apply Hfallback. reflexivity.
      * intros f [= <-]. reflexivity.
Qed.

Lemma selectionOf_origin (s : Strategy) (e : Env) (position : PosRef) (originPoint : Point)
    (pushed : option bool) :
  selectionOf objects parseFloat s e = Some (position, originPoint, pushed) ->
  originPoint = _getOriginPoint (isRtl e) (_originRect s) (objects position).
Proof.
  unfold selectionOf.
  pose proof (positionsLoop_origins s e (_preferredPositions s) [] None
                (fun f (H : In f []) => match H with end)
                (fun f (H : None = Some f) => ltac:(discriminate))) as Hloop.
  destruct (positionsLoop objects parseFloat s e (_preferredPositions s) [] None)
    as [pos point|found fallback].
  - intros [= <- <- _]. exact Hloop.
  - destruct Hloop as [Hfound Hfallback]. destruct found as [|fit found].
    + destruct fallback as [f|]; [|discriminate]. intros [= <- <- _].
      apply Hfallback. reflexivity.
    + destruct (bestFitLoop objects (fit :: found) None (-1)) as [best|] eqn:Hbest;
        [|discriminate].
      intros [= <- <- _].
      destruct (bestFitLoop_listed objects _ _ _ _ Hbest) as [Hin|Hnone]; [|discriminate].
      apply Hfound. exact Hin.
Qed.

(** [apply], when it runs the selection, places the overlay at what the
    selection settles on, and throws when it settles on nothing. *)
Lemma apply_selectionOf (s : Strategy) (e : Env) (pane : Element) :
  selects s e pane ->
  match selectionOf objects parseFloat (beginApply s e pane) e with
  | Some (position, originPoint, pushed) =>
      apply objects parseFloat coerceCssPixelValue s e
      = (_applyPosition objects coerceCssPixelValue (pushedAs pushed (beginApply s e pane)) e
           position originPoint, Returned)
  | None => snd (apply objects parseFloat coerceCssPixelValue s e) = TypeError
  end.
Proof.
  intros Hselects. rewrite (apply_selecting objects parseFloat coerceCssPixelValue s e pane Hselects).
  cbv zeta. unfold selectionOf. generalize (beginApply s e pane). intros g.
  destruct (positionsLoop objects parseFloat g e (_preferredPositions g) [] None)
    as [pos point|found fallback]; [reflexivity|].
  destruct found as [|fit found].
  - destruct (_canPush g), fallback as [f|]; reflexivity.
  - destruct (bestFitLoop objects (fit :: found) None (-1)); reflexivity.
Qed.

Lemma union_four (a b c d m : gmap string Css) :
  a ∪ (b ∪ (c ∪ (d ∪ (a ∪ (b ∪ (c ∪ (d ∪ m))))))) = a ∪ (b ∪ (c ∪ (d ∪ m))).
Proof.
  apply map_eq. intros k. rewrite !lookup_union.
  destruct (a !! k), (b !! k), (c !! k), (d !! k), (m !! k); reflexivity.
Qed.

Lemma extendElementStyles_at (target : Element) (source : gmap string Css)
    (d : gmap Element (gmap string Css)) (el : Element) :
  extendElementStyles (Some target) source d !! el
  = if decide (target = el) then Some (source ∪ default ∅ (d !! el)) else d !! el.
Proof.
  unfold extendElementStyles, styleOf, extendStyles. rewrite lookup_insert.
  case_decide; [subst; reflexivity|reflexivity].
Qed.

(** Resetting the styles of the pane and of the bounding box and writing
    the same two style objects as before gives the document there was. *)
Lemma reset_and_extend_again (box pane : Element)
    (boxStyles paneStyles boxReset paneReset : gmap string Css)
    (d : gmap Element (gmap string Css)) :
  let written :=
    extendElementStyles (Some box) boxStyles
      (extendElementStyles (Some pane) paneStyles
         (extendElementStyles (Some box) boxReset
            (extendElementStyles (Some pane) paneReset d))) in
  extendElementStyles (Some box) boxStyles
    (extendElementStyles (Some pane) paneStyles
       (extendElementStyles (Some box) boxReset
          (extendElementStyles (Some pane) paneReset written)))
  = written.
Proof.
  cbv zeta. apply map_eq. intros el. rewrite !extendElementStyles_at.
  destruct (decide (box = el)), (decide (pane = el)); cbn [default]; unfold id;
    try reflexivity; f_equal.
  - apply union_four.
  - apply union_twice.
  - apply union_twice.
Qed.

(** The fields that only the consumer's calls change. *)
Lemma settings_beginApply (pushed : option bool) (s : Strategy) (e : Env) (pane : Element) :
  settings (pushedAs pushed (beginApply s e pane)) = settings s
  /\ _isInitialRender (pushedAs pushed (beginApply s e pane)) = _isInitialRender s
  /\ _lastBoundingBoxSize (pushedAs pushed (beginApply s e pane)) = _lastBoundingBoxSize s
  /\ _previousPushAmount (pushedAs pushed (beginApply s e pane)) = _previousPushAmount s
  /\ _lastPosition (pushedAs pushed (beginApply s e pane)) = _lastPosition s
  /\ emitted (pushedAs pushed (beginApply s e pane)) = emitted s
  /\ _isPushed (pushedAs pushed (beginApply s e pane))
     = match pushed with Some value => value | None => _isPushed s end
  /\ _originRect (pushedAs pushed (beginApply s e pane)) = _getOriginRect s e
  /\ _overlayRect (pushedAs pushed (beginApply s e pane)) = getBoundingClientRect e pane
  /\ _viewportRect (pushedAs pushed (beginApply s e pane)) = _getNarrowedViewportRect s e
  /\ dom (pushedAs pushed (beginApply s e pane))
     = dom (_resetBoundingBoxStyles (_resetOverlayElementStyles s)).
Proof. destruct pushed, s; repeat apply conj; reflexivity. Qed.

Lemma measures_again (s t : Strategy) (e : Env) :
  settings t = settings s ->
  _getOriginRect t e = _getOriginRect s e
  /\ _getNarrowedViewportRect t e = _getNarrowedViewportRect s e.
Proof.
  unfold settings, _getOriginRect, _getNarrowedViewportRect.
  intros [= _ _ _ _ _ -> _ -> _ _ _ _ _ _]. split; reflexivity.
Qed.

Lemma set_dom_same (s : Strategy) : set_dom (dom s) s = s.
Proof. destruct s; reflexivity. Qed.

Lemma settings_applyPosition (s : Strategy) (e : Env) (position : PosRef)
    (originPoint : Point) :
  settings (_applyPosition objects coerceCssPixelValue s e position originPoint) = settings s.
Proof. rewrite _applyPosition_explicit. reflexivity. Qed.

(** Applying a position on a strategy that has the settings, the rectangles
    and the pushed flag of another, and remembers the size and the push
    amount that applying the position on the other gives, computes what it
    computes on the other. *)
Lemma _applyPosition_anew (s t : Strategy) (e : Env) (position : PosRef)
    (originPoint : Point) :
  settings t = settings s ->
  _isPushed t = _isPushed s ->
  _originRect t = _originRect s ->
  _overlayRect t = _overlayRect s ->
  _viewportRect t = _viewportRect s ->
  _isInitialRender t = false ->
  _lastBoundingBoxSize t = sizeOf (placedRect objects s e position originPoint) ->
  _previousPushAmount t = placedAmount objects coerceCssPixelValue s e position originPoint ->
  _applyPosition objects coerceCssPixelValue t e position originPoint
  = set_emitted (afterApplying e position (emitted t))
      (set_dom
         (extendElementStyles (_boundingBox s)
            (boxStylesAt objects coerceCssPixelValue s e position originPoint)
            (extendElementStyles (_pane s)
               (paneStylesAt objects coerceCssPixelValue s e position originPoint) (dom t)))
         (_applyPosition objects coerceCssPixelValue s e position originPoint)).
Proof.
  intros Hsettings Hpushed Horigin Hoverlay Hviewport Hinitial Hsize Hamount.
  rewrite !_applyPosition_explicit.
  destruct (placed_again objects coerceCssPixelValue s t e position originPoint)
    as (Hamount' & Hpaned & Hrect & Hboxed); try assumption.
  { unfold geometry. unfold settings in Hsettings.
    injection Hsettings as _ _ Hgrow Hflexible Hlocked Hmargin _ _ _ _ _ _ Hx Hy.
    rewrite Hpushed, Hgrow, Hflexible, Hlocked, Hmargin, Hx, Hy, Hoverlay, Hviewport.
    reflexivity. }
  rewrite Hamount', Hpaned, Hrect, Hboxed. clear Hamount' Hpaned Hrect Hboxed Hsize Hamount.
  generalize (sizeOf (placedRect objects s e position originPoint)).
  generalize (placedAmount objects coerceCssPixelValue s e position originPoint).
  generalize (boxStylesAt objects coerceCssPixelValue s e position originPoint).
  generalize (paneStylesAt objects coerceCssPixelValue s e position originPoint).
  generalize (afterApplying e position (emitted t)).
  generalize (afterApplying e position (emitted s)).
  intros events events' paneStyles boxStyles amount size.
  unfold settings in Hsettings. destruct s, t. cbn in *.
  injection Hsettings as -> -> -> -> -> -> -> -> -> -> -> -> -> ->. subst. reflexivity.
Qed.

(** Selecting once more after a placement, in the same surroundings, and
    applying the same position leaves the strategy as the placement left
    it, the events apart. *)
Lemma selected_again (s : Strategy) (e : Env) (pane box : Element) (position : PosRef)
    (originPoint : Point) (pushed : option bool) (s1 : Strategy) :
  _pane s = Some pane ->
  _boundingBox s = Some box ->
  s1 = _applyPosition objects coerceCssPixelValue (pushedAs pushed (beginApply s e pane)) e
         position originPoint ->
  _applyPosition objects coerceCssPixelValue (pushedAs pushed (beginApply s1 e pane)) e
    position originPoint
  = set_emitted (afterApplying e position (emitted s1)) s1.
Proof.
  intros Hpane Hbox Hs1.
  destruct (settings_beginApply pushed s e pane)
    as (Hsettings & _ & _ & _ & _ & _ & Hpushed & Horigin & Hoverlay & Hviewport & Hdom).
  destruct (settings_beginApply pushed s1 e pane)
    as (Hsettings1 & Hinitial1 & Hsize1 & Hamount1 & _ & Hemitted1 & Hpushed1 & Horigin1
        & Hoverlay1 & Hviewport1 & Hdom1).
  revert Hs1 Hsettings Hpushed Horigin Hoverlay Hviewport Hdom
    Hsettings1 Hinitial1 Hsize1 Hamount1 Hemitted1 Hpushed1 Horigin1 Hoverlay1 Hviewport1 Hdom1.
  generalize (pushedAs pushed (beginApply s1 e pane)).
  generalize (pushedAs pushed (beginApply s e pane)).
  intros g t Hs1 Hsettings Hpushed Horigin Hoverlay Hviewport Hdom
    Hsettings1 Hinitial1 Hsize1 Hamount1 Hemitted1 Hpushed1 Horigin1 Hoverlay1 Hviewport1 Hdom1.
  assert (Hkept : settings s1 = settings g).
  { rewrite Hs1. apply settings_applyPosition. }
  assert (Hfields : _isInitialRender s1 = false
                    /\ _lastBoundingBoxSize s1
                       = sizeOf (placedRect objects g e position originPoint)
                    /\ _previousPushAmount s1
                       = placedAmount objects coerceCssPixelValue g e position originPoint
                    /\ _isPushed s1 = _isPushed g
                    /\ dom s1
                       = extendElementStyles (_boundingBox g)
                           (boxStylesAt objects coerceCssPixelValue g e position originPoint)
                           (extendElementStyles (_pane g)
                              (paneStylesAt objects coerceCssPixelValue g e position originPoint)
                              (dom g))).
  { rewrite Hs1, _applyPosition_explicit. repeat apply conj; reflexivity. }
  destruct Hfields as (Hinitial & Hsize & Hamount & Hpushed' & Hdoms1).
  destruct (measures_again s s1 e) as [Hmeasure Hnarrowed]; [congruence|].
  rewrite (_applyPosition_anew g t e position originPoint); try congruence.
  - rewrite <- Hs1. rewrite Hemitted1. f_equal.
    assert (Hels : _pane g = Some pane /\ _boundingBox g = Some box
                   /\ _pane s1 = Some pane /\ _boundingBox s1 = Some box).
    { unfold settings in *. repeat split; congruence. }
    destruct Hels as (Hpaneg & Hboxg & Hpane1 & Hbox1).
    rewrite <- (set_dom_same s1) at 2. f_equal.
    rewrite Hdom1. unfold _resetBoundingBoxStyles, _resetOverlayElementStyles.
    cbn [dom set_dom _pane _boundingBox]. rewrite Hpane1, Hbox1, Hdoms1, Hdom, Hpaneg, Hboxg.
    unfold _resetBoundingBoxStyles, _resetOverlayElementStyles.
    cbn [dom set_dom _pane _boundingBox]. rewrite Hpane, Hbox.
    apply reset_and_extend_again.
  - destruct pushed; congruence.
Qed.

Lemma remeasure_measured (s : Strategy) (e : Env) (pane : Element) :
  _originRect s = _getOriginRect s e ->
  _overlayRect s = getBoundingClientRect e pane ->
  _viewportRect s = _getNarrowedViewportRect s e ->
  remeasure s e pane = s.
Proof.
  intros Horigin Hoverlay Hviewport. unfold remeasure.
  replace (_getNarrowedViewportRect
             (set_overlayRect (getBoundingClientRect e pane)
                (set_originRect (_getOriginRect s e) s)) e)
    with (_getNarrowedViewportRect s e) by reflexivity.
  rewrite <- Horigin, <- Hoverlay, <- Hviewport. destruct s. reflexivity.
Qed.

(** A second [apply] after one that placed the overlay, in the same
    surroundings, changes nothing but the events. *)
Lemma placed_then_apply (s : Strategy) (e : Env) (pane box : Element) (position : PosRef)
    (pushed : option bool) (s1 : Strategy) :
  _isDisposed s = false ->
  isBrowser e = true ->
  _pane s = Some pane ->
  _boundingBox s = Some box ->
  selectionOf objects parseFloat (beginApply s e pane) e
  = Some (position, _getOriginPoint (isRtl e) (_getOriginRect s e) (objects position), pushed) ->
  s1 = _applyPosition objects coerceCssPixelValue (pushedAs pushed (beginApply s e pane)) e
         position (_getOriginPoint (isRtl e) (_getOriginRect s e) (objects position)) ->
  apply objects parseFloat coerceCssPixelValue s1 e
  = (set_emitted (afterApplying e position (emitted s1)) s1, Returned).
Proof.
  intros Hlive Hbrowser Hpane Hbox Hchosen Hs1.
  destruct (settings_beginApply pushed s e pane)
    as (Hsettings & _ & _ & _ & _ & _ & _ & Horigin & Hoverlay & Hviewport & _).
  assert (Hfields : settings s1 = settings (pushedAs pushed (beginApply s e pane))
                    /\ _isInitialRender s1 = false
                    /\ _lastPosition s1 = Some position
                    /\ _originRect s1 = _originRect (pushedAs pushed (beginApply s e pane))
                    /\ _overlayRect s1 = _overlayRect (pushedAs pushed (beginApply s e pane))
                    /\ _viewportRect s1
                       = _viewportRect (pushedAs pushed (beginApply s e pane))).
  { rewrite Hs1, _applyPosition_explicit. repeat apply conj; reflexivity. }
  remember (pushedAs pushed (beginApply s e pane)) as g eqn:Hg.
  destruct Hfields as (Hkept & Hinitial & Hlast & Horigin1 & Hoverlay1 & Hviewport1).
  assert (Hsame : settings s1 = settings s) by congruence.
  destruct (measures_again s s1 e Hsame) as [Hmeasure Hnarrowed].
  assert (Hels : _pane s1 = Some pane /\ _boundingBox s1 = Some box
                 /\ _isDisposed s1 = false).
  { unfold settings in Hsame. repeat split; congruence. }
  destruct Hels as (Hpane1 & Hbox1 & Hlive1).
  destruct (lockedShortcut s1) eqn:Hshortcut.
  - rewrite (apply_locked objects parseFloat coerceCssPixelValue s1 e position
               Hshortcut Hlive1 Hbrowser Hlast).
    rewrite Hpane1, Hmeasure.
    rewrite (remeasure_measured s1 e pane) by congruence.
    rewrite (_applyPosition_again objects coerceCssPixelValue g e position _ s1 Hs1).
    reflexivity.
  - assert (Hselects : selects s1 e pane).
    { repeat split; try assumption. exists box. exact Hbox1. }
    pose proof (apply_selectionOf s1 e pane Hselects) as Hsecond.
    destruct (settings_beginApply None s e pane)
      as (Hsettings0 & _ & _ & _ & _ & _ & _ & Horigin0 & Hoverlay0 & Hviewport0 & _).
    destruct (settings_beginApply None s1 e pane)
      as (Hsettings2 & _ & _ & _ & _ & _ & _ & Horigin2 & Hoverlay2 & Hviewport2 & _).
    cbn [pushedAs] in Hsettings0, Horigin0, Hoverlay0, Hviewport0,
      Hsettings2, Horigin2, Hoverlay2, Hviewport2.
    assert (Hagain : selectionOf objects parseFloat (beginApply s1 e pane) e
                     = selectionOf objects parseFloat (beginApply s e pane) e).
    { assert (Hboth : settings (beginApply s1 e pane) = settings (beginApply s e pane)).
      { rewrite Hsettings2, Hsettings0. exact Hsame. }
      unfold settings in Hboth.
      injection Hboth as _ Hpush _ Hflexible _ Hmargin Hpositions _ _ _ _ _ Hx Hy.
      apply selectionOf_again; assumption. }
    rewrite Hagain, Hchosen in Hsecond. rewrite Hsecond. f_equal.
    subst g. apply (selected_again s e pane box); assumption.
Qed.

(** A second [apply] after one that took the locked shortcut. *)
Lemma locked_then_apply (s : Strategy) (e : Env) (s1 : Strategy) :
  lockedShortcut s = true ->
  _isDisposed s = false ->
  isBrowser e = true ->
  apply objects parseFloat coerceCssPixelValue s e = (s1, Returned) ->
  exists position,
    apply objects parseFloat coerceCssPixelValue s1 e
    = (set_emitted (afterApplying e position (emitted s1)) s1, Returned).
Proof.
  intros Hlocked Hdisposed Hbrowser Hrun.
  assert (Hsome : exists position, _lastPosition s = Some position).
  { unfold lockedShortcut in Hlocked. apply andb_prop in Hlocked.
    destruct Hlocked as [_ Hsome]. apply bool_decide_eq_true in Hsome. exact Hsome. }
  destruct Hsome as [position Hlast]. exists position.
  rewrite (apply_locked objects parseFloat coerceCssPixelValue s e position
             Hlocked Hdisposed Hbrowser Hlast) in Hrun.
  destruct (_pane s) as [pane|] eqn:Hpane; [|discriminate].
  injection Hrun as Hs1. symmetry in Hs1.
  destruct (remeasure_again objects coerceCssPixelValue s e pane position _ s1 Hs1)
    as [Hmeasure Horigin].
  pose proof (_applyPosition_again objects coerceCssPixelValue (remeasure s e pane) e
                position _ s1 Hs1) as Hagain.
  assert (Hfields :
    _lastPosition s1 = Some position /\ _isInitialRender s1 = false
    /\ _positionLocked s1 = _positionLocked s /\ _isDisposed s1 = _isDisposed s
    /\ _pane s1 = _pane s).
  { rewrite Hs1, _applyPosition_explicit. repeat apply conj; reflexivity. }
  destruct Hfields as (Hlast1 & Hinitial1 & Hlocked1 & Hdisposed1 & Hpane1).
  assert (Hshortcut1 : lockedShortcut s1 = true).
  { unfold lockedShortcut in *. rewrite Hinitial1, Hlocked1, Hlast1.
    apply andb_prop in Hlocked. destruct Hlocked as [Hlocked _].
    apply andb_prop in Hlocked. destruct Hlocked as [_ Hlocked]. rewrite Hlocked.
    cbn [negb andb]. apply bool_decide_eq_true. eexists. reflexivity. }
  rewrite (apply_locked objects parseFloat coerceCssPixelValue s1 e position Hshortcut1)
    by congruence.
  rewrite Hpane1, Hpane, Hmeasure, Horigin, Hagain. reflexivity.
Qed.

(** X29: [apply] is idempotent.  When a call of [apply] returns, a second
    call in the same surroundings (the same measurements of the origin, the
    overlay and the viewport, the same configuration and direction) returns
    too and leaves the strategy as the first call left it: the same
    position, the same styles on every element, the same bounding-box size,
    push amount and pushed flag.  Only the events differ: at most one more
    is sent, and none without an observer.  This holds whether the calls
    select among the positions or take the locked shortcut. *)
Theorem apply_again_changes_nothing_but_the_events (s : Strategy) (e : Env) (s1 : Strategy) :
  apply objects parseFloat coerceCssPixelValue s e = (s1, Returned) ->
  exists s2 new,
    apply objects parseFloat coerceCssPixelValue s1 e = (s2, Returned)
    /\ s2 = set_emitted (new ++ emitted s1)%list s1
    /\ (length new <= 1)%nat
    /\ (observers e = 0%nat -> new = []).
Proof.
  intros Hrun.
  assert (Hevents : forall position,
            exists new, afterApplying e position (emitted s1) = (new ++ emitted s1)%list
                        /\ (length new <= 1)%nat /\ (observers e = 0%nat -> new = [])).
  { intros position. unfold afterApplying.
    destruct (observers e) as [|n]; cbn [Nat.ltb Nat.leb].
    - exists []. repeat split. cbn. lia.
    - exists [mkChange position (scrollVisibility e)]. repeat split; [cbn; lia|discriminate]. }
  assert (Hplaced : forall position,
            apply objects parseFloat coerceCssPixelValue s1 e
            = (set_emitted (afterApplying e position (emitted s1)) s1, Returned) ->
            exists s2 new,
              apply objects parseFloat coerceCssPixelValue s1 e = (s2, Returned)
              /\ s2 = set_emitted (new ++ emitted s1)%list s1
              /\ (length new <= 1)%nat
              /\ (observers e = 0%nat -> new = [])).
  { intros position Hsecond. destruct (Hevents position) as (new & Hnew & Hlength & Hnone).
    exists (set_emitted (afterApplying e position (emitted s1)) s1), new.
    rewrite Hnew in *. auto. }
  clear Hevents.
  destruct (_isDisposed s || negb (isBrowser e)) eqn:Hskip.
  - assert (Hsame : s1 = s).
    { unfold apply in Hrun. rewrite Hskip in Hrun. congruence. }
    subst s1. exists s, []. cbn [app]. rewrite set_emitted_same.
    repeat split; [exact Hrun|cbn; lia].
  - apply orb_false_elim in Hskip. destruct Hskip as [Hlive Hbrowser].
    apply negb_false_iff in Hbrowser.
    destruct (lockedShortcut s) eqn:Hlocked.
    + destruct (locked_then_apply s e s1 Hlocked Hlive Hbrowser Hrun) as [position Hsecond].
      exact (Hplaced position Hsecond).
    + destruct (_pane s) as [pane|] eqn:Hpane, (_boundingBox s) as [box|] eqn:Hbox;
        try (exfalso; revert Hrun; unfold apply; unfold lockedShortcut in Hlocked;
             rewrite Hlive, Hbrowser, Hlocked, Hpane, ?Hbox; discriminate).
      assert (Hselects : selects s e pane).
      { repeat split; try assumption. exists box. exact Hbox. }
      pose proof (apply_selectionOf s e pane Hselects) as Hfirst.
      destruct (selectionOf objects parseFloat (beginApply s e pane) e)
        as [[[position originPoint] pushed]|] eqn:Hchosen.
      * pose proof (selectionOf_origin _ _ _ _ _ Hchosen) as Hpoint.
        change (_originRect (beginApply s e pane)) with (_getOriginRect s e) in Hpoint.
        subst originPoint. rewrite Hfirst in Hrun. injection Hrun as Hs1. symmetry in Hs1.
        apply (Hplaced position).
        exact (placed_then_apply s e pane box position pushed s1 Hlive Hbrowser Hpane Hbox
                 Hchosen Hs1).
      * rewrite Hrun in Hfirst. discriminate.
Qed.

End Again.


Lemma apply_again_changes_nothing_but_the_events_witness :
  let run := apply Fixture.objects Fixture.parseFloat Fixture.coerceCssPixelValue in
  let here := Fixture.browser (Fixture.rectAt 10 10 20 20) 30 30 1 in
  let first := fst (run (Fixture.attached [0%nat; 1%nat]) here) in
  run (Fixture.attached [0%nat; 1%nat]) here = (first, Returned)
  /\ exists second new,
       run first here = (second, Returned)
       /\ second = set_emitted (new ++ emitted first)%list first
       /\ (length new <= 1)%nat
       /\ (observers here = 0%nat -> new = []).
Proof.
  cbv zeta.
  assert (Hfirst :
    apply Fixture.objects Fixture.parseFloat Fixture.coerceCssPixelValue
      (Fixture.attached [0%nat; 1%nat]) (Fixture.browser (Fixture.rectAt 10 10 20 20) 30 30 1)
    = (fst (apply Fixture.objects Fixture.parseFloat Fixture.coerceCssPixelValue
              (Fixture.attached [0%nat; 1%nat])
              (Fixture.browser (Fixture.rectAt 10 10 20 20) 30 30 1)), Returned)).
  { vm_compute. reflexivity. }
  split; [exact Hfirst|].
  exact (apply_again_changes_nothing_but_the_events Fixture.objects Fixture.parseFloat
           Fixture.coerceCssPixelValue _ _ _ Hfirst).
Defined.
